(** * svckit: the amp message envelope and the full/diff broker

    A shallow embedding of [amp/amp.go] (the wire envelope [Msg], its
    marshalling with size-gated deflate compression and payload cache,
    [Parse] and [Undeflate]) and of [amp/broker] (the per-topic broker, its
    subscriber handshake and the registry with time-to-live eviction),
    followed by the properties proved about them. *)

From Stdlib Require Import ZArith Lia.
From Stdlib.Strings Require Import Byte.
From stdpp Require Import base option list gmap strings.

Local Open Scope Z_scope.

#[global] Instance byte_eq_dec : EqDecision byte := Byte.byte_eq_dec.

(** * The envelope: amp.go *)

Module Amp.

(** supported compression types (uint8 constants) *)
Definition CompressionNone : Z := 0.
Definition CompressionDeflate : Z := 1.

(** [compressionLenLimit]: do not compress messages smaller than this. *)
Definition compressionLenLimit : Z := 8 * 1024.

(** [separtor = []byte{10}] *)
Definition separtor : list byte := [x0a].

(** The exported fields of [Msg]: exactly what [encoding/json] sees. *)
Record Header := mkHeader {
  Type_ : Z;                               (* uint8,  json "t" *)
  ReplyTo : string;                        (* json "r" *)
  CorrelationID : Z;                       (* uint64, json "i" *)
  Error : string;                          (* json "e" *)
  ErrorCode : Z;                           (* int64,  json "c" *)
  URI : string;                            (* json "u" *)
  Ts : Z;                                  (* int64,  json "s" *)
  UpdateType : Z;                          (* uint8,  json "p" *)
  Replay : Z;                              (* uint8,  json "l" *)
  Subscriptions : option (gmap string Z)   (* map[string]int64, nil = None, json "b" *)
}.

(** [Msg]: the header fields followed by the unexported ones.  [src] is a
    [BodyMarshaler]; all the code does with it is to call [MarshalJSON] and
    drop the error, so it is represented by the bytes that call returns.
    [payloads] is a Go map that is nil until the first store; reading a nil
    map finds nothing, so nil is the empty map. *)
Record Msg := mkMsg {
  hdr : Header;
  body : option (list byte);
  noCompression : bool;
  payloads : gmap Z (list byte);
  src : option (list byte);
  topic : string;
  path : string
}.

(** The two standard-library codecs the envelope is built on.
    [json_marshal]/[json_unmarshal] stand for [json.Marshal] and
    [json.Unmarshal] at type [Msg] (None: the decoder returned an error);
    [flate_compress] is a [flate.Writer] at the default level fed the whole
    input and closed, [flate_inflate] a [flate.Reader] drained by [io.Copy]. *)
Class Codecs := {
  json_marshal : Header -> list byte;
  json_unmarshal : list byte -> option Header;
  flate_compress : list byte -> list byte;
  flate_inflate : list byte -> list byte
}.

(** [bytes.SplitN(buf, separtor, 2)]: the part before the first separator
    byte and, when there is one, the part after it. *)
Fixpoint SplitN2 (buf : list byte) : list byte * option (list byte) :=
  match buf with
  | [] => ([], None)
  | b :: rest =>
      if Byte.eqb b x0a then ([], Some rest)
      else let '(h, t) := SplitN2 rest in (b :: h, t)
  end.

Definition body_bytes (m : Msg) : list byte := default [] (body m).

Section WithCodecs.
Context {C : Codecs}.

(** [Parse]: nil (None) when the header does not decode. *)
Definition Parse (buf : list byte) : option Msg :=
  let parts := SplitN2 buf in
  match json_unmarshal parts.1 with
  | None => None
  | Some h =>
      Some {| hdr := h; body := parts.2; noCompression := false;
              payloads := ∅; src := None; topic := EmptyString; path := EmptyString |}
  end.

(** [Undeflate]: append the raw-deflate terminator, then inflate. *)
Definition Undeflate (data : list byte) : list byte :=
  flate_inflate (data ++ [x00; x00; xff; xff]).

(** [deflate]: compress and cut the last four bytes. *)
Definition deflate (s : list byte) : list byte :=
  let buf := flate_compress s in
  if decide (4 < length buf)%nat then take (length buf - 4)%nat buf else buf.

(** [Msg.payload]: header, separator, body, marshalled source. *)
Definition payload (m : Msg) : list byte :=
  json_marshal (hdr m) ++ separtor ++ default [] (body m) ++ default [] (src m).

Definition payloadKey (compression : Z) : Z := compression.

(** [Msg.marshal]: the envelope after the call (memo flag and cache
    updated), the bytes and whether they are compressed. *)
Definition marshal (m : Msg) (supportedCompression : Z) : Msg * list byte * bool :=
  let compression := if noCompression m then CompressionNone else supportedCompression in
  let key := payloadKey compression in
  match payloads m !! key with
  | Some p => (m, p, negb (compression =? CompressionNone))
  | None =>
      let p := payload m in
      let small := Z.of_nat (length p) <? compressionLenLimit in
      let noC := if small then true else noCompression m in
      let compression := if small then CompressionNone else compression in
      let p := if compression =? CompressionDeflate then deflate p else p in
      ({| hdr := hdr m; body := body m; noCompression := noC;
          payloads := <[key := p]> (payloads m); src := src m;
          topic := topic m; path := path m |},
       p, negb (compression =? CompressionNone))
  end.

Definition Marshal (m : Msg) : Msg * list byte :=
  (marshal m CompressionNone).1.

Definition MarshalDeflate (m : Msg) : Msg * list byte * bool :=
  marshal m CompressionDeflate.

(** What the bytes of a marshal are to be read as on the receiving side. *)
Definition received (buf : list byte) (compressed : bool) : list byte :=
  if compressed then Undeflate buf else buf.

(** The payload cache agrees with the envelope: what is stored under a key
    that can still be looked up is what [marshal] would compute now, and
    the memo flag is set only on an envelope below the limit.  True of an
    envelope that was never marshalled, and kept by [marshal]. *)
Definition coherent (m : Msg) : Prop :=
  (forall p, payloads m !! CompressionNone = Some p -> p = payload m) /\
  (noCompression m = false ->
     forall p, payloads m !! CompressionDeflate = Some p ->
       p = deflate (payload m) /\ compressionLenLimit <= Z.of_nat (length (payload m))) /\
  (noCompression m = true -> Z.of_nat (length (payload m)) < compressionLenLimit).

(** The envelope after a series of marshal calls. *)
Definition marshals (m : Msg) (ss : list Z) : Msg :=
  foldl (fun m s => (marshal m s).1.1) m ss.

(** What the envelope relies on from [encoding/json] at one header: the
    encoding decodes to the header it came from and contains no newline
    (the encoder escapes control characters and emits no whitespace). *)
Definition json_faithful (h : Header) : Prop :=
  json_unmarshal (json_marshal h) = Some h /\ x0a ∉ json_marshal h.

(** What it relies on from [compress/flate] at one input: inflating the
    closed stream gives the input back, and the stream ends with the LEN and
    NLEN of the empty stored block that [Close] writes, after at least its
    header byte. *)
Definition flate_faithful (p : list byte) : Prop :=
  flate_inflate (flate_compress p) = p /\
  (4 < length (flate_compress p))%nat /\
  drop (length (flate_compress p) - 4) (flate_compress p) = [x00; x00; xff; xff].

End WithCodecs.

(** An envelope as the constructors of the package leave it. *)
Definition fresh_msg (h : Header) (b : option (list byte)) : Msg :=
  {| hdr := h; body := b; noCompression := false; payloads := ∅;
     src := None; topic := EmptyString; path := EmptyString |}.

Definition zero_header : Header :=
  mkHeader 0 EmptyString 0 EmptyString 0 EmptyString 0 0 0 None.

(** ** Kinds of message, constructors and the URI

    The constant [Replay] of the source shares its name with the field; it
    is [Replay_] here.  The methods [Request] and [Response] share theirs
    with the message types; they are [Msg_Request] and [Msg_Response]. *)

(** Message types *)
Definition Publish : Z := 0.
Definition Subscribe : Z := 1.
Definition Request : Z := 2.
Definition Response : Z := 3.
Definition Ping : Z := 4.
Definition Pong : Z := 5.
Definition Alive : Z := 6.

(** Topic update types *)
Definition Diff : Z := 0.
Definition Full : Z := 1.
Definition Append : Z := 2.
Definition Update : Z := 3.
Definition Close : Z := 4.

(** Replay types *)
Definition Original : Z := 0.
Definition Replay_ : Z := 1.

(** The byte "/" *)
Definition slash : Ascii.ascii := Ascii.ascii_of_nat 47.

(** [strings.Contains(s, "/")] *)
Fixpoint Contains_slash (s : string) : bool :=
  match s with
  | EmptyString => false
  | String c s' => if decide (c = slash) then true else Contains_slash s'
  end.

(** [strings.SplitN(s, "/", 2)]: the part before the first "/" and, when
    there is one, the part after it.  The first component is also
    [strings.Split(s, "/")[0]]. *)
Fixpoint SplitN2_slash (s : string) : string * option string :=
  match s with
  | EmptyString => (EmptyString, None)
  | String c s' =>
      if decide (c = slash) then (EmptyString, Some s')
      else let '(h, t) := SplitN2_slash s' in (String c h, t)
  end.

(** An envelope with nothing but a header, a body and a source. *)
Definition envelope (h : Header) (b s : option (list byte)) (tp pa : string) : Msg :=
  {| hdr := h; body := b; noCompression := false; payloads := ∅;
     src := s; topic := tp; path := pa |}.

(** [Msg.Response]: [b] is what the body's [MarshalJSON] returns. *)
Definition Msg_Response (m : Msg) (b : option (list byte)) : Msg :=
  envelope (mkHeader Response EmptyString (CorrelationID (hdr m)) EmptyString 0
              EmptyString 0 0 0 None)
           None b EmptyString EmptyString.

Definition ResponseTransportError (m : Msg) : Msg :=
  envelope (mkHeader Response EmptyString (CorrelationID (hdr m)) "transport error"
              (-128) EmptyString 0 0 0 None)
           None None EmptyString EmptyString.

Definition Msg_Request (m : Msg) : Msg :=
  envelope (mkHeader Request EmptyString (CorrelationID (hdr m)) EmptyString 0
              (URI (hdr m)) 0 0 0 None)
           (body m) (src m) EmptyString EmptyString.

Definition NewAlive : Msg :=
  envelope (mkHeader Alive EmptyString 0 EmptyString 0 EmptyString 0 0 0 None)
           None None EmptyString EmptyString.

Definition NewPong : Msg :=
  envelope (mkHeader Pong EmptyString 0 EmptyString 0 EmptyString 0 0 0 None)
           None None EmptyString EmptyString.

Definition IsPing (m : Msg) : bool := Type_ (hdr m) =? Ping.
Definition IsAlive (m : Msg) : bool := Type_ (hdr m) =? Alive.

(** [NewPublish]: [o] is what the body object marshals to (directly, or
    wrapped by [JSONMarshaler]). *)
Definition NewPublish (tp pa : string) (ts updateType : Z) (o : list byte) : Msg :=
  let uri := if decide (pa = EmptyString) then tp else tp +:+ String slash pa in
  envelope (mkHeader Publish EmptyString 0 EmptyString 0 uri ts updateType 0 None)
           None (Some o) tp pa.

Definition IsTopicClose (m : Msg) : bool := UpdateType (hdr m) =? Close.
Definition IsReplay (m : Msg) : bool := Replay (hdr m) =? Replay_.
Definition IsFull (m : Msg) : bool := UpdateType (hdr m) =? Full.

(** [Msg.Topic]: the envelope after the call (the topic is kept on it) and
    the topic. *)
Definition Topic (m : Msg) : Msg * string :=
  if decide (topic m = EmptyString) then
    let t := if Contains_slash (URI (hdr m))
             then (SplitN2_slash (URI (hdr m))).1
             else URI (hdr m) in
    ({| hdr := hdr m; body := body m; noCompression := noCompression m;
        payloads := payloads m; src := src m; topic := t; path := path m |}, t)
  else (m, topic m).

(** [Msg.Path] *)
Definition Path (m : Msg) : string :=
  if Contains_slash (URI (hdr m)) then
    match (SplitN2_slash (URI (hdr m))).2 with
    | Some p => p
    | None => EmptyString
    end
  else EmptyString.

(** [Msg.AsReplay] *)
Definition AsReplay (m : Msg) : Msg :=
  envelope (mkHeader (Type_ (hdr m)) EmptyString 0 EmptyString 0 (URI (hdr m))
              (Ts (hdr m)) (UpdateType (hdr m)) Replay_ None)
           (body m) (src m) EmptyString EmptyString.

End Amp.

(** ** A concrete pair of codecs to run the envelope on

    The header codec is the fragment of [encoding/json] at the zero header:
    every field is [omitempty], so the zero header marshals to the empty
    object, which decodes back to it; anything else is outside the fragment
    (no bytes, respectively a decoding error).  The compressor writes raw
    deflate with stored blocks only (BTYPE=00) and, like [flate.Writer.Close],
    ends the stream with an empty final stored block. *)

Module SampleCodecs.
Import Amp.

#[global] Instance Header_eq_dec : EqDecision Header.
Proof. solve_decision. Defined.

Definition json_marshal_zero (h : Header) : list byte :=
  if decide (h = zero_header) then [x7b; x7d] else [].

Definition json_unmarshal_zero (buf : list byte) : option Header :=
  if decide (buf = [x7b; x7d]) then Some zero_header else None.

Definition byte_of_N (n : N) : byte := default x00 (Byte.of_N n).

Definition max_stored : nat := N.to_nat 65535.

(** One stored block: BFINAL/BTYPE byte, LEN, NLEN (little endian), data. *)
Definition stored_block (final : bool) (data : list byte) : list byte :=
  let len := N.of_nat (length data) in
  [ (if final then x01 else x00);
    byte_of_N (len mod 256); byte_of_N (len / 256);
    byte_of_N ((65535 - len) mod 256); byte_of_N ((65535 - len) / 256) ] ++ data.

Fixpoint stored_blocks (fuel : nat) (data : list byte) : list byte :=
  match fuel with
  | O => []
  | S fuel' =>
      match data with
      | [] => []
      | _ => stored_block false (take max_stored data)
               ++ stored_blocks fuel' (drop max_stored data)
      end
  end.

Definition compress_stored (data : list byte) : list byte :=
  stored_blocks (length data) data ++ stored_block true [].

Fixpoint inflate_blocks (fuel : nat) (buf : list byte) : list byte :=
  match fuel with
  | O => []
  | S fuel' =>
      match buf with
      | h :: l0 :: l1 :: _ :: _ :: rest =>
          let len := N.to_nat (Byte.to_N l0 + 256 * Byte.to_N l1) in
          if Byte.eqb h x01 then take len rest
          else if Byte.eqb h x00 then take len rest ++ inflate_blocks fuel' (drop len rest)
          else []
      | _ => []
      end
  end.

Definition inflate_stored (buf : list byte) : list byte :=
  inflate_blocks (length buf) buf.

Definition sample : Codecs :=
  {| json_marshal := json_marshal_zero;
     json_unmarshal := json_unmarshal_zero;
     flate_compress := compress_stored;
     flate_inflate := inflate_stored |}.

(** A body of [n] bytes, all 'a'. *)
Definition body_of_len (n : N) : list byte := replicate (N.to_nat n) x61.

(** ** A header encoder in the format of [encoding/json]

    The fields in the order of the struct under their one-letter tags, zero
    values left out, numbers in decimal, strings quoted with the quote and
    the backslash escaped (the other escapes of [encoding/json] are not
    written out, so the encoder is to be used on strings that need none).
    The decoder knows a given list of headers and returns the one whose
    encoding it is handed. *)

Fixpoint decimal (fuel : nat) (n : N) (acc : list byte) : list byte :=
  match fuel with
  | O => acc
  | S fuel' =>
      let d := byte_of_N (48 + n mod 10) in
      if (n / 10 =? 0)%N then d :: acc else decimal fuel' (n / 10) (d :: acc)
  end.

Definition json_number (z : Z) : list byte :=
  match z with
  | Z0 => [x30]
  | Zpos p => decimal (S (N.to_nat (N.log2 (Npos p)))) (Npos p) []
  | Zneg p => x2d :: decimal (S (N.to_nat (N.log2 (Npos p)))) (Npos p) []
  end.

Definition json_string (s : string) : list byte :=
  x22 :: flat_map (fun b => if decide (b = x22 \/ b = x5c) then [x5c; b] else [b])
           (String.list_byte_of_string s) ++ [x22].

Definition json_field (tag : byte) (v : list byte) : list byte :=
  [x22; tag; x22; x3a] ++ v.

Fixpoint json_join (parts : list (list byte)) : list byte :=
  match parts with
  | [] => []
  | [p] => p
  | p :: rest => p ++ x2c :: json_join rest
  end.

Definition json_object (fields : list (list byte)) : list byte :=
  x7b :: json_join fields ++ [x7d].

Definition number_field (tag : byte) (z : Z) : list (list byte) :=
  if z =? 0 then [] else [json_field tag (json_number z)].

Definition string_field (tag : byte) (s : string) : list (list byte) :=
  if decide (s = EmptyString) then [] else [json_field tag (json_string s)].

Definition map_field (tag : byte) (m : option (gmap string Z)) : list (list byte) :=
  match m with
  | None => []
  | Some m =>
      if decide (m = ∅) then []
      else [json_field tag
              (json_object
                 ((fun e => json_string e.1 ++ x3a :: json_number e.2)
                    <$> map_to_list m))]
  end.

Definition json_encode (h : Header) : list byte :=
  json_object
    (number_field x74 (Type_ h) ++ string_field x72 (ReplyTo h) ++
     number_field x69 (CorrelationID h) ++ string_field x65 (Error h) ++
     number_field x63 (ErrorCode h) ++ string_field x75 (URI h) ++
     number_field x73 (Ts h) ++ number_field x70 (UpdateType h) ++
     number_field x6c (Replay h) ++ map_field x62 (Subscriptions h)).

Definition json_decode_among (known : list Header) (buf : list byte) : option Header :=
  snd <$> list_find (fun h => json_encode h = buf) known.

Definition sample_for (known : list Header) : Codecs :=
  {| json_marshal := json_encode;
     json_unmarshal := json_decode_among known;
     flate_compress := compress_stored;
     flate_inflate := inflate_stored |}.

End SampleCodecs.



(** * The broker: amp/broker *)

(** What a call can come to: it returns, it panics, or it blocks forever. *)
Inductive outcome (A : Type) : Type :=
  | Done (a : A)
  | Panics
  | Blocks.
Arguments Done {A} a.
Arguments Panics {A}.
Arguments Blocks {A}.

#[global] Instance outcome_ret : MRet outcome := fun A a => Done a.
#[global] Instance outcome_bind : MBind outcome := fun A B f o =>
  match o with
  | Done a => f a
  | Panics => Panics
  | Blocks => Blocks
  end.

(** [for x := range l { s = f x s }] with a body that may panic or block. *)
Fixpoint for_each {A S : Type} (f : A -> S -> outcome S) (l : list A) (s : S)
  : outcome S :=
  match l with
  | [] => Done s
  | x :: l' => s' ← f x s; for_each f l' s'
  end.

Module broker.

(** [Message]: the unit handed to a broker; [NewMessage] builds one. *)
Record Message := NewMessage { Event : string; Data : list byte }.

#[global] Instance Message_eq_dec : EqDecision Message.
Proof. solve_decision. Defined.

(** ** The state store

    Modelled from the spec: the ring buffer behind the [state] interface
    ([newRingBuffer], [put], [get], [emit], [waitTouch]), of which the
    broker file holds the interface and the two calls [newRingBuffer(size)]
    and [newRingBuffer(1)] only.  It has a capacity N >= 1; [put] appends
    and, at capacity, evicts the oldest entry; [get] is the latest message;
    [emit] writes the buffered messages, oldest first, to a channel;
    [waitTouch] blocks until a message has ever been stored. *)
Record ringBuffer := mkRing {
  size : nat;
  items : list Message;     (* oldest first *)
  touched : bool            (* a message has been stored *)
}.

Definition newRingBuffer (size : nat) : ringBuffer :=
  {| size := size; items := []; touched := false |}.

Definition put (msg : Message) (r : ringBuffer) : ringBuffer :=
  {| size := size r;
     items := if decide (size r <= length (items r))%nat
              then drop 1 (items r) ++ [msg]
              else items r ++ [msg];
     touched := true |}.

Definition get (r : ringBuffer) : option Message := last (items r).

(** The messages [emit] writes, in the order it writes them. *)
Definition emit (r : ringBuffer) : list Message := items r.

(** Whether [waitTouch] returns (it blocks otherwise). *)
Definition waitTouch (r : ringBuffer) : bool := touched r.

(** ** Channels

    A [chan *Message] is unbuffered: a send is a hand-over to the reader.
    A channel is kept as whether it is closed and what has been handed over
    on it so far; each hand-over is marked with the loop it came from, the
    backlog loop of [emit] or the fan-out loop of [diff].  All channels made
    so far are in one list, a channel being its index there. *)
Abbreviation chan := nat.

Inductive origin := Backlog | Live.

#[global] Instance origin_eq_dec : EqDecision origin.
Proof. solve_decision. Defined.

Record channel := mkChannel {
  closed : bool;
  delivered : list (origin * Message)
}.

(** [make(chan *Message)] *)
Definition make_chan (cs : list channel) : chan * list channel :=
  (length cs, cs ++ [{| closed := false; delivered := [] |}]).

(** [c <- msg]: panics on a closed channel; a channel that was never made
    is nil, on which a send blocks forever. *)
Definition send (o : origin) (msg : Message) (c : chan) (cs : list channel)
  : outcome (list channel) :=
  match cs !! c with
  | None => Blocks
  | Some ch =>
      if closed ch then Panics
      else Done (<[c := {| closed := false; delivered := delivered ch ++ [(o, msg)] |}]> cs)
  end.

(** [close(c)]: panics on a closed or nil channel. *)
Definition close (c : chan) (cs : list channel) : outcome (list channel) :=
  match cs !! c with
  | None => Panics
  | Some ch =>
      if closed ch then Panics
      else Done (<[c := {| closed := true; delivered := delivered ch |}]> cs)
  end.

Definition is_closed (cs : list channel) (c : chan) : Prop :=
  exists ch, cs !! c = Some ch /\ closed ch = true.

Definition is_open (cs : list channel) (c : chan) : Prop :=
  exists ch, cs !! c = Some ch /\ closed ch = false.

(** What has been handed over on a channel so far. *)
Definition log (cs : list channel) (c : chan) : list (origin * Message) :=
  match cs !! c with
  | Some ch => delivered ch
  | None => []
  end.

(** ** The broker

    Times are nanosecond counts.  A function that reads [time.Now()] takes
    the reading as [now]. *)
Record Broker := mkBroker {
  topic : string;
  state : option ringBuffer;          (* nil until a constructor sets it *)
  subscribers : gmap chan bool;
  updated : Z
}.

Definition newBroker (topic : string) (now : Z) : Broker :=
  {| topic := topic; state := None; subscribers := ∅; updated := now |}.

Definition NewBufferedBroker (topic : string) (size : nat) (now : Z) : Broker :=
  let b := newBroker topic now in
  {| topic := broker.topic b; state := Some (newRingBuffer size);
     subscribers := subscribers b; updated := updated b |}.

Definition NewFullDiffBroker (topic : string) (now : Z) : Broker :=
  let b := newBroker topic now in
  {| topic := broker.topic b; state := Some (newRingBuffer 1);
     subscribers := subscribers b; updated := updated b |}.

(** [b.state.m(...)] on a nil interface panics. *)
Definition the_state (b : Broker) : outcome ringBuffer :=
  match state b with
  | Some r => Done r
  | None => Panics
  end.

Definition State (b : Broker) : outcome (option Message) :=
  r ← the_state b; Done (get r).

Definition activeSubscribers (b : Broker) : gmap chan bool := subscribers b.

Definition setSubscriber (ch : chan) (sentFull : bool) (b : Broker) : Broker :=
  {| topic := topic b; state := state b;
     subscribers := <[ch := sentFull]> (subscribers b); updated := updated b |}.

(** [Unsubscribe]: only a channel found in the map is deleted and closed. *)
Definition Unsubscribe (ch : chan) (bc : Broker * list channel)
  : outcome (Broker * list channel) :=
  match subscribers bc.1 !! ch with
  | Some _ =>
      cs ← close ch bc.2;
      Done ({| topic := topic bc.1; state := state bc.1;
               subscribers := delete ch (subscribers bc.1);
               updated := updated bc.1 |}, cs)
  | None => Done bc
  end.

(** [removeSubscribers]: copy the map, then unsubscribe each key of the
    copy.  Go leaves the order of a range over a map open; [map_to_list] is
    one such order. *)
Definition removeSubscribers (bc : Broker * list channel)
  : outcome (Broker * list channel) :=
  let subs := activeSubscribers bc.1 in
  for_each Unsubscribe (map_to_list subs).*1 bc.

Definition full (msg : Message) (now : Z) (b : Broker) : outcome Broker :=
  r ← the_state b;
  Done {| topic := topic b; state := Some (put msg r);
          subscribers := subscribers b; updated := now |}.

(** One turn of the loop of [diff]. *)
Definition diff_one (msg : Message) (e : chan * bool) (cs : list channel)
  : outcome (list channel) :=
  if e.2 then send Live msg e.1 cs else Done cs.

(** A series of [full] calls, each with its message and clock reading. *)
Definition fulls (pubs : list (Message * Z)) (b : Broker) : outcome Broker :=
  for_each (fun e b => full e.1 e.2 b) pubs b.

(** [diff], going over the subscribers in the given order. *)
Definition diff_over (order : list (chan * bool)) (msg : Message)
    (cs : list channel) : outcome (list channel) :=
  for_each (diff_one msg) order cs.

Definition diff (msg : Message) (bc : Broker * list channel)
  : outcome (Broker * list channel) :=
  cs ← diff_over (map_to_list (subscribers bc.1)) msg bc.2; Done (bc.1, cs).

(** The int64 that two's complement arithmetic leaves of a result. *)
Definition wrap64 (z : Z) : Z := (z + 2 ^ 63) mod 2 ^ 64 - 2 ^ 63.

(** [expired]: [b.updated.Before(time.Now().Add(-ttl))].  [ttl] is a
    [time.Duration], an int64, and [-ttl] wraps: the negation of the least
    int64 is itself.  [Add] and [Before] are sum and order of the nanosecond
    counts ([time.Time] counts seconds in an int64 of its own, out of reach
    of a clock reading plus a [Duration]). *)
Definition expired (now ttl : Z) (b : Broker) : bool :=
  updated b <? now + wrap64 (- ttl).

(** The goroutine of [Subscribe], run with nothing in between: wait for the
    first write, write the backlog to the channel, register the channel. *)
Definition handshake (ch : chan) (bc : Broker * list channel)
  : outcome (Broker * list channel) :=
  r ← the_state bc.1;
  if waitTouch r then
    cs ← for_each (fun msg => send Backlog msg ch) (emit r) bc.2;
    Done (setSubscriber ch true bc.1, cs)
  else Blocks.

(** [Subscribe]: the new channel, and whether the goroutine is started. *)
Definition Subscribe (bc : Broker * list channel)
  : chan * (Broker * list channel) * bool :=
  let '(ch, cs) := make_chan bc.2 in
  (ch, (bc.1, cs), bool_decide (is_Some (state bc.1))).

(** [Subscribe] followed at once by its goroutine. *)
Definition Subscribe_now (bc : Broker * list channel)
  : outcome (chan * (Broker * list channel)) :=
  let '(ch, bc1, started) := Subscribe bc in
  if started then bc2 ← handshake ch bc1; Done (ch, bc2) else Done (ch, bc1).

(** ** The registry

    [brokers] maps a topic to a [*Broker]; the brokers themselves are in
    [heap], a pointer being an index there.  [ttl] is the package variable
    [SetTTL] sets. *)
Record World := mkWorld {
  heap : list Broker;
  brokers : gmap string nat;
  channels : list channel;
  ttl : Z
}.

Definition hour : Z := 3600 * 1000000000.
Definition defaultSize : nat := 100.

(** The package after [init]. *)
Definition init_world : World :=
  {| heap := []; brokers := ∅; channels := []; ttl := hour |}.

Definition SetTTL (newTTL : Z) (w : World) : World :=
  {| heap := heap w; brokers := brokers w; channels := channels w; ttl := newTTL |}.

Definition FindBroker (topic : string) (w : World) : option nat :=
  brokers w !! topic.

(** [brokers[topic] = b] for a newly allocated [b]. *)
Definition register (topic : string) (b : Broker) (w : World) : nat * World :=
  (length (heap w),
   {| heap := heap w ++ [b]; brokers := <[topic := length (heap w)]> (brokers w);
      channels := channels w; ttl := ttl w |}).

Definition createFullDiffBroker (topic : string) (now : Z) (w : World) : nat * World :=
  register topic (NewFullDiffBroker topic now) w.

Definition createBufferedBroker (topic : string) (size : nat) (now : Z) (w : World)
  : nat * World :=
  register topic (NewBufferedBroker topic size now) w.

Definition GetFullDiffBroker (topic : string) (now : Z) (w : World) : nat * World :=
  match FindBroker topic w with
  | None => createFullDiffBroker topic now w
  | Some b => (b, w)
  end.

Definition GetBufferedBroker (topic : string) (now : Z) (w : World) : nat * World :=
  match FindBroker topic w with
  | None => createBufferedBroker topic defaultSize now w
  | Some b => (b, w)
  end.

(** A method call through the pointer [l]. *)
Definition on_broker (l : nat)
    (f : Broker * list channel -> outcome (Broker * list channel)) (w : World)
  : outcome World :=
  match heap w !! l with
  | None => Panics
  | Some b =>
      bc ← f (b, channels w);
      Done {| heap := <[l := bc.1]> (heap w); brokers := brokers w;
              channels := bc.2; ttl := ttl w |}
  end.

Definition full_on (msg : Message) (now : Z) (bc : Broker * list channel)
  : outcome (Broker * list channel) :=
  b ← full msg now bc.1; Done (b, bc.2).

Definition Full (topic event : string) (data : list byte) (now : Z) (w : World)
  : outcome World :=
  let msg := NewMessage event data in
  let '(l, w1) := GetFullDiffBroker topic now w in
  on_broker l (full_on msg now) w1.

Definition Diff (topic event : string) (data : list byte) (now : Z) (w : World)
  : outcome World :=
  let msg := NewMessage event data in
  let '(l, w1) := GetFullDiffBroker topic now w in
  on_broker l (diff msg) w1.

Definition Stream (topic event : string) (data : list byte) (now : Z) (w : World)
  : outcome World :=
  let msg := NewMessage event data in
  let '(l, w1) := GetBufferedBroker topic now w in
  w2 ← on_broker l (full_on msg now) w1;
  on_broker l (diff msg) w2.

(** One turn of the loop of [CleanUpBrokers]. *)
Definition clean_one (now : Z) (e : string * nat) (w : World) : outcome World :=
  match heap w !! e.2 with
  | None => Panics
  | Some b =>
      if expired now (ttl w) b then
        on_broker e.2 removeSubscribers
          {| heap := heap w; brokers := delete e.1 (brokers w);
             channels := channels w; ttl := ttl w |}
      else Done w
  end.

(** [CleanUpBrokers], going over the entries of the map in the given order
    (deleting the entry at hand does not disturb a Go range). *)
Definition CleanUpBrokers_over (entries : list (string * nat)) (now : Z) (w : World)
  : outcome World :=
  for_each (clean_one now) entries w.

Definition CleanUpBrokers (now : Z) (w : World) : outcome World :=
  CleanUpBrokers_over (map_to_list (brokers w)) now w.

(** [b.Subscribe()] on the broker at [l], with its goroutine run at once. *)
Definition subscribe_on (l : nat) (w : World) : outcome (chan * World) :=
  match heap w !! l with
  | None => Panics
  | Some b =>
      r ← Subscribe_now (b, channels w);
      Done (r.1, {| heap := <[l := r.2.1]> (heap w); brokers := brokers w;
                    channels := r.2.2; ttl := ttl w |})
  end.

(** The registry points at brokers that exist, the channels in the
    subscriber maps are open, and no channel is in the maps of two brokers:
    what holds of a registry whose brokers come from the create functions
    and whose channels all come from [Subscribe]. *)
Definition well_formed (w : World) : Prop :=
  (forall t l, brokers w !! t = Some l -> is_Some (heap w !! l)) /\
  (forall l b c, heap w !! l = Some b -> is_Some (subscribers b !! c) ->
     is_open (channels w) c /\
     forall l' b', heap w !! l' = Some b' -> is_Some (subscribers b' !! c) -> l' = l).

(** How a registry [w] stands to the registry [w0] it comes from by
    unsubscribing and deleting only: nothing is added to the map, the
    brokers keep their place and their time stamp, closed channels stay
    closed, and a channel that was subscribed is closed or still
    subscribed. *)
Definition swept (w0 w : World) : Prop :=
  ttl w = ttl w0 /\
  length (heap w) = length (heap w0) /\
  (forall t, brokers w0 !! t = None -> brokers w !! t = None) /\
  (forall c, is_closed (channels w0) c -> is_closed (channels w) c) /\
  (forall l b0, heap w0 !! l = Some b0 ->
     exists b, heap w !! l = Some b /\ updated b = updated b0 /\
       forall c, is_Some (subscribers b0 !! c) ->
         is_closed (channels w) c \/ is_Some (subscribers b !! c)).

(** ** Who takes what is sent

    The channels are unbuffered ([make(chan *Message)]), so [c <- msg]
    returns when the other side takes the message.  [reading c] says that
    the receiving side of channel [c] takes every message handed to it; on
    an open channel that nobody reads the send blocks for good.  On a closed
    channel it panics, read or not; on a nil channel it blocks.  The
    functions below are the ones above with the receiving side in view. *)
Definition send_to (reading : chan -> bool) (o : origin) (msg : Message) (c : chan)
    (cs : list channel) : outcome (list channel) :=
  match cs !! c with
  | None => Blocks
  | Some ch =>
      if closed ch then Panics
      else if reading c
      then Done (<[c := {| closed := false; delivered := delivered ch ++ [(o, msg)] |}]> cs)
      else Blocks
  end.

Definition diff_one_to (reading : chan -> bool) (msg : Message) (e : chan * bool)
    (cs : list channel) : outcome (list channel) :=
  if e.2 then send_to reading Live msg e.1 cs else Done cs.

Definition diff_over_to (reading : chan -> bool) (order : list (chan * bool))
    (msg : Message) (cs : list channel) : outcome (list channel) :=
  for_each (diff_one_to reading msg) order cs.

Definition diff_to (reading : chan -> bool) (msg : Message) (bc : Broker * list channel)
  : outcome (Broker * list channel) :=
  cs ← diff_over_to reading (map_to_list (subscribers bc.1)) msg bc.2; Done (bc.1, cs).

Definition handshake_to (reading : chan -> bool) (ch : chan) (bc : Broker * list channel)
  : outcome (Broker * list channel) :=
  r ← the_state bc.1;
  if waitTouch r then
    cs ← for_each (fun msg => send_to reading Backlog msg ch) (emit r) bc.2;
    Done (setSubscriber ch true bc.1, cs)
  else Blocks.

(** [Subscribe] and its goroutine taken to its end; [Blocks] when the
    goroutine does not get there ([Subscribe] itself has returned the
    channel by then). *)
Definition Subscribe_now_to (reading : chan -> bool) (bc : Broker * list channel)
  : outcome (chan * (Broker * list channel)) :=
  let '(ch, bc1, started) := Subscribe bc in
  if started then bc2 ← handshake_to reading ch bc1; Done (ch, bc2) else Done (ch, bc1).

Definition subscribe_on_to (reading : chan -> bool) (l : nat) (w : World)
  : outcome (chan * World) :=
  match heap w !! l with
  | None => Panics
  | Some b =>
      r ← Subscribe_now_to reading (b, channels w);
      Done (r.1, {| heap := <[l := r.2.1]> (heap w); brokers := brokers w;
                    channels := r.2.2; ttl := ttl w |})
  end.

Definition Diff_to (reading : chan -> bool) (topic event : string) (data : list byte)
    (now : Z) (w : World) : outcome World :=
  let msg := NewMessage event data in
  let '(l, w1) := GetFullDiffBroker topic now w in
  on_broker l (diff_to reading msg) w1.

(** ** The sweep and [removeLock]

    [removeSubscribers] takes [b.removeLock.Lock()] after it has its copy of
    the map.  The lock is not granted while a goroutine of [Subscribe] holds
    the read side, which it does from before [waitTouch] until its channel
    is registered.  [held l] says that one does on the broker at [l]; in a
    call run with nothing else going on nobody lets go of the lock, and the
    call blocks.  With the lock free no goroutine is under way, the copy is
    the map, and the loop is that of [removeSubscribers] above. *)
Definition removeSubscribers_locked (held : bool) (bc : Broker * list channel)
  : outcome (Broker * list channel) :=
  let subs := activeSubscribers bc.1 in
  if held then Blocks else for_each Unsubscribe (map_to_list subs).*1 bc.

Definition clean_one_locked (held : nat -> bool) (now : Z) (e : string * nat)
    (w : World) : outcome World :=
  match heap w !! e.2 with
  | None => Panics
  | Some b =>
      if expired now (ttl w) b then
        on_broker e.2 (removeSubscribers_locked (held e.2))
          {| heap := heap w; brokers := delete e.1 (brokers w);
             channels := channels w; ttl := ttl w |}
      else Done w
  end.

Definition CleanUpBrokers_locked (held : nat -> bool) (entries : list (string * nat))
    (now : Z) (w : World) : outcome World :=
  for_each (clean_one_locked held now) entries w.

(** ** What the package keeps of its registry

    On top of [well_formed]: every broker has a state store (the two
    constructors set one) and every channel in a subscriber map is flagged
    true ([Subscribe] is the one caller of [setSubscriber], with true). *)
Definition registry_inv (w : World) : Prop :=
  well_formed w /\
  (forall l b, heap w !! l = Some b -> is_Some (state b)) /\
  (forall l b c f, heap w !! l = Some b -> subscribers b !! c = Some f -> f = true).

End broker.

(** * One broker under interleaving

    The calls on one broker as they run next to each other.  What the code
    does while it holds the broker's write lock ([setSubscriber],
    [Unsubscribe], [full], [activeSubscribers]) is one step; [diff], which
    holds the read lock across its sends, and the goroutine of [Subscribe]
    go by several steps, so that other calls can come in between.  A step
    that needs the write lock is enabled only while no [diff] is inside its
    loop; the goroutine holds the read side of [removeLock] from its start to
    its end, [removeSubscribers] its write side across its loop. *)

Module interleaving.
Import broker.

(** Where the goroutine of a [Subscribe] is. *)
Inductive goroutine :=
  | GoStart                       (* started, before removeLock.RLock *)
  | GoWait                        (* inside waitTouch *)
  | GoTouched                     (* waitTouch has returned *)
  | GoEmit (rest : list Message)  (* inside emit, [rest] still to write *)
  | GoDone.                       (* registered, removeLock released *)

#[global] Instance goroutine_eq_dec : EqDecision goroutine.
Proof. solve_decision. Defined.

(** Where a call of [removeSubscribers] is. *)
Inductive remover :=
  | RmCopied (subs : list chan)   (* has its copy, before removeLock.Lock *)
  | RmLoop (rest : list chan).    (* holds removeLock, [rest] still to do *)

Record System := mkSystem {
  brk : Broker;
  chs : list channel;
  gos : gmap chan goroutine;                     (* by the channel it serves *)
  diffs : list (Message * list (chan * bool));   (* diff calls inside their loop *)
  removers : list remover;
  panicked : bool
}.

Inductive action :=
  | ASubscribe
  | AGoRLock (ch : chan)
  | AGoTouch (ch : chan)
  | AGoEmit (ch : chan)
  | AGoSend (ch : chan)
  | AGoRegister (ch : chan)
  | AFull (msg : Message) (now : Z)
  | ADiffBegin (msg : Message) (order : list (chan * bool))
  | ADiffSend (i : nat)
  | ADiffEnd (i : nat)
  | AUnsubscribe (ch : chan)
  | ARmCopy (order : list chan)
  | ARmLock (i : nat)
  | ARmUnsubscribe (i : nat)
  | ARmEnd (i : nat).

(** The broker's write lock can be taken: no reader is inside. *)
Definition write_free (s : System) : bool := bool_decide (diffs s = []).

(** Nobody holds the write side of [removeLock]. *)
Definition remove_unlocked (s : System) : bool :=
  forallb (fun r => match r with RmCopied _ => true | RmLoop _ => false end)
          (removers s).

(** Nobody holds the read side of [removeLock]. *)
Definition no_handshake (s : System) : bool :=
  bool_decide (map_Forall (fun _ g => g = GoStart \/ g = GoDone) (gos s)).

Definition crash (s : System) : System :=
  mkSystem (brk s) (chs s) (gos s) (diffs s) (removers s) true.

(** A step that panics brings the program down; one that blocks is no step. *)
Definition settle (s : System) (o : outcome System) : option System :=
  match o with
  | Done s' => Some s'
  | Panics => Some (crash s)
  | Blocks => None
  end.

Definition set_go (ch : chan) (g : goroutine) (s : System) : System :=
  mkSystem (brk s) (chs s) (<[ch := g]> (gos s)) (diffs s) (removers s) (panicked s).

(** One step; [None] when the action is not enabled. *)
Definition exec (a : action) (s : System) : option System :=
  if panicked s then None else
  match a with
  | ASubscribe =>
      let '(ch, bc, started) := Subscribe (brk s, chs s) in
      Some (mkSystem bc.1 bc.2
              (if started then <[ch := GoStart]> (gos s) else gos s)
              (diffs s) (removers s) false)
  | AGoRLock ch =>
      match gos s !! ch with
      | Some GoStart => if remove_unlocked s then Some (set_go ch GoWait s) else None
      | _ => None
      end
  | AGoTouch ch =>
      match gos s !! ch, state (brk s) with
      | Some GoWait, Some r =>
          if waitTouch r then Some (set_go ch GoTouched s) else None
      | _, _ => None
      end
  | AGoEmit ch =>
      match gos s !! ch, state (brk s) with
      | Some GoTouched, Some r => Some (set_go ch (GoEmit (emit r)) s)
      | _, _ => None
      end
  | AGoSend ch =>
      match gos s !! ch with
      | Some (GoEmit (msg :: rest)) =>
          settle s (cs ← send Backlog msg ch (chs s);
                    Done (mkSystem (brk s) cs (<[ch := GoEmit rest]> (gos s))
                            (diffs s) (removers s) false))
      | _ => None
      end
  | AGoRegister ch =>
      match gos s !! ch with
      | Some (GoEmit []) =>
          if write_free s then
            Some (mkSystem (setSubscriber ch true (brk s)) (chs s)
                    (<[ch := GoDone]> (gos s)) (diffs s) (removers s) false)
          else None
      | _ => None
      end
  | AFull msg now =>
      if write_free s then
        settle s (b ← full msg now (brk s);
                  Done (mkSystem b (chs s) (gos s) (diffs s) (removers s) false))
      else None
  | ADiffBegin msg order =>
      if bool_decide (order ≡ₚ map_to_list (subscribers (brk s))) then
        Some (mkSystem (brk s) (chs s) (gos s) (diffs s ++ [(msg, order)])
                (removers s) false)
      else None
  | ADiffSend i =>
      match diffs s !! i with
      | Some (msg, e :: rest) =>
          settle s (cs ← diff_one msg e (chs s);
                    Done (mkSystem (brk s) cs (gos s) (<[i := (msg, rest)]> (diffs s))
                            (removers s) false))
      | _ => None
      end
  | ADiffEnd i =>
      match diffs s !! i with
      | Some (_, []) =>
          Some (mkSystem (brk s) (chs s) (gos s) (delete i (diffs s)) (removers s) false)
      | _ => None
      end
  | AUnsubscribe ch =>
      if write_free s then
        settle s (bc ← Unsubscribe ch (brk s, chs s);
                  Done (mkSystem bc.1 bc.2 (gos s) (diffs s) (removers s) false))
      else None
  | ARmCopy order =>
      if write_free s
         && bool_decide (order ≡ₚ (map_to_list (activeSubscribers (brk s))).*1) then
        Some (mkSystem (brk s) (chs s) (gos s) (diffs s)
                (removers s ++ [RmCopied order]) false)
      else None
  | ARmLock i =>
      match removers s !! i with
      | Some (RmCopied l) =>
          if remove_unlocked s && no_handshake s then
            Some (mkSystem (brk s) (chs s) (gos s) (diffs s)
                    (<[i := RmLoop l]> (removers s)) false)
          else None
      | _ => None
      end
  | ARmUnsubscribe i =>
      match removers s !! i with
      | Some (RmLoop (ch :: rest)) =>
          if write_free s then
            settle s (bc ← Unsubscribe ch (brk s, chs s);
                      Done (mkSystem bc.1 bc.2 (gos s) (diffs s)
                              (<[i := RmLoop rest]> (removers s)) false))
          else None
      | _ => None
      end
  | ARmEnd i =>
      match removers s !! i with
      | Some (RmLoop []) =>
          Some (mkSystem (brk s) (chs s) (gos s) (diffs s) (delete i (removers s)) false)
      | _ => None
      end
  end.

Fixpoint run (tr : list action) (s : System) : option System :=
  match tr with
  | [] => Some s
  | a :: tr' => s' ← exec a s; run tr' s'
  end.

(** A broker as its constructor returns it, with nothing going on. *)
Definition start (b : Broker) : System := mkSystem b [] ∅ [] [] false.

Definition reachable (s : System) : Prop :=
  exists topic size now tr, run tr (start (NewBufferedBroker topic size now)) = Some s.

Definition is_diff_action (a : action) : bool :=
  match a with
  | ADiffBegin _ _ | ADiffSend _ | ADiffEnd _ => true
  | _ => false
  end.

(** All backlog hand-overs come before all live ones. *)
Definition backlog_first (l : list (origin * Message)) : Prop :=
  exists l1 l2, l = l1 ++ l2 /\
    Forall (fun e => e.1 = Backlog) l1 /\ Forall (fun e => e.1 = Live) l2.

Definition only_backlog (l : list (origin * Message)) : Prop :=
  Forall (fun e => e.1 = Backlog) l.

(** What holds in every state the broker can get into. *)
Record inv (s : System) : Prop := mkInv {
  inv_alive : panicked s = false;
  inv_state : is_Some (state (brk s));
  inv_subs : forall ch f, subscribers (brk s) !! ch = Some f ->
      f = true /\ is_open (chs s) ch /\ gos s !! ch = Some GoDone;
  inv_gos : forall ch g, gos s !! ch = Some g -> g <> GoDone ->
      is_open (chs s) ch /\ subscribers (brk s) !! ch = None /\
      only_backlog (log (chs s) ch);
  inv_made : forall ch g, gos s !! ch = Some g -> (ch < length (chs s))%nat;
  inv_log : forall ch, backlog_first (log (chs s) ch);
  inv_diffs : forall d e, d ∈ diffs s -> e ∈ d.2 ->
      subscribers (brk s) !! e.1 = Some e.2
}.

(** ** A run to try things on

    Topic "t1": a [full] with data "a", a [Subscribe] with its goroutine
    taken to the end, then a [diff] with data "b" that has entered its
    loop. *)
Definition msg_a : Message := NewMessage "e" [x61].
Definition msg_b : Message := NewMessage "e" [x62].

Definition sample_start : System := start (NewBufferedBroker "t1" 1 0).

Definition sample_trace : list action :=
  [AFull msg_a 1; ASubscribe; AGoRLock 0; AGoTouch 0; AGoEmit 0; AGoSend 0;
   AGoRegister 0; ADiffBegin msg_b [(0%nat, true)]].

(** The state a trace leads to from [sample_start] (the start itself when
    the trace cannot be run). *)
Definition after (tr : list action) : System :=
  default sample_start (run tr sample_start).

(** ** Who takes what is sent

    The two steps that hand a message over, a send of the backlog loop and
    a send of the fan-out loop, go through when the other side takes the
    message: the channels are unbuffered.  [reading c] says that the
    receiving side of channel [c] takes every message handed to it; a send
    on an open channel that nobody reads is no step.  On a closed channel
    the send panics, read or not. *)

(** The channel a step sends on, when it is a send. *)
Definition sends_on (a : action) (s : System) : option chan :=
  match a with
  | AGoSend ch =>
      match gos s !! ch with
      | Some (GoEmit (_ :: _)) => Some ch
      | _ => None
      end
  | ADiffSend i =>
      match diffs s !! i with
      | Some (_, (c, true) :: _) => Some c
      | _ => None
      end
  | _ => None
  end.

Definition exec_to (reading : chan -> bool) (a : action) (s : System) : option System :=
  match sends_on a s with
  | Some c =>
      match chs s !! c with
      | Some ch => if closed ch || reading c then exec a s else None
      | None => exec a s
      end
  | None => exec a s
  end.

Fixpoint run_to (reading : chan -> bool) (tr : list action) (s : System)
  : option System :=
  match tr with
  | [] => Some s
  | a :: tr' => s' ← exec_to reading a s; run_to reading tr' s'
  end.

End interleaving.

(** * Properties of the envelope *)

Module AmpFacts.
Import Amp.

Section Facts.
Context {C : Codecs}.

Lemma SplitN2_header (h rest : list byte) :
  x0a ∉ h -> SplitN2 (h ++ x0a :: rest) = (h, Some rest).
Proof.
  induction h as [|b h IH]; intros Hnot; simpl.
  - reflexivity.
  - apply not_elem_of_cons in Hnot as [Hb Hh].
    destruct (Byte.eqb b x0a) eqn:E.
    + apply Byte.byte_dec_bl in E. congruence.
    + rewrite (IH Hh). reflexivity.
Qed.

Lemma payload_body_length (m : Msg) :
  (length (body_bytes m) < length (payload m))%nat.
Proof.
  unfold payload, body_bytes, separtor. rewrite !length_app. simpl. lia.
Qed.

(** Cutting the terminator and putting it back gives the stream again. *)
Lemma Undeflate_deflate (p : list byte) :
  (4 < length (flate_compress p))%nat ->
  drop (length (flate_compress p) - 4) (flate_compress p) = [x00; x00; xff; xff] ->
  flate_inflate (flate_compress p) = p ->
  Undeflate (deflate p) = p.
Proof.
  intros Hlen Htail Hrt. unfold Undeflate, deflate.
  destruct (decide _) as [_|Hn]; [|lia].
  rewrite <- Htail, take_drop. exact Hrt.
Qed.

Lemma payload_marshal (m : Msg) (s : Z) : payload (marshal m s).1.1 = payload m.
Proof.
  unfold marshal. destruct (payloads m !! _); reflexivity.
Qed.

Lemma marshal_frame (m : Msg) (s : Z) :
  hdr (marshal m s).1.1 = hdr m /\ body (marshal m s).1.1 = body m /\
  src (marshal m s).1.1 = src m.
Proof.
  unfold marshal. destruct (payloads m !! _); simpl; auto.
Qed.

(** The memo flag is never taken back. *)
Lemma marshal_noCompression_mono (m : Msg) (s : Z) :
  noCompression m = true -> noCompression (marshal m s).1.1 = true.
Proof.
  intros H. unfold marshal. rewrite H.
  destruct (payloads m !! _); simpl; [exact H|].
  destruct (_ <? _); reflexivity.
Qed.

Lemma marshal_coherent (m : Msg) (s : Z) :
  coherent m -> coherent (marshal m s).1.1.
Proof.
  intros (H0 & H1 & H2). unfold coherent. rewrite payload_marshal.
  unfold marshal, payloadKey.
  destruct (noCompression m) eqn:Hnc.
  - specialize (H2 eq_refl).
    destruct (payloads m !! CompressionNone) eqn:Hl in |- *; simpl.
    + rewrite Hnc. split; [exact H0|]. split; [discriminate|auto].
    + destruct (Z.ltb_spec (Z.of_nat (length (payload m))) compressionLenLimit); [|lia].
      simpl. split; [|split; [discriminate|auto]].
      intros p. rewrite lookup_insert_eq. congruence.
  - destruct (payloads m !! s) eqn:Hl in |- *; simpl.
    + rewrite Hnc. split; [exact H0|]. split; [exact H1|discriminate].
    + destruct (Z.ltb_spec (Z.of_nat (length (payload m))) compressionLenLimit); simpl.
      * split; [|split; [discriminate|auto]].
        intros p. destruct (decide (s = CompressionNone)) as [->|Hne].
        -- rewrite lookup_insert_eq. congruence.
        -- rewrite lookup_insert_ne by done. auto.
      * split; [|split; [|discriminate]].
        -- intros p. destruct (decide (s = CompressionNone)) as [->|Hne].
           ++ rewrite lookup_insert_eq. simpl. congruence.
           ++ rewrite lookup_insert_ne by done. auto.
        -- intros _ p. destruct (decide (s = CompressionDeflate)) as [->|Hne].
           ++ rewrite lookup_insert_eq. simpl. intros [= <-]. split; [reflexivity|lia].
           ++ rewrite lookup_insert_ne by done. apply (H1 eq_refl).
Qed.

(** What a marshal on a coherent envelope returns. *)
Lemma marshal_result (m : Msg) (s : Z) :
  coherent m -> s = CompressionNone \/ s = CompressionDeflate ->
  ((marshal m s).2 = false /\ (marshal m s).1.2 = payload m /\
     (s = CompressionNone \/ Z.of_nat (length (payload m)) < compressionLenLimit)) \/
  ((marshal m s).2 = true /\ (marshal m s).1.2 = deflate (payload m) /\
     s = CompressionDeflate /\ compressionLenLimit <= Z.of_nat (length (payload m))).
Proof.
  intros (H0 & H1 & H2) Hs. unfold marshal, payloadKey.
  destruct (noCompression m) eqn:Hnc.
  - specialize (H2 eq_refl). left.
    destruct (payloads m !! CompressionNone) eqn:Hl in |- *; simpl.
    + split; [reflexivity|]. split; auto.
    + destruct (Z.ltb_spec (Z.of_nat (length (payload m))) compressionLenLimit); [|lia].
      simpl. auto.
  - destruct Hs as [-> | ->].
    + left. destruct (payloads m !! CompressionNone) eqn:Hl in |- *; simpl.
      * split; [reflexivity|]. split; auto.
      * destruct (Z.ltb_spec (Z.of_nat (length (payload m))) compressionLenLimit);
          simpl; auto.
    + destruct (payloads m !! CompressionDeflate) eqn:Hl in |- *; simpl.
      * right. destruct (H1 eq_refl _ Hl) as [-> Hge]. auto.
      * destruct (Z.ltb_spec (Z.of_nat (length (payload m))) compressionLenLimit);
          simpl; [left|right]; auto.
Qed.

Lemma fresh_coherent (h : Header) (b : option (list byte)) :
  coherent (fresh_msg h b).
Proof.
  unfold coherent, fresh_msg; simpl. repeat split; try discriminate.
  all: intros p; rewrite lookup_empty; discriminate.
Qed.

End Facts.
End AmpFacts.

Module AmpTheorems.
Import Amp AmpFacts SampleCodecs.

(** Two headers with one encoding come back as one header, whatever the
    decoder is: [Parse] sees the encoding only. *)
Lemma same_encoding_one_header {C : Codecs} (h0 h1 : Header)
    (b : option (list byte)) (p0 p1 : Msg) :
  json_marshal h0 = json_marshal h1 ->
  Parse (payload (fresh_msg h0 b)) = Some p0 ->
  Parse (payload (fresh_msg h1 b)) = Some p1 ->
  hdr p0 = hdr p1.
Proof.
  intros He H0 H1. unfold payload in H0, H1. cbn [hdr body src fresh_msg] in H0, H1.
  rewrite He in H0. rewrite H0 in H1. by injection H1 as ->.
Qed.




Lemma marshal_memo_uncompressed {C : Codecs} (m : Msg) (s : Z) :
  noCompression m = true -> (marshal m s).2 = false.
Proof.
  intros H. unfold marshal. rewrite H.
  destruct (payloads m !! _); simpl; [reflexivity|].
  destruct (_ <? _); reflexivity.
Qed.

Lemma marshals_noCompression {C : Codecs} (ss : list Z) (m : Msg) :
  noCompression m = true -> noCompression (marshals m ss) = true.
Proof.
  revert m. induction ss as [|s ss IH]; intros m H; simpl; [exact H|].
  apply IH, marshal_noCompression_mono, H.
Qed.

Lemma marshal_small_memo {C : Codecs} (m : Msg) :
  coherent m -> Z.of_nat (length (payload m)) < compressionLenLimit ->
  noCompression (marshal m CompressionDeflate).1.1 = true.
Proof.
  intros (H0 & H1 & H2) Hsmall. unfold marshal, payloadKey.
  destruct (noCompression m) eqn:Hnc.
  - destruct (payloads m !! CompressionNone) eqn:Hl in |- *; simpl; [exact Hnc|].
    destruct (_ <? _); reflexivity.
  - destruct (payloads m !! CompressionDeflate) eqn:Hl in |- *; simpl.
    + destruct (H1 eq_refl _ Hl). lia.
    + destruct (Z.ltb_spec (Z.of_nat (length (payload m))) compressionLenLimit);
        [reflexivity|lia].
Qed.

(** Whatever the codecs, a body one byte short of the limit is compressed:
    the separator alone brings the payload to the limit. *)
Lemma marshal_near_limit {C : Codecs} (h : Header) (b : list byte) :
  Z.of_nat (length b) = compressionLenLimit - 1 ->
  (marshal (fresh_msg h (Some b)) CompressionDeflate).2 = true.
Proof.
  intros Hb.
  destruct (marshal_result (fresh_msg h (Some b)) CompressionDeflate
              (fresh_coherent _ _) (or_intror eq_refl))
    as [(_ & _ & [Hs | Hlt]) | (Hf & _)]; [discriminate| |exact Hf].
  pose proof (payload_body_length (fresh_msg h (Some b))) as Hle.
  unfold body_bytes in Hle. simpl in Hle. lia.
Qed.




End AmpTheorems.

(** * Properties of the broker and the registry *)

Module brokerFacts.
Import broker.

(** ** Channels *)

Lemma send_open (o : origin) (msg : Message) (c : chan) (cs : list channel) :
  is_open cs c ->
  exists ch, cs !! c = Some ch /\ closed ch = false /\
    send o msg c cs =
      Done (<[c := {| closed := false; delivered := delivered ch ++ [(o, msg)] |}]> cs).
Proof.
  intros (ch & Hl & Hc). exists ch. unfold send. rewrite Hl, Hc. auto.
Qed.

Lemma close_open (c : chan) (cs : list channel) :
  is_open cs c ->
  exists ch, cs !! c = Some ch /\ closed ch = false /\
    close c cs = Done (<[c := {| closed := true; delivered := delivered ch |}]> cs).
Proof.
  intros (ch & Hl & Hc). exists ch. unfold close. rewrite Hl, Hc. auto.
Qed.

Lemma is_open_lt (cs : list channel) (c : chan) : is_open cs c -> (c < length cs)%nat.
Proof. intros (ch & Hl & _). eapply lookup_lt_Some, Hl. Qed.

Lemma open_not_closed (cs : list channel) (c : chan) :
  is_open cs c -> is_closed cs c -> False.
Proof. intros (ch & Hl & Ho) (ch' & Hl' & Hc). congruence. Qed.

Lemma is_open_insert_ne (cs : list channel) (c c' : chan) (x : channel) :
  c <> c' -> is_open cs c' -> is_open (<[c := x]> cs) c'.
Proof.
  intros Hne (ch & Hl & Ho). exists ch. rewrite list_lookup_insert_ne by done. auto.
Qed.

Lemma is_closed_insert_ne (cs : list channel) (c c' : chan) (x : channel) :
  c <> c' -> is_closed cs c' -> is_closed (<[c := x]> cs) c'.
Proof.
  intros Hne (ch & Hl & Ho). exists ch. rewrite list_lookup_insert_ne by done. auto.
Qed.

Lemma log_insert_ne (cs : list channel) (c c' : chan) (x : channel) :
  c <> c' -> log (<[c := x]> cs) c' = log cs c'.
Proof. intros Hne. unfold log. rewrite list_lookup_insert_ne by done. reflexivity. Qed.

Lemma log_insert_eq (cs : list channel) (c : chan) (x : channel) :
  (c < length cs)%nat -> log (<[c := x]> cs) c = delivered x.
Proof. intros Hlt. unfold log. rewrite list_lookup_insert_eq by done. reflexivity. Qed.

(** ** The ring buffer *)

Lemma put_items (msg : Message) (r : ringBuffer) :
  (1 <= size r)%nat -> (length (items r) <= size r)%nat ->
  items (put msg r) = drop (length (items r) + 1 - size r) (items r ++ [msg]) /\
  (length (items (put msg r)) <= size r)%nat /\ size (put msg r) = size r.
Proof.
  intros H1 Hle. unfold put; simpl. destruct (decide _) as [Hfull|Hroom].
  - assert (length (items r) = size r) as Hlen by lia.
    replace (length (items r) + 1 - size r)%nat with 1%nat by lia.
    destruct (items r) as [|x l] eqn:E; simpl in *; [lia|].
    rewrite drop_0. split; [reflexivity|]. rewrite length_app. simpl. lia.
  - replace (length (items r) + 1 - size r)%nat with 0%nat by lia.
    rewrite drop_0. split; [reflexivity|]. rewrite length_app. simpl. lia.
Qed.

(** After any number of puts the buffer holds the last [size] of what it
    held and was given. *)
Lemma puts_items (msgs : list Message) (r : ringBuffer) :
  (1 <= size r)%nat -> (length (items r) <= size r)%nat ->
  items (foldl (fun r m => put m r) r msgs) =
    drop (length (items r ++ msgs) - size r) (items r ++ msgs) /\
  size (foldl (fun r m => put m r) r msgs) = size r.
Proof.
  revert r. induction msgs as [|m msgs IH]; intros r H1 Hle; simpl.
  - rewrite app_nil_r. replace (length (items r) - size r)%nat with 0%nat by lia.
    auto.
  - destruct (put_items m r H1 Hle) as (Hit & Hlen & Hsz).
    destruct (IH (put m r)) as [IHi IHs]; [lia..|].
    rewrite IHi, IHs, Hsz. split; [|reflexivity].
    rewrite Hit. rewrite (cons_middle m (items r) msgs), (assoc app).
    rewrite <- drop_app_le by (rewrite length_app; simpl; lia).
    rewrite drop_drop. f_equal.
    rewrite length_drop, !length_app. simpl. lia.
Qed.

Lemma touched_puts (msgs : list Message) (r : ringBuffer) :
  msgs <> [] \/ touched r = true ->
  touched (foldl (fun r m => put m r) r msgs) = true.
Proof.
  revert r. induction msgs as [|m msgs IH]; intros r H; simpl.
  - destruct H; [done|assumption].
  - apply IH. right. reflexivity.
Qed.

(** ** The handshake *)

Lemma emit_backlog (msgs : list Message) (ch : chan) (cs : list channel) (c : channel) :
  cs !! ch = Some c -> closed c = false ->
  for_each (fun msg => send Backlog msg ch) msgs cs =
    Done (<[ch := {| closed := false;
                     delivered := delivered c ++ ((fun m => (Backlog, m)) <$> msgs) |}]> cs).
Proof.
  revert cs c. induction msgs as [|m msgs IH]; intros cs c Hl Hc.
  - cbn [for_each fmap list_fmap]. rewrite app_nil_r. f_equal. symmetry.
    apply list_insert_id. rewrite Hl. destruct c; simpl in *; congruence.
  - cbn [for_each].
    destruct (send_open Backlog m ch cs) as (c' & Hl' & _ & Hsend); [by exists c|].
    rewrite Hsend. cbn [mbind outcome_bind]. assert (c' = c) as -> by congruence.
    erewrite IH; [|apply list_lookup_insert_eq; eapply lookup_lt_Some, Hl|reflexivity].
    cbn [delivered fmap list_fmap]. rewrite list_insert_insert_eq, <- (assoc app).
    reflexivity.
Qed.

(** ** Unsubscribing *)

Lemma Unsubscribe_present (ch : chan) (b : Broker) (cs : list channel) :
  is_Some (subscribers b !! ch) -> is_open cs ch ->
  exists c, cs !! ch = Some c /\ closed c = false /\
    Unsubscribe ch (b, cs) =
      Done ({| topic := topic b; state := state b;
               subscribers := delete ch (subscribers b); updated := updated b |},
            <[ch := {| closed := true; delivered := delivered c |}]> cs).
Proof.
  intros [f Hf] Hopen. destruct (close_open ch cs Hopen) as (c & Hl & Hc & Hclose).
  exists c. split; [exact Hl|]. split; [exact Hc|].
  unfold Unsubscribe. cbn [fst snd]. rewrite Hf, Hclose. reflexivity.
Qed.

Lemma Unsubscribe_absent (ch : chan) (bc : Broker * list channel) :
  subscribers bc.1 !! ch = None -> Unsubscribe ch bc = Done bc.
Proof. intros H. unfold Unsubscribe. rewrite H. reflexivity. Qed.

Lemma unsubscribe_each (ks : list chan) (b : Broker) (cs : list channel) :
  NoDup ks ->
  (forall c, c ∈ ks -> is_Some (subscribers b !! c) /\ is_open cs c) ->
  exists b' cs',
    for_each Unsubscribe ks (b, cs) = Done (b', cs') /\
    topic b' = topic b /\ state b' = state b /\ updated b' = updated b /\
    (forall c, subscribers b' !! c =
               if decide (c ∈ ks) then None else subscribers b !! c) /\
    length cs' = length cs /\
    (forall c, c ∈ ks -> is_closed cs' c) /\
    (forall c, c ∉ ks -> cs' !! c = cs !! c).
Proof.
  revert b cs. induction ks as [|k ks IH]; intros b cs Hnd Hin.
  - exists b, cs. cbn [for_each]. repeat split; auto.
    + intros c Hc. by apply not_elem_of_nil in Hc.
  - apply NoDup_cons in Hnd as [Hk Hnd].
    destruct (Hin k) as [Hsome Hopen]; [left|].
    destruct (Unsubscribe_present k b cs Hsome Hopen) as (c0 & Hl & Hc0 & HU).
    cbn [for_each]. rewrite HU. cbn [mbind outcome_bind].
    destruct (IH {| topic := topic b; state := state b;
                    subscribers := delete k (subscribers b); updated := updated b |}
                (<[k := {| closed := true; delivered := delivered c0 |}]> cs) Hnd)
      as (b' & cs' & Hfor & Ht & Hs & Hu & Hsubs & Hlen & Hcl & Hsame).
    { intros c Hc. destruct (Hin c) as [Hs Ho]; [by right|].
      assert (k <> c) by (intros ->; done). split.
      - cbn [subscribers]. by rewrite lookup_delete_ne.
      - by apply is_open_insert_ne. }
    exists b', cs'. split; [exact Hfor|]. cbn in Ht, Hs, Hu.
    split; [exact Ht|]. split; [exact Hs|]. split; [exact Hu|].
    split; [|split; [|split]].
    + intros c. rewrite Hsubs. cbn [subscribers].
      destruct (decide (c ∈ ks)) as [Hc|Hc].
      * rewrite decide_True by (by right). reflexivity.
      * destruct (decide (c = k)) as [->|Hne].
        -- rewrite decide_True by left. apply lookup_delete_eq.
        -- rewrite decide_False by (apply not_elem_of_cons; done).
           by rewrite lookup_delete_ne.
    + rewrite Hlen. apply length_insert.
    + intros c Hc. apply elem_of_cons in Hc as [->|Hc]; [|by apply Hcl].
      exists {| closed := true; delivered := delivered c0 |}.
      rewrite (Hsame k Hk). split; [|reflexivity].
      apply list_lookup_insert_eq. eapply lookup_lt_Some, Hl.
    + intros c Hc. apply not_elem_of_cons in Hc as [Hne Hc].
      rewrite (Hsame c Hc). by apply list_lookup_insert_ne.
Qed.

Lemma subscriber_keys (b : Broker) (c : chan) :
  c ∈ (map_to_list (subscribers b)).*1 <-> is_Some (subscribers b !! c).
Proof.
  rewrite list_elem_of_fmap. split.
  - intros ([c' f] & -> & Hin). apply elem_of_map_to_list in Hin. eauto.
  - intros [f Hf]. exists (c, f). split; [reflexivity|]. by apply elem_of_map_to_list.
Qed.

(** [removeSubscribers] on a broker whose subscribers are all open closes
    each of them, leaves the map empty and touches no other channel. *)
Lemma removeSubscribers_closes (b : Broker) (cs : list channel) :
  (forall c, is_Some (subscribers b !! c) -> is_open cs c) ->
  exists b' cs',
    removeSubscribers (b, cs) = Done (b', cs') /\
    subscribers b' = ∅ /\ updated b' = updated b /\
    length cs' = length cs /\
    (forall c, is_Some (subscribers b !! c) -> is_closed cs' c) /\
    (forall c, subscribers b !! c = None -> cs' !! c = cs !! c).
Proof.
  intros Hopen. unfold removeSubscribers, activeSubscribers. cbn [fst].
  destruct (unsubscribe_each (map_to_list (subscribers b)).*1 b cs)
    as (b' & cs' & Hfor & _ & _ & Hu & Hsubs & Hlen & Hcl & Hsame).
  { apply NoDup_fst_map_to_list. }
  { intros c Hc. apply subscriber_keys in Hc. auto. }
  exists b', cs'. split; [exact Hfor|]. split; [|split; [exact Hu|split; [exact Hlen|split]]].
  - apply map_eq. intros c. rewrite Hsubs, lookup_empty.
    destruct (decide _) as [|Hn]; [reflexivity|].
    destruct (subscribers b !! c) eqn:E; [|reflexivity].
    exfalso. apply Hn, subscriber_keys. eauto.
  - intros c Hc. apply Hcl, subscriber_keys, Hc.
  - intros c Hc. apply Hsame. rewrite subscriber_keys, Hc. by intros [? ?].
Qed.

(** ** The clean-up sweep *)

Lemma swept_refl (w : World) : swept w w.
Proof.
  unfold swept. repeat split; auto.
  intros l b0 Hb0. exists b0. auto.
Qed.

Lemma clean_one_swept (now : Z) (e : string * nat) (w0 w : World) :
  well_formed w -> swept w0 w -> is_Some (heap w0 !! e.2) ->
  exists w', clean_one now e w = Done w' /\ well_formed w' /\ swept w0 w' /\
    (forall t, brokers w !! t = None -> brokers w' !! t = None) /\
    (forall c, is_closed (channels w) c -> is_closed (channels w') c) /\
    (forall b0, heap w0 !! e.2 = Some b0 -> expired now (ttl w0) b0 = true ->
       brokers w' !! e.1 = None /\
       forall c, is_Some (subscribers b0 !! c) -> is_closed (channels w') c).
Proof.
  intros [Hptr Hch] (Httl & Hlen & Hbrk & Hcl & Hheap) [b0 Hb0].
  destruct (Hheap _ _ Hb0) as (b & Hb & Hupd & Hsubs).
  unfold clean_one. rewrite Hb.
  assert (expired now (ttl w) b = expired now (ttl w0) b0) as Hexp.
  { unfold expired. rewrite Httl, Hupd. reflexivity. }
  destruct (expired now (ttl w) b) eqn:E.
  2:{ exists w. split; [reflexivity|]. split; [by split|].
      split; [by repeat split|]. split; [auto|]. split; [auto|].
      intros b0' Hb0' Hexp'. congruence. }
  destruct (removeSubscribers_closes b (channels w))
    as (b' & cs' & Hrm & Hempty & Hupd' & Hlen' & Hclosed & Hsame).
  { intros c Hc. apply (Hch _ _ _ Hb Hc). }
  unfold on_broker. cbn [heap channels brokers ttl]. rewrite Hb, Hrm.
  cbn [mbind outcome_bind fst snd].
  eexists. split; [reflexivity|].
  assert (Hmono : forall c, is_closed (channels w) c -> is_closed cs' c).
  { intros c Hc. destruct (subscribers b !! c) eqn:Ec.
    - apply Hclosed. eauto.
    - destruct Hc as (x & Hx & Hxc). exists x. rewrite Hsame by done. auto. }
  split; [|split; [|split; [|split]]].
  - split.
    + intros t l Hl. cbn [brokers heap] in *.
      apply lookup_delete_Some in Hl as [_ Hl].
      destruct (Hptr _ _ Hl) as [x Hx]. apply lookup_lt_is_Some.
      rewrite length_insert. eapply lookup_lt_Some, Hx.
    + intros l b2 c Hl2 Hc2. cbn [heap channels] in *.
      apply list_lookup_insert_Some in Hl2 as [(<- & <- & _) | (Hne & Hl2)].
      { rewrite Hempty, lookup_empty in Hc2. by destruct Hc2. }
      destruct (Hch _ _ _ Hl2 Hc2) as [Ho Huniq]. split.
      * destruct (subscribers b !! c) eqn:Ec.
        { exfalso. apply Hne. apply (Huniq _ _ Hb). eauto. }
        destruct Ho as (x & Hx & Hxo). exists x. rewrite Hsame by done. auto.
      * intros l' b3 Hl3 Hc3.
        apply list_lookup_insert_Some in Hl3 as [(<- & <- & _) | (Hne3 & Hl3)].
        { rewrite Hempty, lookup_empty in Hc3. by destruct Hc3. }
        eapply Huniq; eauto.
  - unfold swept. cbn [heap channels brokers ttl].
    split; [exact Httl|]. split; [by rewrite length_insert|].
    split; [|split].
    + intros t Ht. apply lookup_delete_None. right. auto.
    + intros c Hc. auto.
    + intros l b1 Hb1. destruct (Hheap _ _ Hb1) as (bw & Hbw & Hu1 & Hs1).
      destruct (decide (e.2 = l)) as [<-|Hne].
      * assert (bw = b) as -> by congruence. exists b'.
        split; [apply list_lookup_insert_eq; eapply lookup_lt_Some, Hb|].
        split; [congruence|]. intros c Hc. left.
        destruct (Hs1 c Hc); auto.
      * exists bw. split; [by rewrite list_lookup_insert_ne|].
        split; [exact Hu1|]. intros c Hc. destruct (Hs1 c Hc); auto.
  - intros t Ht. cbn [brokers]. apply lookup_delete_None. auto.
  - exact Hmono.
  - intros b0' Hb0' _. assert (b0' = b0) as -> by congruence.
    cbn [brokers channels]. split; [apply lookup_delete_eq|].
    intros c Hc. destruct (Hsubs c Hc); auto.
Qed.

Lemma sweep_swept (now : Z) (es : list (string * nat)) (w0 w : World) :
  well_formed w -> swept w0 w ->
  (forall e, e ∈ es -> is_Some (heap w0 !! e.2)) ->
  exists w', for_each (clean_one now) es w = Done w' /\ well_formed w' /\
    swept w0 w' /\
    (forall t, brokers w !! t = None -> brokers w' !! t = None) /\
    (forall c, is_closed (channels w) c -> is_closed (channels w') c) /\
    (forall e b0, e ∈ es -> heap w0 !! e.2 = Some b0 ->
       expired now (ttl w0) b0 = true ->
       brokers w' !! e.1 = None /\
       forall c, is_Some (subscribers b0 !! c) -> is_closed (channels w') c).
Proof.
  revert w. induction es as [|e es IH]; intros w Hwf Hsw Hes.
  - exists w. cbn [for_each]. split; [reflexivity|]. split; [exact Hwf|].
    split; [exact Hsw|]. split; [auto|]. split; [auto|].
    intros e b0 He. by apply not_elem_of_nil in He.
  - destruct (clean_one_swept now e w0 w Hwf Hsw) as
      (w1 & H1 & Hwf1 & Hsw1 & Hb1 & Hc1 & He1); [apply Hes; left|].
    destruct (IH w1 Hwf1 Hsw1) as (w' & H2 & Hwf' & Hsw' & Hb2 & Hc2 & He2).
    { intros e' He'. apply Hes. by right. }
    exists w'. cbn [for_each]. rewrite H1. cbn [mbind outcome_bind].
    split; [exact H2|]. split; [exact Hwf'|]. split; [exact Hsw'|].
    split; [auto|]. split; [auto|].
    intros e' b0 He' Hb0 Hexp. apply elem_of_cons in He' as [->|He'].
    + destruct (He1 b0 Hb0 Hexp) as [Hgone Hclosed]. split; auto.
    + eapply He2; eauto.
Qed.

(** *** The sweep with [removeLock] in view *)

Lemma clean_one_locked_free (held : nat -> bool) (now : Z) (e : string * nat)
    (w : World) (b : Broker) :
  heap w !! e.2 = Some b ->
  (expired now (ttl w) b = true -> held e.2 = false) ->
  clean_one_locked held now e w = clean_one now e w.
Proof.
  intros Hb Hfree. unfold clean_one_locked, clean_one. rewrite Hb.
  destruct (expired now (ttl w) b); [|reflexivity].
  rewrite Hfree by reflexivity. reflexivity.
Qed.

Lemma clean_one_locked_held (held : nat -> bool) (now : Z) (e : string * nat)
    (w : World) (b : Broker) :
  heap w !! e.2 = Some b -> expired now (ttl w) b = true -> held e.2 = true ->
  clean_one_locked held now e w = Blocks.
Proof.
  intros Hb Hexp Hheld. unfold clean_one_locked, on_broker. rewrite Hb, Hexp, Hheld.
  cbn [heap]. rewrite Hb. reflexivity.
Qed.

Lemma swept_expired (now : Z) (w0 w : World) (l : nat) (b0 : Broker) :
  swept w0 w -> heap w0 !! l = Some b0 ->
  exists b, heap w !! l = Some b /\ expired now (ttl w) b = expired now (ttl w0) b0.
Proof.
  intros (Httl & _ & _ & _ & Hheap) Hb0.
  destruct (Hheap _ _ Hb0) as (b & Hb & Hupd & _).
  exists b. split; [exact Hb|]. unfold expired. by rewrite Httl, Hupd.
Qed.

(** With the lock of every expired broker free, the sweep is the loop of
    [clean_one]. *)
Lemma sweep_locks_free (held : nat -> bool) (now : Z) (es : list (string * nat))
    (w0 w : World) :
  well_formed w -> swept w0 w ->
  (forall e, e ∈ es -> is_Some (heap w0 !! e.2)) ->
  (forall e b0, e ∈ es -> heap w0 !! e.2 = Some b0 ->
     expired now (ttl w0) b0 = true -> held e.2 = false) ->
  for_each (clean_one_locked held now) es w = for_each (clean_one now) es w.
Proof.
  revert w. induction es as [|e es IH]; intros w Hwf Hsw Hes Hfree; [reflexivity|].
  destruct (Hes e) as [b0 Hb0]; [left|].
  destruct (swept_expired now w0 w e.2 b0 Hsw Hb0) as (b & Hb & Hexp).
  cbn [for_each]. rewrite (clean_one_locked_free held now e w b Hb).
  2:{ rewrite Hexp. apply (Hfree e b0); [left|exact Hb0]. }
  destruct (clean_one_swept now e w0 w Hwf Hsw) as (w1 & H1 & Hwf1 & Hsw1 & _);
    [by exists b0|].
  rewrite H1. cbn [mbind outcome_bind]. apply IH; auto.
  - intros e' He'. apply Hes. by right.
  - intros e' b' He'. apply Hfree. by right.
Qed.

(** With the lock of one expired broker of the map held, the sweep blocks:
    at that broker, or at a held one before it. *)
Lemma sweep_locks_held (held : nat -> bool) (now : Z) (es : list (string * nat))
    (w0 w : World) (e : string * nat) (b0 : Broker) :
  well_formed w -> swept w0 w ->
  (forall e, e ∈ es -> is_Some (heap w0 !! e.2)) ->
  e ∈ es -> heap w0 !! e.2 = Some b0 ->
  expired now (ttl w0) b0 = true -> held e.2 = true ->
  for_each (clean_one_locked held now) es w = Blocks.
Proof.
  revert w. induction es as [|e' es IH]; intros w Hwf Hsw Hes Hin Hb0 Hexp0 Hheld.
  - by apply elem_of_nil in Hin.
  - destruct (Hes e') as [b1 Hb1]; [left|].
    destruct (swept_expired now w0 w e'.2 b1 Hsw Hb1) as (b & Hb & Hexp).
    cbn [for_each].
    destruct (expired now (ttl w) b && held e'.2) eqn:Hstop.
    + apply andb_true_iff in Hstop as [He Hh].
      by rewrite (clean_one_locked_held held now e' w b Hb He Hh).
    + rewrite (clean_one_locked_free held now e' w b Hb).
      2:{ intros He. rewrite He in Hstop. exact Hstop. }
      destruct (clean_one_swept now e' w0 w Hwf Hsw) as (w1 & H1 & Hwf1 & Hsw1 & _);
        [by exists b1|].
      rewrite H1. cbn [mbind outcome_bind]. apply IH; auto.
      * intros e'' He''. apply Hes. by right.
      * apply elem_of_cons in Hin as [->|Hin]; [|exact Hin].
        exfalso. assert (b1 = b0) as -> by congruence.
        rewrite Hexp, Hexp0, Hheld in Hstop. discriminate.
Qed.

(** Negating an int64 other than the least one does not wrap. *)
Lemma wrap64_opp (d : Z) : - 2 ^ 63 < d < 2 ^ 63 -> wrap64 (- d) = - d.
Proof.
  intros Hd. unfold wrap64. rewrite Z.mod_small; lia.
Qed.

Lemma expired_older (now ttl : Z) (b : Broker) :
  - 2 ^ 63 < ttl < 2 ^ 63 ->
  expired now ttl b = bool_decide (updated b + ttl < now).
Proof.
  intros Hd. unfold expired. rewrite wrap64_opp by exact Hd.
  destruct (Z.ltb_spec (updated b) (now + - ttl)).
  - rewrite bool_decide_eq_true_2; [reflexivity|lia].
  - rewrite bool_decide_eq_false_2; [reflexivity|lia].
Qed.

End brokerFacts.

Module interleavingFacts.
Import broker brokerFacts interleaving.

(** ** Logs *)

Lemma backlog_first_nil : backlog_first [].
Proof. exists [], []. repeat split; constructor. Qed.

Lemma only_backlog_first (l : list (origin * Message)) :
  only_backlog l -> backlog_first l.
Proof. intros H. exists l, []. rewrite app_nil_r. repeat split; [exact H|constructor]. Qed.

Lemma only_backlog_snoc (l : list (origin * Message)) (m : Message) :
  only_backlog l -> only_backlog (l ++ [(Backlog, m)]).
Proof. intros H. apply Forall_app. split; [exact H|]. by repeat constructor. Qed.

Lemma backlog_first_snoc_live (l : list (origin * Message)) (m : Message) :
  backlog_first l -> backlog_first (l ++ [(Live, m)]).
Proof.
  intros (l1 & l2 & -> & H1 & H2). exists l1, (l2 ++ [(Live, m)]).
  rewrite (assoc app). split; [reflexivity|]. split; [exact H1|].
  apply Forall_app. split; [exact H2|]. by repeat constructor.
Qed.

Lemma log_lookup (cs : list channel) (c : chan) (ch : channel) :
  cs !! c = Some ch -> log cs c = delivered ch.
Proof. intros H. unfold log. by rewrite H. Qed.

Lemma log_made (cs : list channel) (x : channel) (c : chan) :
  log (cs ++ [x]) c = if decide (c = length cs) then delivered x else log cs c.
Proof.
  unfold log. destruct (decide (c = length cs)) as [->|Hne].
  - by rewrite list_lookup_middle.
  - destruct (decide (c < length cs)%nat) as [Hlt|Hge].
    + by rewrite lookup_app_l.
    + rewrite !lookup_ge_None_2; [reflexivity|lia|].
      rewrite length_app. simpl. lia.
Qed.

Lemma is_open_made (cs : list channel) (x : channel) (c : chan) :
  is_open cs c -> is_open (cs ++ [x]) c.
Proof.
  intros (ch & Hl & Ho). exists ch. split; [|exact Ho].
  rewrite lookup_app_l; [exact Hl|]. eapply lookup_lt_Some, Hl.
Qed.

(** A hand-over leaves every open channel open. *)
Lemma is_open_sent (cs : list channel) (c c' : chan) (l : list (origin * Message)) :
  is_open cs c' -> is_open (<[c := {| closed := false; delivered := l |}]> cs) c'.
Proof.
  intros Ho. destruct (decide (c = c')) as [->|Hne].
  - eexists. split; [apply list_lookup_insert_eq, is_open_lt, Ho|reflexivity].
  - by apply is_open_insert_ne.
Qed.

Lemma elem_of_list_insert_inv {A} (l : list A) (i : nat) (x y : A) :
  y ∈ <[i := x]> l -> y = x \/ y ∈ l.
Proof.
  intros Hy. apply list_elem_of_lookup in Hy as [j Hj].
  apply list_lookup_insert_Some in Hj as [(_ & -> & _) | (_ & Hj)]; [by left|].
  right. eapply list_elem_of_lookup_2, Hj.
Qed.

(** ** Steps keep the invariant *)

Lemma inv_start (topic : string) (size : nat) (now : Z) :
  inv (start (NewBufferedBroker topic size now)).
Proof.
  split; simpl.
  - reflexivity.
  - eauto.
  - intros ch f Hf. by rewrite lookup_empty in Hf.
  - intros ch g Hg. by rewrite lookup_empty in Hg.
  - intros ch g Hg. by rewrite lookup_empty in Hg.
  - intros ch. unfold log. rewrite lookup_nil. apply backlog_first_nil.
  - intros d e Hd. by apply not_elem_of_nil in Hd.
Qed.

(** The invariant does not speak of the calls of [removeSubscribers]. *)
Lemma inv_removers (b : Broker) (cs : list channel) (g : gmap chan goroutine)
    (d : list (Message * list (chan * bool))) (r r' : list remover) (p : bool) :
  inv (mkSystem b cs g d r p) -> inv (mkSystem b cs g d r' p).
Proof. intros [? ? ? ? ? ? ?]. by split. Qed.

(** The goroutine moving on between two places before its last step. *)
Lemma inv_set_go (s : System) (ch : chan) (g0 g' : goroutine) :
  inv s -> gos s !! ch = Some g0 -> g0 <> GoDone -> g' <> GoDone ->
  inv (set_go ch g' s).
Proof.
  intros [Hal Hst Hsubs Hgos Hmade Hlog Hdiffs] Hg0 Hne0 Hne'.
  split; simpl; try done.
  - intros ch' f Hf. destruct (Hsubs ch' f Hf) as (-> & Ho & Hd).
    split; [reflexivity|]. split; [exact Ho|].
    rewrite lookup_insert_ne; [exact Hd|]. intros ->. congruence.
  - intros ch' g1 Hg1 Hne1.
    apply lookup_insert_Some in Hg1 as [(<- & <-) | (Hne & Hg1)]; eauto.
  - intros ch' g1 Hg1.
    apply lookup_insert_Some in Hg1 as [(<- & <-) | (Hne & Hg1)]; eauto.
Qed.

Lemma inv_subscribe (s : System) :
  inv s ->
  inv (mkSystem (brk s) (chs s ++ [{| closed := false; delivered := [] |}])
         (<[length (chs s) := GoStart]> (gos s)) (diffs s) (removers s) false).
Proof.
  intros [Hal Hst Hsubs Hgos Hmade Hlog Hdiffs].
  split; simpl; try done.
  - intros ch f Hf. destruct (Hsubs ch f Hf) as (-> & Ho & Hd).
    split; [reflexivity|]. split; [by apply is_open_made|].
    rewrite lookup_insert_ne; [exact Hd|]. apply is_open_lt in Ho. lia.
  - intros ch g1 Hg1 Hne1.
    apply lookup_insert_Some in Hg1 as [(<- & <-) | (Hne & Hg1)].
    + split; [|split].
      * eexists. split; [by apply list_lookup_middle|reflexivity].
      * destruct (subscribers (brk s) !! length (chs s)) eqn:E; [|reflexivity].
        destruct (Hsubs _ _ E) as (_ & Ho & _). apply is_open_lt in Ho. lia.
      * rewrite log_made, decide_True by reflexivity. constructor.
    + destruct (Hgos ch g1 Hg1 Hne1) as (Ho & Hs & Hb).
      split; [by apply is_open_made|]. split; [exact Hs|].
      rewrite log_made, decide_False; [exact Hb|]. apply is_open_lt in Ho. lia.
  - intros ch g1 Hg1. rewrite length_app. simpl.
    apply lookup_insert_Some in Hg1 as [(<- & <-) | (Hne & Hg1)]; [lia|].
    apply Hmade in Hg1. lia.
  - intros ch. rewrite log_made. destruct (decide _); [apply backlog_first_nil|apply Hlog].
Qed.

Lemma inv_go_send (s : System) (ch : chan) (msg : Message) (rest : list Message) :
  inv s -> gos s !! ch = Some (GoEmit (msg :: rest)) ->
  exists cs, send Backlog msg ch (chs s) = Done cs /\
    (forall c, is_closed (chs s) c -> cs !! c = chs s !! c) /\
    inv (mkSystem (brk s) cs (<[ch := GoEmit rest]> (gos s)) (diffs s) (removers s) false).
Proof.
  intros [Hal Hst Hsubs Hgos Hmade Hlog Hdiffs] Hg.
  destruct (Hgos ch _ Hg) as (Ho & Hnone & Hback); [done|].
  destruct (send_open Backlog msg ch (chs s) Ho) as (c & Hl & Hc & Hsend).
  eexists. split; [exact Hsend|].
  split.
  { intros c' Hc'. apply list_lookup_insert_ne. intros ->.
    eapply open_not_closed; eauto. }
  pose proof (lookup_lt_Some _ _ _ Hl) as Hlt.
  split; simpl; try done.
  - intros ch' f Hf. destruct (Hsubs ch' f Hf) as (-> & Ho' & Hd).
    split; [reflexivity|]. split; [by apply is_open_sent|].
    rewrite lookup_insert_ne; [exact Hd|]. intros ->. congruence.
  - intros ch' g1 Hg1 Hne1.
    apply lookup_insert_Some in Hg1 as [(<- & <-) | (Hne & Hg1)].
    + split; [by apply is_open_sent|]. split; [exact Hnone|].
      rewrite log_insert_eq by done. simpl. apply only_backlog_snoc.
      by rewrite <- (log_lookup _ _ _ Hl).
    + destruct (Hgos ch' g1 Hg1 Hne1) as (Ho' & Hs & Hb).
      split; [by apply is_open_sent|]. split; [exact Hs|].
      by rewrite log_insert_ne.
  - intros ch' g1 Hg1. rewrite length_insert.
    apply lookup_insert_Some in Hg1 as [(<- & <-) | (Hne & Hg1)]; eauto.
  - intros ch'. destruct (decide (ch = ch')) as [<-|Hne].
    + rewrite log_insert_eq by done. simpl. apply only_backlog_first, only_backlog_snoc.
      by rewrite <- (log_lookup _ _ _ Hl).
    + rewrite log_insert_ne by done. apply Hlog.
Qed.

Lemma inv_go_register (s : System) (ch : chan) :
  inv s -> gos s !! ch = Some (GoEmit []) -> diffs s = [] ->
  inv (mkSystem (setSubscriber ch true (brk s)) (chs s)
         (<[ch := GoDone]> (gos s)) (diffs s) (removers s) false).
Proof.
  intros [Hal Hst Hsubs Hgos Hmade Hlog Hdiffs] Hg Hd.
  destruct (Hgos ch _ Hg) as (Ho & Hnone & Hback); [done|].
  split; simpl; try done.
  - intros ch' f Hf.
    apply lookup_insert_Some in Hf as [(<- & <-) | (Hne & Hf)].
    + split; [reflexivity|]. split; [exact Ho|]. apply lookup_insert_eq.
    + destruct (Hsubs ch' f Hf) as (-> & Ho' & Hd').
      split; [reflexivity|]. split; [exact Ho'|]. by rewrite lookup_insert_ne.
  - intros ch' g1 Hg1 Hne1.
    apply lookup_insert_Some in Hg1 as [(<- & <-) | (Hne & Hg1)]; [done|].
    destruct (Hgos ch' g1 Hg1 Hne1) as (Ho' & Hs & Hb).
    split; [exact Ho'|]. split; [by rewrite lookup_insert_ne|exact Hb].
  - intros ch' g1 Hg1.
    apply lookup_insert_Some in Hg1 as [(<- & <-) | (Hne & Hg1)]; eauto.
  - rewrite Hd. intros d e Hin. by apply not_elem_of_nil in Hin.
Qed.

Lemma inv_full (s : System) (msg : Message) (now : Z) :
  inv s ->
  exists b, full msg now (brk s) = Done b /\
    subscribers b = subscribers (brk s) /\
    inv (mkSystem b (chs s) (gos s) (diffs s) (removers s) false).
Proof.
  intros [Hal [r Hst] Hsubs Hgos Hmade Hlog Hdiffs].
  unfold full, the_state. rewrite Hst. cbn [mbind outcome_bind].
  eexists. split; [reflexivity|]. split; [reflexivity|].
  split; simpl; eauto.
Qed.

Lemma inv_diff_begin (s : System) (msg : Message) (order : list (chan * bool)) :
  inv s -> order ≡ₚ map_to_list (subscribers (brk s)) ->
  inv (mkSystem (brk s) (chs s) (gos s) (diffs s ++ [(msg, order)]) (removers s) false).
Proof.
  intros [Hal Hst Hsubs Hgos Hmade Hlog Hdiffs] Hperm.
  split; simpl; try done.
  intros d e Hd He. apply elem_of_app in Hd as [Hd|Hd]; [eauto|].
  apply list_elem_of_singleton in Hd as ->. simpl in He.
  rewrite Hperm in He. destruct e. by apply elem_of_map_to_list.
Qed.

Lemma inv_diff_send (s : System) (i : nat) (msg : Message) (e : chan * bool)
    (rest : list (chan * bool)) :
  inv s -> diffs s !! i = Some (msg, e :: rest) ->
  subscribers (brk s) !! e.1 = Some true /\ e.2 = true /\
  gos s !! e.1 = Some GoDone /\
  exists cs, diff_one msg e (chs s) = Done cs /\
    (forall c, is_closed (chs s) c -> cs !! c = chs s !! c) /\
    inv (mkSystem (brk s) cs (gos s) (<[i := (msg, rest)]> (diffs s)) (removers s) false).
Proof.
  intros [Hal Hst Hsubs Hgos Hmade Hlog Hdiffs] Hi.
  assert (Hin : (msg, e :: rest) ∈ diffs s) by (eapply list_elem_of_lookup_2, Hi).
  pose proof (Hdiffs _ e Hin (list_elem_of_here _ _)) as He.
  destruct (Hsubs _ _ He) as (Htrue & Ho & Hdone).
  rewrite Htrue in He. split; [exact He|]. split; [exact Htrue|]. split; [exact Hdone|].
  unfold diff_one. rewrite Htrue.
  destruct (send_open Live msg e.1 (chs s) Ho) as (c & Hl & Hc & Hsend).
  eexists. split; [exact Hsend|].
  split.
  { intros c' Hc'. apply list_lookup_insert_ne. intros Heq. rewrite Heq in Ho.
    eapply open_not_closed; eauto. }
  pose proof (lookup_lt_Some _ _ _ Hl) as Hlt.
  split; simpl; try done.
  - intros ch' f Hf. destruct (Hsubs ch' f Hf) as (-> & Ho' & Hd).
    split; [reflexivity|]. split; [by apply is_open_sent|exact Hd].
  - intros ch' g1 Hg1 Hne1.
    destruct (Hgos ch' g1 Hg1 Hne1) as (Ho' & Hs & Hb).
    split; [by apply is_open_sent|]. split; [exact Hs|].
    rewrite log_insert_ne; [exact Hb|]. intros Heq. congruence.
  - intros ch' g1 Hg1. rewrite length_insert. eauto.
  - intros ch'. destruct (decide (e.1 = ch')) as [<-|Hne].
    + rewrite log_insert_eq by done. simpl. apply backlog_first_snoc_live.
      rewrite <- (log_lookup _ _ _ Hl). apply Hlog.
    + rewrite log_insert_ne by done. apply Hlog.
  - intros d e' Hd He'. apply elem_of_list_insert_inv in Hd as [->|Hd]; [|eauto].
    simpl in He'. apply (Hdiffs _ e' Hin). simpl. by right.
Qed.

Lemma inv_diff_end (s : System) (i : nat) :
  inv s ->
  inv (mkSystem (brk s) (chs s) (gos s) (delete i (diffs s)) (removers s) false).
Proof.
  intros [Hal Hst Hsubs Hgos Hmade Hlog Hdiffs].
  split; simpl; try done.
  intros d e Hd He. apply list_elem_of_delete_inv in Hd. eauto.
Qed.

Lemma inv_unsubscribe (s : System) (ch : chan) :
  inv s -> diffs s = [] ->
  exists bc, Unsubscribe ch (brk s, chs s) = Done bc /\
    (forall c, is_closed (chs s) c -> bc.2 !! c = chs s !! c) /\
    updated bc.1 = updated (brk s) /\ state bc.1 = state (brk s) /\
    (forall c f, subscribers bc.1 !! c = Some f -> subscribers (brk s) !! c = Some f) /\
    inv (mkSystem bc.1 bc.2 (gos s) (diffs s) (removers s) false).
Proof.
  intros Hinv Hd. pose proof Hinv as [Hal Hst Hsubs Hgos Hmade Hlog Hdiffs].
  destruct (subscribers (brk s) !! ch) as [f|] eqn:Hf.
  2:{ exists (brk s, chs s). split; [by apply Unsubscribe_absent|].
      do 4 (split; [done|]).
      destruct s; simpl in *. by subst. }
  destruct (Hsubs ch f Hf) as (-> & Ho & Hdone).
  destruct (Unsubscribe_present ch (brk s) (chs s)) as (c & Hl & Hc & HU); [eauto|done|].
  eexists. split; [exact HU|].
  split.
  { intros c' Hc'. apply list_lookup_insert_ne. intros ->.
    eapply open_not_closed; eauto. }
  do 2 (split; [reflexivity|]).
  split.
  { intros c' f' Hf'. cbn [fst subscribers] in Hf'.
    by apply lookup_delete_Some in Hf' as [_ Hf']. }
  pose proof (lookup_lt_Some _ _ _ Hl) as Hlt.
  split; simpl; try done.
  - intros ch' f' Hf'. apply lookup_delete_Some in Hf' as [Hne Hf'].
    destruct (Hsubs ch' f' Hf') as (-> & Ho' & Hd').
    split; [reflexivity|]. split; [by apply is_open_insert_ne|exact Hd'].
  - intros ch' g1 Hg1 Hne1.
    destruct (Hgos ch' g1 Hg1 Hne1) as (Ho' & Hs & Hb).
    assert (ch <> ch') by (intros ->; congruence).
    split; [by apply is_open_insert_ne|]. split.
    + apply lookup_delete_None. by right.
    + by rewrite log_insert_ne.
  - intros ch' g1 Hg1. rewrite length_insert. eauto.
  - intros ch'. destruct (decide (ch = ch')) as [<-|Hne].
    + rewrite log_insert_eq by done. simpl.
      rewrite <- (log_lookup _ _ _ Hl). apply Hlog.
    + rewrite log_insert_ne by done. apply Hlog.
  - rewrite Hd. intros d e Hin. by apply not_elem_of_nil in Hin.
Qed.

(** What one step does, whatever the action. *)
Lemma exec_step (a : action) (s s' : System) :
  inv s -> exec a s = Some s' ->
  inv s' /\
  (forall c, is_closed (chs s) c -> chs s' !! c = chs s !! c) /\
  (is_diff_action a = true -> brk s' = brk s) /\
  ((updated (brk s') = updated (brk s) /\ state (brk s') = state (brk s)) \/
   exists msg now r, a = AFull msg now /\ state (brk s) = Some r /\
     state (brk s') = Some (put msg r) /\ updated (brk s') = now) /\
  (forall ch f, subscribers (brk s') !! ch = Some f ->
     subscribers (brk s) !! ch = Some f \/
     (a = AGoRegister ch /\ gos s !! ch = Some (GoEmit []))).
Proof.
  intros Hinv Hex. pose proof (inv_alive _ Hinv) as Hal.
  unfold exec in Hex. rewrite Hal in Hex.
  assert (Hsame : forall r', inv (mkSystem (brk s) (chs s) (gos s) (diffs s) r' false)).
  { intros r'. destruct s; simpl in *; subst. eapply inv_removers, Hinv. }
  destruct a.
  - unfold Subscribe, make_chan in Hex. cbn [fst snd] in Hex.
    rewrite bool_decide_eq_true_2 in Hex by apply (inv_state _ Hinv).
    injection Hex as <-. split; [by apply inv_subscribe|]. simpl.
    split; [|split; [done|split; [by left|by left]]].
    intros c (x & Hx & _). apply lookup_app_l. eapply lookup_lt_Some, Hx.
  - destruct (gos s !! ch) as [[]|] eqn:Hg; try discriminate.
    destruct (remove_unlocked s); [|discriminate]. injection Hex as <-.
    split; [by eapply inv_set_go|]. simpl. split; [done|split; [done|split; [by left|by left]]].
  - destruct (gos s !! ch) as [[]|] eqn:Hg; try discriminate.
    destruct (state (brk s)) as [r|] eqn:Hr; [|discriminate].
    destruct (waitTouch r); [|discriminate]. injection Hex as <-.
    split; [by eapply inv_set_go|]. simpl.
    split; [done|split; [done|split; [left; split; congruence|by left]]].
  - destruct (gos s !! ch) as [[]|] eqn:Hg; try discriminate.
    destruct (state (brk s)) as [r|] eqn:Hr; [|discriminate]. injection Hex as <-.
    split; [by eapply inv_set_go|]. simpl.
    split; [done|split; [done|split; [left; split; congruence|by left]]].
  - destruct (gos s !! ch) as [[| | |[|msg rest]|]|] eqn:Hg; try discriminate.
    destruct (inv_go_send s ch msg rest Hinv Hg) as (cs & Hsend & Hfr & Hinv').
    rewrite Hsend in Hex. cbn in Hex. injection Hex as <-.
    split; [exact Hinv'|]. simpl. split; [exact Hfr|split; [done|split; [by left|auto]]].
  - destruct (gos s !! ch) as [[| | |[|msg rest]|]|] eqn:Hg; try discriminate.
    destruct (write_free s) eqn:Hw; [|discriminate].
    apply bool_decide_eq_true in Hw. injection Hex as <-.
    split; [by apply inv_go_register|]. simpl.
    split; [done|split; [done|split; [by left|]]].
    intros ch' f Hf. apply lookup_insert_Some in Hf as [(<- & <-) | (_ & Hf)]; auto.
  - destruct (write_free s); [|discriminate].
    destruct (inv_full s msg now Hinv) as (b & Hf & _ & Hinv').
    rewrite Hf in Hex. cbn in Hex. injection Hex as <-.
    split; [exact Hinv'|]. simpl. split; [done|split; [done|]].
    destruct (inv_state _ Hinv) as [r Hr].
    unfold full, the_state in Hf. rewrite Hr in Hf. cbn in Hf. injection Hf as <-.
    split; [|by left]. right. exists msg, now, r. auto.
  - destruct (bool_decide _) eqn:Hp; [|discriminate].
    apply bool_decide_eq_true in Hp. injection Hex as <-.
    split; [by apply inv_diff_begin|]. simpl. split; [done|split; [done|split; [by left|by left]]].
  - destruct (diffs s !! i) as [[msg [|e rest]]|] eqn:Hi; try discriminate.
    destruct (inv_diff_send s i msg e rest Hinv Hi)
      as (_ & _ & _ & cs & Hd & Hfr & Hinv').
    rewrite Hd in Hex. cbn in Hex. injection Hex as <-.
    split; [exact Hinv'|]. simpl. split; [exact Hfr|split; [done|split; [by left|auto]]].
  - destruct (diffs s !! i) as [[msg [|e rest]]|] eqn:Hi; try discriminate.
    injection Hex as <-.
    split; [by apply inv_diff_end|]. simpl. split; [done|split; [done|split; [by left|by left]]].
  - destruct (write_free s) eqn:Hw; [|discriminate].
    apply bool_decide_eq_true in Hw.
    destruct (inv_unsubscribe s ch Hinv Hw) as (bc & HU & Hfr & Hu & Hs & Hsub & Hinv').
    rewrite HU in Hex. cbn in Hex. injection Hex as <-.
    split; [exact Hinv'|]. simpl. split; [exact Hfr|split; [done|split; [by left|auto]]].
  - destruct (_ && _); [|discriminate]. injection Hex as <-.
    split; [apply Hsame|]. simpl. split; [done|split; [done|split; [by left|by left]]].
  - destruct (removers s !! i) as [[l|l]|]; try discriminate.
    destruct (_ && _); [|discriminate]. injection Hex as <-.
    split; [apply Hsame|]. simpl. split; [done|split; [done|split; [by left|by left]]].
  - destruct (removers s !! i) as [[l|[|ch rest]]|]; try discriminate.
    destruct (write_free s) eqn:Hw; [|discriminate].
    apply bool_decide_eq_true in Hw.
    destruct (inv_unsubscribe s ch Hinv Hw) as (bc & HU & Hfr & Hu & Hs & Hsub & Hinv').
    rewrite HU in Hex. cbn in Hex. injection Hex as <-.
    split; [eapply inv_removers, Hinv'|]. simpl.
    split; [exact Hfr|split; [done|split; [by left|auto]]].
  - destruct (removers s !! i) as [[l|[|ch rest]]|]; try discriminate.
    injection Hex as <-.
    split; [apply Hsame|]. simpl. split; [done|split; [done|split; [by left|by left]]].
Qed.

Lemma is_closed_frozen (cs cs' : list channel) (c : chan) :
  is_closed cs c -> cs' !! c = cs !! c -> is_closed cs' c.
Proof. intros (x & Hx & Hc) Heq. exists x. by rewrite Heq. Qed.

(** ... and what a run does. *)
Lemma run_steps (tr : list action) (s s' : System) :
  inv s -> run tr s = Some s' ->
  inv s' /\ forall c, is_closed (chs s) c -> chs s' !! c = chs s !! c.
Proof.
  revert s. induction tr as [|a tr IH]; intros s Hinv Hrun.
  - injection Hrun as <-. auto.
  - cbn [run] in Hrun. destruct (exec a s) as [s1|] eqn:Hex; [|discriminate].
    cbn in Hrun. destruct (exec_step a s s1 Hinv Hex) as (Hinv1 & Hfr1 & _).
    destruct (IH s1 Hinv1 Hrun) as [Hinv' Hfr']. split; [exact Hinv'|].
    intros c Hc. rewrite Hfr', Hfr1; [reflexivity|exact Hc|].
    eapply is_closed_frozen; eauto.
Qed.

Lemma reachable_inv (s : System) : reachable s -> inv s.
Proof.
  intros (topic & size & now & tr & Hrun).
  eapply run_steps; [apply inv_start|exact Hrun].
Qed.

End interleavingFacts.

Module brokerTheorems.
Import broker brokerFacts.

Lemma full_state (msg : Message) (now : Z) (b : Broker) (r : ringBuffer) :
  state b = Some r ->
  full msg now b =
    Done {| topic := topic b; state := Some (put msg r);
            subscribers := subscribers b; updated := now |}.
Proof. intros H. unfold full, the_state. rewrite H. reflexivity. Qed.

Lemma fulls_state (pubs : list (Message * Z)) (b : Broker) (r : ringBuffer) :
  state b = Some r ->
  exists b', fulls pubs b = Done b' /\
    state b' = Some (foldl (fun r m => put m r) r pubs.*1) /\
    subscribers b' = subscribers b /\ topic b' = topic b.
Proof.
  revert b r. induction pubs as [|[m t] pubs IH]; intros b r Hst.
  - exists b. cbn. auto.
  - unfold fulls. cbn [for_each fst snd]. rewrite (full_state m t b r Hst).
    cbn [mbind outcome_bind].
    destruct (IH {| topic := topic b; state := Some (put m r);
                    subscribers := subscribers b; updated := t |} (put m r) eq_refl)
      as (b' & Hf & Hs & Hsub & Htop).
    exists b'. split; [exact Hf|]. cbn. auto.
Qed.

(** C2. A buffered broker of capacity K >= 1 that has stored M >= K
    messages hands a new subscriber exactly the last K of them as backlog,
    oldest first, and then registers it; in particular, after three calls of
    [Stream] on a buffered broker of size 2 that has no subscriber, the
    backlog of a [Subscribe] is the second and the third message, in that
    order. *)
Theorem buffered_backlog_last_K :
  (forall (topic : string) (K : nat) (t0 : Z) (pubs : list (Message * Z))
          (cs : list channel),
     (1 <= K)%nat -> (K <= length pubs)%nat ->
     exists b, fulls pubs (NewBufferedBroker topic K t0) = Done b /\
       exists b' cs', Subscribe_now (b, cs) = Done (length cs, (b', cs')) /\
         log cs' (length cs) =
           (fun m => (Backlog, m)) <$> drop (length pubs - K) pubs.*1 /\
         subscribers b' !! length cs = Some true) /\
  (forall (d1 d2 d3 : list byte) (t0 t1 t2 t3 : Z),
     exists w3 w4,
       (w1 ← Stream "logs" "line" d1 t1
               (createBufferedBroker "logs" 2 t0 init_world).2;
        w2 ← Stream "logs" "line" d2 t2 w1;
        Stream "logs" "line" d3 t3 w2) = Done w3 /\
       channels w3 = [] /\
       subscribe_on (createBufferedBroker "logs" 2 t0 init_world).1 w3 = Done (0%nat, w4) /\
       log (channels w4) 0 =
         [(Backlog, NewMessage "line" d2); (Backlog, NewMessage "line" d3)]).
Proof.
  split.
  - intros topic K t0 pubs cs HK HM.
    destruct (fulls_state pubs (NewBufferedBroker topic K t0) (newRingBuffer K) eq_refl)
      as (b & Hf & Hst & Hsub & _).
    exists b. split; [exact Hf|].
    destruct (puts_items pubs.*1 (newRingBuffer K)) as [Hit _]; [simpl; lia..|].
    simpl in Hit.
    unfold Subscribe_now, Subscribe, make_chan, handshake, the_state.
    cbn [fst snd]. rewrite Hst. rewrite bool_decide_eq_true_2 by eauto.
    unfold waitTouch. cbn [mbind outcome_bind]. rewrite touched_puts.
    2:{ left. destruct pubs; simpl in *; [lia|discriminate]. }
    cbn [mbind outcome_bind].
    erewrite emit_backlog; [|by apply list_lookup_middle|reflexivity].
    cbn [mbind outcome_bind]. do 2 eexists. split; [reflexivity|]. split.
    + unfold log. rewrite list_lookup_insert_eq by (rewrite length_app; simpl; lia).
      simpl. unfold emit. rewrite Hit, length_fmap. reflexivity.
    + simpl. apply lookup_insert_eq.
  - intros. do 2 eexists. vm_compute. repeat split; reflexivity.
Qed.

Lemma buffered_backlog_last_K_witness :
  exists b, fulls [(NewMessage "line" [x31], 1); (NewMessage "line" [x32], 2);
                   (NewMessage "line" [x33], 3)]
              (NewBufferedBroker "logs" 2 0) = Done b /\
    exists b' cs', Subscribe_now (b, []) = Done (0%nat, (b', cs')) /\
      log cs' 0 = [(Backlog, NewMessage "line" [x32]); (Backlog, NewMessage "line" [x33])] /\
      subscribers b' !! 0%nat = Some true.
Proof.
  apply (proj1 buffered_backlog_last_K "logs" 2%nat 0
           [(NewMessage "line" [x31], 1); (NewMessage "line" [x32], 2);
            (NewMessage "line" [x33], 3)] []); simpl; lia.
Defined.

(** The state store of the broker behind a pointer. *)
Lemma register_lookup (topic : string) (b : Broker) (w : World) :
  heap (register topic b w).2 !! (register topic b w).1 = Some b /\
  brokers (register topic b w).2 !! topic = Some (register topic b w).1.
Proof.
  unfold register; simpl. split.
  - by apply list_lookup_middle.
  - apply lookup_insert_eq.
Qed.

(** C10. A lookup does not look at the kind of broker: for a topic that is
    in the registry, [GetFullDiffBroker] and [GetBufferedBroker] both return
    the broker that is there and change nothing.  So [GetBufferedBroker] on
    a topic made by [GetFullDiffBroker] gives the broker of capacity 1, and
    [GetFullDiffBroker] on a topic made by [GetBufferedBroker] the broker of
    capacity 100. *)
Theorem lookup_blind_to_kind (w : World) (topic : string) (now now' : Z) :
  (forall l, brokers w !! topic = Some l ->
     GetFullDiffBroker topic now w = (l, w) /\
     GetBufferedBroker topic now w = (l, w)) /\
  (brokers w !! topic = None ->
     let r := GetFullDiffBroker topic now w in
     GetBufferedBroker topic now' r.2 = r /\
     size <$> (heap r.2 !! r.1 ≫= state) = Some 1%nat) /\
  (brokers w !! topic = None ->
     let r := GetBufferedBroker topic now w in
     GetFullDiffBroker topic now' r.2 = r /\
     size <$> (heap r.2 !! r.1 ≫= state) = Some 100%nat).
Proof.
  split; [|split].
  - intros l Hl. unfold GetFullDiffBroker, GetBufferedBroker, FindBroker.
    rewrite Hl. auto.
  - intros Hnone r.
    assert (r = register topic (NewFullDiffBroker topic now) w) as ->.
    { subst r. unfold GetFullDiffBroker, FindBroker. by rewrite Hnone. }
    destruct (register_lookup topic (NewFullDiffBroker topic now) w) as [Hh Hb].
    split.
    + unfold GetBufferedBroker, FindBroker. rewrite Hb.
      by destruct (register _ _ _).
    + rewrite Hh. reflexivity.
  - intros Hnone r.
    assert (r = register topic (NewBufferedBroker topic defaultSize now) w) as ->.
    { subst r. unfold GetBufferedBroker, FindBroker. by rewrite Hnone. }
    destruct (register_lookup topic (NewBufferedBroker topic defaultSize now) w)
      as [Hh Hb].
    split.
    + unfold GetFullDiffBroker, FindBroker. rewrite Hb.
      by destruct (register _ _ _).
    + rewrite Hh. reflexivity.
Qed.

Lemma lookup_blind_to_kind_witness :
  let w := (GetFullDiffBroker "t" 0 init_world).2 in
  GetFullDiffBroker "t" 5 w = (0%nat, w) /\ GetBufferedBroker "t" 5 w = (0%nat, w).
Proof.
  intros w. apply (proj1 (lookup_blind_to_kind w "t" 5 5)). reflexivity.
Defined.

(** C6, as stated, fails: the creation path does not look at the map again.
    Called for a topic that already has a broker, as it is when another
    caller has created one since the lookup missed, it makes a second broker
    and puts it in the place of the first. *)
Lemma create_replaces_existing :
  let r0 := createFullDiffBroker "t" 0 init_world in
  let r1 := createFullDiffBroker "t" 1 r0.2 in
  brokers r0.2 !! "t" = Some r0.1 /\
  r1.1 <> r0.1 /\
  brokers r1.2 !! "t" = Some r1.1 /\
  length (heap r1.2) = 2%nat.
Proof. vm_compute. repeat split; try reflexivity. discriminate. Qed.

(** C6, amended. Get-or-create is one lookup followed, on a miss, by the
    creation path.  When the lookup finds a broker for the topic, that broker
    is returned, none is made and the registry stays as it is.  The creation
    path itself does not check the map: it always makes a new broker and
    stores it under the topic, whatever was there. *)
Theorem get_or_create_single_lookup (w : World) (topic : string) (size : nat) (now : Z) :
  (forall l, brokers w !! topic = Some l ->
     GetFullDiffBroker topic now w = (l, w) /\
     GetBufferedBroker topic now w = (l, w)) /\
  (brokers w !! topic = None ->
     GetFullDiffBroker topic now w = createFullDiffBroker topic now w /\
     GetBufferedBroker topic now w = createBufferedBroker topic defaultSize now w) /\
  (let r := createFullDiffBroker topic now w in
   r.1 = length (heap w) /\
   heap r.2 = heap w ++ [NewFullDiffBroker topic now] /\
   brokers r.2 = <[topic := r.1]> (brokers w)) /\
  (let r := createBufferedBroker topic size now w in
   r.1 = length (heap w) /\
   heap r.2 = heap w ++ [NewBufferedBroker topic size now] /\
   brokers r.2 = <[topic := r.1]> (brokers w)).
Proof.
  split; [|split; [|split]].
  - intros l Hl. unfold GetFullDiffBroker, GetBufferedBroker, FindBroker.
    rewrite Hl. auto.
  - intros Hnone. unfold GetFullDiffBroker, GetBufferedBroker, FindBroker.
    rewrite Hnone. auto.
  - simpl. auto.
  - simpl. auto.
Qed.

Lemma get_or_create_single_lookup_witness :
  let w := (createBufferedBroker "logs" 2 0 init_world).2 in
  GetFullDiffBroker "logs" 7 w = (0%nat, w) /\ GetBufferedBroker "logs" 7 w = (0%nat, w).
Proof.
  intros w. apply (proj1 (get_or_create_single_lookup w "logs" 2 7)). reflexivity.
Defined.



End brokerTheorems.

Module interleavingTheorems.
Import broker brokerFacts interleaving interleavingFacts.

Lemma diff_one_elsewhere (msg : Message) (e : chan * bool) (cs cs' : list channel)
    (c : chan) :
  diff_one msg e cs = Done cs' -> c <> e.1 -> cs' !! c = cs !! c.
Proof.
  unfold diff_one, send. intros H Hne.
  destruct e.2; [|by injection H as <-].
  destruct (cs !! e.1) as [x|]; [|discriminate].
  destruct (closed x); [discriminate|]. injection H as <-.
  by apply list_lookup_insert_ne.
Qed.

Lemma after_reachable (tr : list action) :
  is_Some (run tr sample_start) -> reachable (after tr).
Proof.
  intros [s Hs]. exists "t1", 1%nat, 0, tr. unfold after.
  fold sample_start. rewrite Hs. reflexivity.
Qed.

(** C1. In every state the broker can get into: a step of [diff] hands a
    message over only to a channel that is flagged in the subscriber map and
    whose goroutine is through with its backlog; a channel gets flagged by
    the last step of its goroutine only, which comes after [emit]; and on
    every channel all backlog messages come before all diffs. *)
Theorem diff_only_after_backlog (s : System) :
  reachable s ->
  (forall i s' c, exec (ADiffSend i) s = Some s' ->
     log (chs s') c <> log (chs s) c ->
     subscribers (brk s) !! c = Some true /\ gos s !! c = Some GoDone) /\
  (forall a s' ch, exec a s = Some s' ->
     subscribers (brk s') !! ch = Some true ->
     subscribers (brk s) !! ch = Some true \/
     (a = AGoRegister ch /\ gos s !! ch = Some (GoEmit []))) /\
  (forall ch g, gos s !! ch = Some g -> g <> GoDone ->
     subscribers (brk s) !! ch = None /\ only_backlog (log (chs s) ch)) /\
  (forall ch, backlog_first (log (chs s) ch)).
Proof.
  intros Hre. pose proof (reachable_inv s Hre) as Hinv.
  split; [|split; [|split]].
  - intros i s' c Hex Hlog.
    pose proof (inv_alive _ Hinv) as Hal.
    unfold exec in Hex. rewrite Hal in Hex.
    destruct (diffs s !! i) as [[msg [|e rest]]|] eqn:Hi; try discriminate.
    destruct (inv_diff_send s i msg e rest Hinv Hi)
      as (Hflag & _ & Hdone & cs & Hd & _ & _).
    rewrite Hd in Hex. cbn in Hex. injection Hex as <-. cbn [chs] in Hlog.
    destruct (decide (c = e.1)) as [->|Hne]; [auto|].
    exfalso. apply Hlog. unfold log.
    by rewrite (diff_one_elsewhere msg e (chs s) cs c Hd Hne).
  - intros a s' ch Hex Hflag.
    destruct (exec_step a s s' Hinv Hex) as (_ & _ & _ & _ & Hsub). auto.
  - intros ch g Hg Hne. destruct (inv_gos s Hinv ch g Hg Hne) as (_ & Hnone & Hb). auto.
  - apply (inv_log s Hinv).
Qed.

Lemma diff_only_after_backlog_witness :
  log (chs (after (sample_trace ++ [ADiffSend 0%nat]))) 0 =
    [(Backlog, msg_a); (Live, msg_b)] /\
  backlog_first (log (chs (after (sample_trace ++ [ADiffSend 0%nat]))) 0).
Proof.
  split; [vm_compute; reflexivity|].
  apply (diff_only_after_backlog (after (sample_trace ++ [ADiffSend 0%nat]))).
  apply after_reachable. vm_compute. eauto.
Defined.

Lemma exec_unsubscribe_present (s : System) (ch : chan) :
  inv s -> diffs s = [] -> is_Some (subscribers (brk s) !! ch) ->
  exists c, chs s !! ch = Some c /\ closed c = false /\
    exec (AUnsubscribe ch) s =
      Some (mkSystem {| topic := topic (brk s); state := state (brk s);
                        subscribers := delete ch (subscribers (brk s));
                        updated := updated (brk s) |}
              (<[ch := {| closed := true; delivered := delivered c |}]> (chs s))
              (gos s) (diffs s) (removers s) false).
Proof.
  intros Hinv Hd [f Hf]. destruct (inv_subs s Hinv ch f Hf) as (_ & Ho & _).
  destruct (Unsubscribe_present ch (brk s) (chs s)) as (c & Hl & Hc & HU); [eauto|done|].
  exists c. split; [exact Hl|]. split; [exact Hc|].
  unfold exec, write_free. rewrite (inv_alive s Hinv), Hd, bool_decide_eq_true_2 by done.
  rewrite HU. reflexivity.
Qed.

Lemma exec_unsubscribe_absent (s : System) (ch : chan) :
  panicked s = false -> diffs s = [] -> subscribers (brk s) !! ch = None ->
  exec (AUnsubscribe ch) s = Some s.
Proof.
  intros Hal Hd Hnone. unfold exec, write_free.
  rewrite Hal, Hd, bool_decide_eq_true_2 by done.
  rewrite Unsubscribe_absent by done. destruct s; simpl in *. by subst.
Qed.

Lemma exec_unsubscribe_free (s s1 : System) (ch : chan) :
  exec (AUnsubscribe ch) s = Some s1 -> diffs s = [].
Proof.
  unfold exec, write_free. destruct (panicked s); [discriminate|].
  destruct (bool_decide _) eqn:E; [|discriminate]. intros _.
  by apply bool_decide_eq_true in E.
Qed.

(** No hand-over and no second close ever reaches a closed channel, and a
    closed channel is never in the subscriber map again. *)
Lemma closed_for_good (s s' : System) (tr : list action) (c : chan) :
  inv s -> is_closed (chs s) c -> run tr s = Some s' ->
  panicked s' = false /\ chs s' !! c = chs s !! c /\
  subscribers (brk s') !! c = None.
Proof.
  intros Hinv Hc Hrun. destruct (run_steps tr s s' Hinv Hrun) as [Hinv' Hfr].
  split; [apply (inv_alive s' Hinv')|]. split; [by apply Hfr|].
  destruct (subscribers (brk s') !! c) as [f|] eqn:E; [|reflexivity].
  destruct (inv_subs s' Hinv' c f E) as (_ & Ho & _). exfalso.
  eapply open_not_closed; [exact Ho|]. eapply is_closed_frozen; eauto.
Qed.

(** C7. [Unsubscribe] twice on a channel is [Unsubscribe] once, from every
    state of the broker and its channels; in a state the broker can get
    into it does not panic, and a second call changes nothing; and once it
    has removed a channel, the channel is closed, out of the map, and
    nothing the broker does later, a [diff] least of all, hands anything
    over on it or closes it again. *)
Theorem unsubscribe_idempotent_terminal :
  (forall (ch : chan) (bc : Broker * list channel),
     (Unsubscribe ch bc ≫= Unsubscribe ch) = Unsubscribe ch bc) /\
  (forall (s s1 : System) (ch : chan),
     reachable s -> exec (AUnsubscribe ch) s = Some s1 ->
     panicked s1 = false /\
     exec (AUnsubscribe ch) s1 = Some s1 /\
     (is_Some (subscribers (brk s) !! ch) ->
        is_closed (chs s1) ch /\ subscribers (brk s1) !! ch = None /\
        log (chs s1) ch = log (chs s) ch /\
        forall tr s2, run tr s1 = Some s2 ->
          panicked s2 = false /\ chs s2 !! ch = chs s1 !! ch /\
          subscribers (brk s2) !! ch = None)).
Proof.
  split.
  - intros ch [b cs].
    destruct (Unsubscribe ch (b, cs)) as [[b' cs']| |] eqn:HU;
      cbn [mbind outcome_bind]; try reflexivity.
    apply Unsubscribe_absent. cbn [fst].
    unfold Unsubscribe in HU. cbn [fst snd] in HU.
    destruct (subscribers b !! ch) eqn:E.
    + destruct (close ch cs); cbn in HU; try discriminate.
      injection HU as <- <-. apply lookup_delete_eq.
    + injection HU as <- <-. exact E.
  - intros s s1 ch Hre Hex. pose proof (reachable_inv s Hre) as Hinv.
    pose proof (exec_unsubscribe_free s s1 ch Hex) as Hd.
    destruct (exec_step _ s s1 Hinv Hex) as (Hinv1 & _).
    destruct (subscribers (brk s) !! ch) as [f|] eqn:E.
    + destruct (exec_unsubscribe_present s ch Hinv Hd) as (c & Hl & Hc & Hex'); [eauto|].
      rewrite Hex' in Hex. injection Hex as <-.
      assert (Hclosed : is_closed
                (<[ch := {| closed := true; delivered := delivered c |}]> (chs s)) ch).
      { eexists. split; [apply list_lookup_insert_eq; eapply lookup_lt_Some, Hl|].
        reflexivity. }
      split; [reflexivity|]. split.
      { apply exec_unsubscribe_absent; [reflexivity|exact Hd|apply lookup_delete_eq]. }
      intros _. split; [exact Hclosed|]. split; [apply lookup_delete_eq|]. split.
      { cbn [chs]. rewrite log_insert_eq by (eapply lookup_lt_Some, Hl).
        by rewrite (log_lookup _ _ _ Hl). }
      intros tr s2 Hrun. eapply closed_for_good; eauto.
    + rewrite exec_unsubscribe_absent in Hex by (done || apply (inv_alive s Hinv)).
      injection Hex as <-. split; [apply (inv_alive s Hinv)|]. split.
      { by apply exec_unsubscribe_absent; [apply (inv_alive s Hinv)|..]. }
      intros [? ?]. discriminate.
Qed.

Lemma unsubscribe_idempotent_terminal_witness :
  let s := after [AFull msg_a 1; ASubscribe; AGoRLock 0; AGoTouch 0; AGoEmit 0;
                  AGoSend 0; AGoRegister 0] in
  let s1 := after [AFull msg_a 1; ASubscribe; AGoRLock 0; AGoTouch 0; AGoEmit 0;
                   AGoSend 0; AGoRegister 0; AUnsubscribe 0] in
  panicked s1 = false /\ exec (AUnsubscribe 0) s1 = Some s1 /\ is_closed (chs s1) 0.
Proof.
  intros s s1.
  destruct (proj2 unsubscribe_idempotent_terminal s s1 0%nat) as (H1 & H2 & H3).
  - apply after_reachable. vm_compute. eauto.
  - vm_compute. reflexivity.
  - split; [exact H1|]. split; [exact H2|]. apply H3. vm_compute. eauto.
Defined.

Lemma exec_rm_unsubscribe_present (s : System) (i : nat) (ch : chan) (rest : list chan) :
  inv s -> diffs s = [] -> removers s !! i = Some (RmLoop (ch :: rest)) ->
  is_Some (subscribers (brk s) !! ch) ->
  exists c, chs s !! ch = Some c /\ closed c = false /\
    exec (ARmUnsubscribe i) s =
      Some (mkSystem {| topic := topic (brk s); state := state (brk s);
                        subscribers := delete ch (subscribers (brk s));
                        updated := updated (brk s) |}
              (<[ch := {| closed := true; delivered := delivered c |}]> (chs s))
              (gos s) (diffs s) (<[i := RmLoop rest]> (removers s)) false).
Proof.
  intros Hinv Hd Hi [f Hf]. destruct (inv_subs s Hinv ch f Hf) as (_ & Ho & _).
  destruct (Unsubscribe_present ch (brk s) (chs s)) as (c & Hl & Hc & HU); [eauto|done|].
  exists c. split; [exact Hl|]. split; [exact Hc|].
  unfold exec, write_free.
  rewrite (inv_alive s Hinv), Hi, Hd, bool_decide_eq_true_2 by done.
  rewrite HU. reflexivity.
Qed.




(** C9. [full] stores the message and sets the time stamp in one step, under
    the write lock; [diff] returns the broker as it was, so the state store
    and the time stamp stay as they are; and of all the steps the broker
    takes, only a [full] changes either. *)
Theorem full_refreshes_diff_does_not :
  (forall (msg : Message) (now : Z) (b : Broker) (r : ringBuffer),
     state b = Some r ->
     full msg now b =
       Done {| topic := topic b; state := Some (put msg r);
               subscribers := subscribers b; updated := now |}) /\
  (forall (msg : Message) (bc bc' : Broker * list channel),
     diff msg bc = Done bc' -> bc'.1 = bc.1) /\
  (forall (s s' : System) (a : action),
     reachable s -> exec a s = Some s' ->
     (is_diff_action a = true ->
        state (brk s') = state (brk s) /\ updated (brk s') = updated (brk s)) /\
     ((updated (brk s') = updated (brk s) /\ state (brk s') = state (brk s)) \/
      exists msg now r, a = AFull msg now /\ state (brk s) = Some r /\
        state (brk s') = Some (put msg r) /\ updated (brk s') = now)).
Proof.
  split; [|split].
  - intros msg now b r Hr. unfold full, the_state. rewrite Hr. reflexivity.
  - intros msg bc bc' H. unfold diff in H.
    destruct (diff_over _ _ _); cbn in H; try discriminate. by injection H as <-.
  - intros s s' a Hre Hex. pose proof (reachable_inv s Hre) as Hinv.
    destruct (exec_step a s s' Hinv Hex) as (_ & _ & Hdiff & Hfull & _).
    split; [|exact Hfull]. intros Ha. rewrite (Hdiff Ha). auto.
Qed.

Lemma full_refreshes_diff_does_not_witness :
  full msg_a 5 (NewFullDiffBroker "t1" 0) =
    Done {| topic := "t1"; state := Some (put msg_a (newRingBuffer 1));
            subscribers := ∅; updated := 5 |}.
Proof.
  apply (proj1 full_refreshes_diff_does_not msg_a 5 (NewFullDiffBroker "t1" 0)
           (newRingBuffer 1)).
  reflexivity.
Defined.

(** ** The sweep and a goroutine that waits *)

Lemma remove_unlocked_lookup (s : System) (i : nat) (l : list chan) :
  remove_unlocked s = true -> removers s !! i = Some (RmLoop l) -> False.
Proof.
  unfold remove_unlocked. generalize (removers s). intros rs. revert i.
  induction rs as [|r rs IH]; intros i H Hi; [by destruct i|].
  cbn in H. apply andb_true_iff in H as [Hr Hrs].
  destruct i as [|i]; [injection Hi as ->; discriminate|]. eapply IH; eauto.
Qed.

(** While nothing has been stored and a goroutine of [Subscribe] waits in
    [waitTouch], holding the read side of [removeLock], a step other than a
    [full] leaves it there, and no [removeSubscribers] gets past
    [removeLock.Lock()]. *)
Lemma parked_step (a : action) (s s' : System) (r : ringBuffer) (ch : chan) :
  inv s -> exec a s = Some s' -> (forall msg now, a <> AFull msg now) ->
  state (brk s) = Some r -> touched r = false ->
  gos s !! ch = Some GoWait -> remove_unlocked s = true ->
  state (brk s') = Some r /\ gos s' !! ch = Some GoWait /\
  remove_unlocked s' = true.
Proof.
  intros Hinv Hex Hnf Hr Hun Hg Hrm.
  destruct (exec_step a s s' Hinv Hex) as (_ & _ & _ & Hfull & _).
  destruct Hfull as [[_ Hst] | (msg & now & r0 & -> & _)]; [|by destruct (Hnf msg now)].
  split; [by rewrite Hst|].
  pose proof (inv_alive _ Hinv) as Hal.
  unfold exec in Hex. rewrite Hal in Hex.
  assert (Hset : forall c g, c <> ch -> <[c := g]> (gos s) !! ch = Some GoWait).
  { intros c g Hne. by rewrite lookup_insert_ne. }
  destruct a.
  - unfold Subscribe, make_chan in Hex. cbn [fst snd] in Hex.
    rewrite bool_decide_eq_true_2 in Hex by apply (inv_state _ Hinv).
    injection Hex as <-. cbn [gos removers]. split; [|exact Hrm].
    apply Hset. pose proof (inv_made s Hinv ch _ Hg). lia.
  - destruct (gos s !! ch0) as [[]|] eqn:Hg0; try discriminate.
    rewrite Hrm in Hex. injection Hex as <-.
    cbn [gos set_go]. split; [|exact Hrm].
    apply Hset. intros ->. rewrite Hg in Hg0. discriminate.
  - destruct (gos s !! ch0) as [[]|] eqn:Hg0; try discriminate.
    rewrite Hr in Hex. unfold waitTouch in Hex. rewrite Hun in Hex. discriminate.
  - destruct (gos s !! ch0) as [[]|] eqn:Hg0; try discriminate.
    rewrite Hr in Hex. injection Hex as <-. cbn [gos set_go]. split; [|exact Hrm].
    apply Hset. intros ->. rewrite Hg in Hg0. discriminate.
  - destruct (gos s !! ch0) as [[| | |[|msg rest]|]|] eqn:Hg0; try discriminate.
    destruct (send Backlog msg ch0 (chs s)); cbn in Hex; [| |discriminate];
      injection Hex as <-; cbn [gos crash removers]; split; try exact Hrm; try exact Hg.
    apply Hset. intros ->. rewrite Hg in Hg0. discriminate.
  - destruct (gos s !! ch0) as [[| | |[|msg rest]|]|] eqn:Hg0; try discriminate.
    destruct (write_free s); [|discriminate]. injection Hex as <-.
    cbn [gos removers]. split; [|exact Hrm].
    apply Hset. intros ->. rewrite Hg in Hg0. discriminate.
  - by destruct (Hnf msg now).
  - destruct (bool_decide _); [|discriminate]. injection Hex as <-. by split.
  - destruct (diffs s !! i) as [[msg [|e rest]]|] eqn:Hi; try discriminate.
    destruct (diff_one msg e (chs s)); cbn in Hex; [| |discriminate];
      injection Hex as <-; by split.
  - destruct (diffs s !! i) as [[msg [|e rest]]|] eqn:Hi; try discriminate.
    injection Hex as <-. by split.
  - destruct (write_free s); [|discriminate].
    destruct (Unsubscribe ch0 (brk s, chs s)); cbn in Hex; [| |discriminate];
      injection Hex as <-; by split.
  - destruct (_ && _); [|discriminate]. injection Hex as <-.
    cbn [gos]. split; [exact Hg|]. unfold remove_unlocked. cbn [removers].
    rewrite forallb_app. fold (remove_unlocked s). rewrite Hrm. reflexivity.
  - destruct (removers s !! i) as [[l|l]|]; try discriminate.
    destruct (no_handshake s) eqn:Hnh; [|by rewrite andb_false_r in Hex].
    exfalso. unfold no_handshake in Hnh. apply bool_decide_eq_true_1 in Hnh.
    destruct (Hnh ch _ Hg); discriminate.
  - destruct (removers s !! i) as [[l|[|c rest]]|] eqn:Hi; try discriminate.
    destruct (remove_unlocked_lookup s i _ Hrm Hi).
  - destruct (removers s !! i) as [[l|[|c rest]]|] eqn:Hi; try discriminate.
    destruct (remove_unlocked_lookup s i _ Hrm Hi).
Qed.

Lemma parked_run (tr : list action) (s s' : System) (r : ringBuffer) (ch : chan) :
  inv s -> run tr s = Some s' ->
  (forall msg now, AFull msg now ∉ tr) ->
  state (brk s) = Some r -> touched r = false ->
  gos s !! ch = Some GoWait -> remove_unlocked s = true ->
  state (brk s') = Some r /\ gos s' !! ch = Some GoWait /\
  remove_unlocked s' = true /\ is_open (chs s') ch.
Proof.
  revert s. induction tr as [|a tr IH]; intros s Hinv Hrun Hnf Hr Hun Hg Hrm.
  - injection Hrun as <-. do 3 (split; [assumption|]).
    by destruct (inv_gos s Hinv ch _ Hg).
  - cbn [run] in Hrun. destruct (exec a s) as [s1|] eqn:Hex; [|discriminate].
    cbn in Hrun. destruct (exec_step a s s1 Hinv Hex) as (Hinv1 & _).
    destruct (parked_step a s s1 r ch Hinv Hex) as (Hr1 & Hg1 & Hrm1); auto.
    { intros msg now ->. apply (Hnf msg now). by left. }
    apply (IH s1); auto. intros msg now Hin. apply (Hnf msg now). by right.
Qed.


End interleavingTheorems.

(** * More on the envelope: URI, constructors, cache and wire *)

Module AmpExtras.
Import Amp AmpFacts SampleCodecs.

Lemma SplitN2_slash_spec (s : string) :
  if Contains_slash s
  then exists a b, SplitN2_slash s = (a, Some b) /\ s = a +:+ String slash b /\
         Contains_slash a = false
  else SplitN2_slash s = (s, None).
Proof.
  induction s as [|c s IH]; simpl; [reflexivity|].
  destruct (decide (c = slash)) as [->|Hne].
  - exists EmptyString, s. auto.
  - destruct (Contains_slash s).
    + destruct IH as (a & b & -> & -> & Ha). exists (String c a), b. simpl.
      rewrite decide_False by done. auto.
    + rewrite IH. reflexivity.
Qed.

Lemma SplitN2_slash_join (a b : string) :
  Contains_slash a = false ->
  Contains_slash (a +:+ String slash b) = true /\
  SplitN2_slash (a +:+ String slash b) = (a, Some b).
Proof.
  induction a as [|c a IH]; simpl.
  - intros _. auto.
  - destruct (decide (c = slash)); [discriminate|]. intros Ha.
    destruct (IH Ha) as [-> ->]. auto.
Qed.

Lemma Topic_no_slash (m : Msg) :
  topic m = EmptyString -> Contains_slash (Topic m).2 = false.
Proof.
  intros Hmemo. unfold Topic. destruct (decide _) as [_|Hn]; [|done]. cbn [snd].
  pose proof (SplitN2_slash_spec (URI (hdr m))) as Hs.
  destruct (Contains_slash (URI (hdr m))) eqn:Hc; [|exact Hc].
  destruct Hs as (a & b & -> & _ & Ha). exact Ha.
Qed.

(** X1. The URI of an envelope splits into topic and path at the first
    "/": the topic has no "/", with a "/" in the URI the URI is topic, "/"
    and path, and without one the topic is the URI and the path is empty.
    Asking for the topic again gives the same answer and the same envelope. *)
Theorem uri_topic_path (m : Msg) :
  topic m = EmptyString ->
  Contains_slash (Topic m).2 = false /\
  URI (hdr m) = (if Contains_slash (URI (hdr m))
                 then (Topic m).2 +:+ String slash (Path m)
                 else (Topic m).2) /\
  (Contains_slash (URI (hdr m)) = false -> Path m = EmptyString) /\
  Topic (Topic m).1 = Topic m /\
  Path (Topic m).1 = Path m.
Proof.
  intros Hmemo. split; [by apply Topic_no_slash|].
  unfold Topic, Path. destruct (decide (topic m = EmptyString)) as [_|Hn]; [|done].
  cbn [fst snd hdr topic].
  pose proof (SplitN2_slash_spec (URI (hdr m))) as Hs.
  destruct (Contains_slash (URI (hdr m))) eqn:Hc.
  - destruct Hs as (a & b & Hsplit & Huri & Ha). rewrite Hsplit. cbn [fst snd].
    split; [exact Huri|]. split; [discriminate|].
    split; [|reflexivity].
    destruct (decide (a = EmptyString)) as [->|Hne]; [|reflexivity].
    reflexivity.
  - split; [reflexivity|]. split; [reflexivity|].
    split; [|reflexivity].
    destruct (decide (URI (hdr m) = EmptyString)) as [He|Hne]; reflexivity.
Qed.

Lemma uri_topic_path_witness :
  let m := fresh_msg (mkHeader Publish EmptyString 0 EmptyString 0 "math.v1/i/x"
                        0 Full 0 None) None in
  (Topic m).2 = "math.v1"%string /\ Path m = "i/x"%string /\
  Contains_slash (Topic m).2 = false.
Proof.
  intros m. split; [reflexivity|]. split; [reflexivity|].
  apply (uri_topic_path m). reflexivity.
Defined.

Lemma Contains_slash_empty_topic (tp : string) :
  tp = EmptyString -> Contains_slash tp = false.
Proof. by intros ->. Qed.

(** X2. [NewPublish] and the URI agree when the topic has no "/": the
    sender's [Topic] and [Path] are the two arguments, and so are those of
    any envelope with the same URI, such as the one the receiver parses.
    With a "/" in the topic they do not: the sender still answers with the
    topic it was given, the receiver with a topic that has no "/". *)
Theorem publish_topic_path (tp pa : string) (ts ut : Z) (o : list byte) :
  (Contains_slash tp = false ->
     (Topic (NewPublish tp pa ts ut o)).2 = tp /\
     Path (NewPublish tp pa ts ut o) = pa /\
     forall m, URI (hdr m) = URI (hdr (NewPublish tp pa ts ut o)) ->
       topic m = EmptyString -> (Topic m).2 = tp /\ Path m = pa) /\
  (Contains_slash tp = true ->
     (Topic (NewPublish tp pa ts ut o)).2 = tp /\
     forall m, URI (hdr m) = URI (hdr (NewPublish tp pa ts ut o)) ->
       topic m = EmptyString -> (Topic m).2 <> tp).
Proof.
  split.
  - intros Htp.
    assert (Hrecv : forall m, URI (hdr m) = URI (hdr (NewPublish tp pa ts ut o)) ->
              Path m = pa /\ (topic m = EmptyString -> (Topic m).2 = tp)).
    { intros m Huri. unfold Topic, Path. rewrite Huri. cbn [NewPublish envelope hdr URI].
      destruct (decide (pa = EmptyString)) as [->|Hpa].
      - rewrite Htp. split; [reflexivity|]. intros Hm.
        by destruct (decide (topic m = EmptyString)).
      - destruct (SplitN2_slash_join tp pa Htp) as [-> ->]. split; [reflexivity|].
        intros Hm. by destruct (decide (topic m = EmptyString)). }
    destruct (Hrecv (NewPublish tp pa ts ut o) eq_refl) as [Hpath Htopic].
    split; [|split; [exact Hpath|]].
    + destruct (decide (tp = EmptyString)) as [He|Hne]; [by apply Htopic; rewrite He|].
      unfold Topic. cbn [NewPublish envelope topic].
      by destruct (decide (tp = EmptyString)).
    + intros m Huri Hmemo. destruct (Hrecv m Huri). auto.
  - intros Htp. split.
    + unfold Topic. cbn [NewPublish envelope topic].
      destruct (decide (tp = EmptyString)) as [->|_]; [discriminate|reflexivity].
    + intros m Huri Hmemo Heq.
      pose proof (Topic_no_slash m Hmemo) as Hno. rewrite Heq in Hno. congruence.
Qed.

Lemma publish_topic_path_witness :
  (Topic (NewPublish "math.v1" "i" 7 Full [x31])).2 = "math.v1"%string /\
  Path (NewPublish "math.v1" "i" 7 Full [x31]) = "i"%string.
Proof.
  destruct (proj1 (publish_topic_path "math.v1" "i" 7 Full [x31]) eq_refl)
    as (H1 & H2 & _).
  split; assumption.
Defined.

Section Wire.
Context {C : Codecs}.

Lemma marshals_coherent (ss : list Z) (m : Msg) :
  coherent m -> coherent (marshals m ss).
Proof.
  revert m. induction ss as [|s ss IH]; intros m H; simpl; [exact H|].
  apply IH, marshal_coherent, H.
Qed.

Lemma payload_marshals (ss : list Z) (m : Msg) : payload (marshals m ss) = payload m.
Proof.
  revert m. induction ss as [|s ss IH]; intros m; simpl; [reflexivity|].
  rewrite IH. apply payload_marshal.
Qed.

(** On envelopes in agreement with their cache, what [marshal] returns
    depends on the payload and the mode only. *)
Lemma marshal_determined (m m' : Msg) (s : Z) :
  coherent m -> coherent m' -> payload m' = payload m ->
  s = CompressionNone \/ s = CompressionDeflate ->
  (marshal m' s).1.2 = (marshal m s).1.2 /\ (marshal m' s).2 = (marshal m s).2.
Proof.
  intros Hm Hm' Hp Hs.
  destruct (marshal_result m s Hm Hs) as [(Hf & Hb & Hc) | (Hf & Hb & Hd & Hge)];
  destruct (marshal_result m' s Hm' Hs) as [(Hf' & Hb' & Hc') | (Hf' & Hb' & Hd' & Hge')];
    rewrite ?Hp in *; rewrite Hf, Hb, Hf', Hb'; try done.
  all: exfalso; first [destruct Hc as [->|Hlt] | destruct Hc' as [->|Hlt]];
    [discriminate|lia].
Qed.

Lemma envelope_coherent (h : Header) (b s : option (list byte)) (tp pa : string) :
  coherent (envelope h b s tp pa).
Proof.
  unfold coherent, envelope; simpl. split; [|split]; discriminate.
Qed.

Lemma parse_payload_exact (m : Msg) :
  json_faithful (hdr m) ->
  Parse (payload m) =
    Some (fresh_msg (hdr m) (Some (default [] (body m) ++ default [] (src m)))).
Proof.
  intros [Hjson Hnl]. unfold Parse, payload, separtor. simpl.
  rewrite SplitN2_header by exact Hnl. simpl. rewrite Hjson. reflexivity.
Qed.

Lemma parse_marshal_exact (m : Msg) (s : Z) :
  s = CompressionNone \/ s = CompressionDeflate ->
  coherent m -> json_faithful (hdr m) ->
  (s = CompressionDeflate -> flate_faithful (payload m)) ->
  Parse (received (marshal m s).1.2 (marshal m s).2) =
    Some (fresh_msg (hdr m) (Some (default [] (body m) ++ default [] (src m)))).
Proof.
  intros Hs Hco Hjson Hflate.
  destruct (marshal_result m s Hco Hs) as [(Hf & Hp & _) | (Hf & Hp & Hd & _)];
    rewrite Hf, Hp; unfold received.
  - by apply parse_payload_exact.
  - destruct (Hflate Hd) as (Hrt & Hlen & Htail).
    rewrite Undeflate_deflate by assumption. by apply parse_payload_exact.
Qed.

(** The bytes before the first newline and what follows it. *)
Lemma SplitN2_shapes (buf : list byte) :
  ((x0a ∉ buf) /\ SplitN2 buf = (buf, None)) \/
  (exists h rest, buf = h ++ x0a :: rest /\ (x0a ∉ h) /\ SplitN2 buf = (h, Some rest)).
Proof.
  induction buf as [|b buf IH].
  - left. split; [apply not_elem_of_nil|reflexivity].
  - simpl. destruct (Byte.eqb b x0a) eqn:E.
    + apply Byte.byte_dec_bl in E as ->. right. exists [], buf.
      split; [reflexivity|]. split; [apply not_elem_of_nil|reflexivity].
    + assert (b <> x0a) as Hne.
      { intros ->. by rewrite Byte.byte_dec_lb in E. }
      destruct IH as [[Hn ->] | (h & rest & -> & Hn & ->)].
      * left. split; [|reflexivity]. apply not_elem_of_cons. auto.
      * right. exists (b :: h), rest. split; [reflexivity|].
        split; [|reflexivity]. apply not_elem_of_cons. auto.
Qed.

End Wire.

(** X3. The payload cache cannot be seen from outside: on an envelope in
    agreement with its cache, a marshal (plain or deflate) returns the same
    bytes and the same flag whatever marshals came before it, and [Marshal]
    always returns the plain payload. *)
Theorem marshal_cache_transparent (C : Codecs) (m : Msg) (ss : list Z) (s : Z) :
  coherent m ->
  s = CompressionNone \/ s = CompressionDeflate ->
  (marshal (marshals m ss) s).1.2 = (marshal m s).1.2 /\
  (marshal (marshals m ss) s).2 = (marshal m s).2 /\
  (Marshal (marshals m ss)).2 = payload m.
Proof.
  intros Hco Hs.
  pose proof (marshals_coherent ss m Hco) as Hco'.
  pose proof (payload_marshals ss m) as Hp.
  destruct (marshal_determined m (marshals m ss) s Hco Hco' Hp Hs) as [H1 H2].
  split; [exact H1|]. split; [exact H2|].
  unfold Marshal. cbn [fst snd].
  destruct (marshal_result (marshals m ss) CompressionNone Hco' (or_introl eq_refl))
    as [(_ & Hb & _) | (_ & _ & Hd & _)]; [|discriminate].
  by rewrite Hb, Hp.
Qed.

Lemma marshal_cache_transparent_witness :
  let m := fresh_msg zero_header (Some (body_of_len 9000)) in
  (Marshal (C:=sample)
     (marshals (C:=sample) m [CompressionDeflate; CompressionNone; CompressionDeflate])).2
  = payload (C:=sample) m.
Proof.
  intros m.
  apply (marshal_cache_transparent sample m
           [CompressionDeflate; CompressionNone; CompressionDeflate] CompressionNone).
  - apply fresh_coherent.
  - left; reflexivity.
Defined.

(** X4. [Parse] reads the header from the bytes before the first newline
    and nothing else: a buffer without a newline gives an envelope with no
    body, a buffer with one gives as body everything after the first
    newline, later newlines included, and in both cases the result is nil
    exactly when the header does not decode.  Every buffer is of one of the
    two shapes. *)
Theorem Parse_shapes (C : Codecs) (buf : list byte) :
  ((x0a ∉ buf) /\
   Parse buf = (fun h => fresh_msg h None) <$> json_unmarshal buf) \/
  (exists h rest, buf = h ++ x0a :: rest /\ (x0a ∉ h) /\
   Parse buf = (fun hd => fresh_msg hd (Some rest)) <$> json_unmarshal h).
Proof.
  destruct (SplitN2_shapes buf) as [[Hn Hs] | (h & rest & Hb & Hn & Hs)].
  - left. split; [exact Hn|]. unfold Parse. rewrite Hs. cbn [fst snd].
    by destruct (json_unmarshal buf).
  - right. exists h, rest. split; [exact Hb|]. split; [exact Hn|].
    unfold Parse. rewrite Hs. cbn [fst snd]. by destruct (json_unmarshal h).
Qed.

(** X5. What the receiver parses, from a plain or a deflated marshal, is
    the header with one body: the raw body followed by what the source
    object marshals to.  Nothing else of the sender's envelope (cache, memo
    flag, kept topic) comes across. *)
Theorem wire_roundtrip_with_source (C : Codecs) (m : Msg) (s : Z) :
  s = CompressionNone \/ s = CompressionDeflate ->
  coherent m ->
  json_faithful (hdr m) ->
  (s = CompressionDeflate -> flate_faithful (payload m)) ->
  Parse (received (marshal m s).1.2 (marshal m s).2) =
    Some (fresh_msg (hdr m) (Some (default [] (body m) ++ default [] (src m)))).
Proof. apply parse_marshal_exact. Qed.

Lemma wire_roundtrip_with_source_witness :
  let m := envelope zero_header (Some [x61]) (Some (body_of_len 9000))
             EmptyString EmptyString in
  Parse (C:=sample)
    (received (C:=sample) (marshal (C:=sample) m CompressionDeflate).1.2
                          (marshal (C:=sample) m CompressionDeflate).2)
  = Some (fresh_msg zero_header (Some (x61 :: body_of_len 9000))).
Proof.
  intros m. apply (wire_roundtrip_with_source sample m CompressionDeflate).
  - right; reflexivity.
  - apply envelope_coherent.
  - split; [reflexivity|]. apply (bool_decide_unpack _). vm_compute. exact I.
  - intros _. split; [|split]; vm_compute; first [reflexivity | lia].
Defined.

(** X6. A response finds its request across the wire: the envelope a peer
    parses from a marshalled [Request] carries the correlation id and the
    URI of the original, and both kinds of response built from it carry that
    correlation id and the type [Response]; the transport-error response
    has the fixed error text and the code -128. *)
Theorem response_pairs_request (C : Codecs) (m : Msg) (s : Z) (b : option (list byte)) :
  s = CompressionNone \/ s = CompressionDeflate ->
  json_faithful (hdr (Msg_Request m)) ->
  (s = CompressionDeflate -> flate_faithful (payload (Msg_Request m))) ->
  exists p,
    Parse (received (marshal (Msg_Request m) s).1.2 (marshal (Msg_Request m) s).2)
      = Some p /\
    Type_ (hdr p) = Request /\
    CorrelationID (hdr p) = CorrelationID (hdr m) /\
    URI (hdr p) = URI (hdr m) /\
    body_bytes p = default [] (body m) ++ default [] (src m) /\
    Type_ (hdr (Msg_Response p b)) = Response /\
    CorrelationID (hdr (Msg_Response p b)) = CorrelationID (hdr m) /\
    Type_ (hdr (ResponseTransportError p)) = Response /\
    CorrelationID (hdr (ResponseTransportError p)) = CorrelationID (hdr m) /\
    Error (hdr (ResponseTransportError p)) = "transport error"%string /\
    ErrorCode (hdr (ResponseTransportError p)) = -128.
Proof.
  intros Hs Hjson Hflate. eexists. split.
  - apply parse_marshal_exact; [exact Hs|apply envelope_coherent|exact Hjson|exact Hflate].
  - repeat split; reflexivity.
Qed.

Lemma response_pairs_request_witness :
  let m := fresh_msg (mkHeader Publish EmptyString 42 EmptyString 0 "math.req/add"
                        0 0 0 None) (Some [x7b; x7d]) in
  let C := sample_for [hdr (Msg_Request m)] in
  exists p,
    Parse (C:=C)
      (received (C:=C) (marshal (C:=C) (Msg_Request m) CompressionNone).1.2
                       (marshal (C:=C) (Msg_Request m) CompressionNone).2) = Some p /\
    CorrelationID (hdr (Msg_Response p None)) = 42 /\
    CorrelationID (hdr (ResponseTransportError p)) = 42.
Proof.
  intros m C.
  destruct (response_pairs_request C m CompressionNone None)
    as (p & Hp & _ & _ & _ & _ & _ & H1 & _ & H2 & _).
  - left; reflexivity.
  - split; [vm_compute; reflexivity|].
    apply (bool_decide_unpack _). vm_compute. exact I.
  - discriminate.
  - exists p. auto.
Defined.

(** X7. A publish comes across whole: from a marshalled [NewPublish] with a
    topic without "/", the receiver parses an envelope of type [Publish]
    whose [Topic] and [Path] are the two arguments, whose body is what the
    body object marshals to, with the time stamp and the update type given,
    and which is not a replay. *)
Theorem publish_received (C : Codecs) (tp pa : string) (ts ut : Z) (o : list byte)
    (s : Z) :
  Contains_slash tp = false ->
  s = CompressionNone \/ s = CompressionDeflate ->
  json_faithful (hdr (NewPublish tp pa ts ut o)) ->
  (s = CompressionDeflate -> flate_faithful (payload (NewPublish tp pa ts ut o))) ->
  exists p,
    Parse (received (marshal (NewPublish tp pa ts ut o) s).1.2
                    (marshal (NewPublish tp pa ts ut o) s).2) = Some p /\
    Type_ (hdr p) = Publish /\
    (Topic p).2 = tp /\ Path p = pa /\
    body_bytes p = o /\
    Ts (hdr p) = ts /\ UpdateType (hdr p) = ut /\
    IsReplay p = false.
Proof.
  intros Htp Hs Hjson Hflate. eexists. split.
  - apply parse_marshal_exact; [exact Hs|apply envelope_coherent|exact Hjson|exact Hflate].
  - split; [reflexivity|].
    assert (Hrecv : forall m, URI (hdr m) = URI (hdr (NewPublish tp pa ts ut o)) ->
              topic m = EmptyString -> (Topic m).2 = tp /\ Path m = pa).
    { intros m Huri Hmemo. unfold Topic, Path. rewrite Huri.
      cbn [NewPublish envelope hdr URI].
      destruct (decide (topic m = EmptyString)) as [_|Hn]; [|done]. cbn [snd].
      destruct (decide (pa = EmptyString)) as [->|Hpa].
      - by rewrite Htp.
      - by destruct (SplitN2_slash_join tp pa Htp) as [-> ->]. }
    destruct (Hrecv (fresh_msg (hdr (NewPublish tp pa ts ut o))
                (Some (default [] (body (NewPublish tp pa ts ut o)) ++
                       default [] (src (NewPublish tp pa ts ut o)))))
                eq_refl eq_refl) as [Ht Hp].
    split; [exact Ht|]. split; [exact Hp|].
    split; [unfold body_bytes; simpl; reflexivity|].
    repeat split; reflexivity.
Qed.

Lemma publish_received_witness :
  let m := NewPublish "math.v1" "i" 1700000000123 Full [x7b; x7d] in
  let C := sample_for [hdr m] in
  exists p,
    Parse (C:=C)
      (received (C:=C) (marshal (C:=C) m CompressionNone).1.2
                       (marshal (C:=C) m CompressionNone).2) = Some p /\
    (Topic p).2 = "math.v1"%string /\ Path p = "i"%string /\
    body_bytes p = [x7b; x7d].
Proof.
  intros m C.
  destruct (publish_received C "math.v1" "i" 1700000000123 Full [x7b; x7d]
              CompressionNone)
    as (p & Hp & _ & Ht & Hpa & Hb & _).
  - reflexivity.
  - left; reflexivity.
  - split; [vm_compute; reflexivity|].
    apply (bool_decide_unpack _). vm_compute. exact I.
  - discriminate.
  - exists p. auto.
Defined.

(** X8. A replay is the original as the receiver sees it, marked: from a
    marshalled [AsReplay] the receiver parses an envelope that is a replay
    and has the type, URI (hence path), time stamp, update type and body of
    the original; reply topic, correlation id, error and subscriptions are
    not carried over.  Marking a replay again changes nothing. *)
Theorem replay_received (C : Codecs) (m : Msg) (s : Z) :
  s = CompressionNone \/ s = CompressionDeflate ->
  json_faithful (hdr (AsReplay m)) ->
  (s = CompressionDeflate -> flate_faithful (payload (AsReplay m))) ->
  exists p,
    Parse (received (marshal (AsReplay m) s).1.2 (marshal (AsReplay m) s).2) = Some p /\
    IsReplay p = true /\
    Type_ (hdr p) = Type_ (hdr m) /\ URI (hdr p) = URI (hdr m) /\
    Path p = Path m /\
    Ts (hdr p) = Ts (hdr m) /\ UpdateType (hdr p) = UpdateType (hdr m) /\
    body_bytes p = default [] (body m) ++ default [] (src m) /\
    ReplyTo (hdr p) = EmptyString /\ CorrelationID (hdr p) = 0 /\
    Error (hdr p) = EmptyString /\ ErrorCode (hdr p) = 0 /\
    Subscriptions (hdr p) = None /\
    AsReplay (AsReplay m) = AsReplay m.
Proof.
  intros Hs Hjson Hflate. eexists. split.
  - apply parse_marshal_exact; [exact Hs|apply envelope_coherent|exact Hjson|exact Hflate].
  - repeat split; reflexivity.
Qed.

Lemma replay_received_witness :
  let m := NewPublish "math.v1" "i" 1700000000123 Full [x7b; x7d] in
  let C := sample_for [hdr (AsReplay m)] in
  exists p,
    Parse (C:=C)
      (received (C:=C) (marshal (C:=C) (AsReplay m) CompressionNone).1.2
                       (marshal (C:=C) (AsReplay m) CompressionNone).2) = Some p /\
    IsReplay p = true /\ Path p = "i"%string.
Proof.
  intros m C.
  destruct (replay_received C m CompressionNone) as (p & Hp & Hr & _ & _ & Hpa & _).
  - left; reflexivity.
  - split; [vm_compute; reflexivity|].
    apply (bool_decide_unpack _). vm_compute. exact I.
  - discriminate.
  - exists p. split; [exact Hp|]. split; [exact Hr|]. rewrite Hpa. reflexivity.
Defined.

End AmpExtras.

(** * More on the broker: fan-out, removal, the sweep, the package calls *)

Module brokerExtras.
Import broker brokerFacts interleavingFacts.

(** ** Fan-out *)

Lemma diff_over_cons (c0 : chan) (f0 : bool) (order : list (chan * bool))
    (msg : Message) (cs : list channel) :
  diff_over ((c0, f0) :: order) msg cs =
    (if f0 then send Live msg c0 cs else Done cs) ≫= diff_over order msg.
Proof. reflexivity. Qed.

Lemma diff_over_exact (order : list (chan * bool)) (msg : Message) (cs : list channel) :
  NoDup order.*1 ->
  (forall c, (c, true) ∈ order -> is_open cs c) ->
  exists cs', diff_over order msg cs = Done cs' /\
    forall c, cs' !! c =
      if decide ((c, true) ∈ order)
      then (fun ch => {| closed := false; delivered := delivered ch ++ [(Live, msg)] |})
             <$> cs !! c
      else cs !! c.
Proof.
  revert cs. induction order as [|[c0 f0] order IH]; intros cs Hnd Hopen.
  - exists cs. split; [reflexivity|]. intros c.
    rewrite decide_False; [reflexivity|apply not_elem_of_nil].
  - cbn [fmap list_fmap fst] in Hnd. apply NoDup_cons in Hnd as [Hc0 Hnd].
    rewrite diff_over_cons.
    destruct f0.
    + destruct (send_open Live msg c0 cs) as (ch0 & Hl & Hcl & Hsend);
        [apply Hopen; left|].
      rewrite Hsend. cbn [mbind outcome_bind].
      destruct (IH (<[c0 := {| closed := false;
                               delivered := delivered ch0 ++ [(Live, msg)] |}]> cs) Hnd)
        as (cs' & Hrun & Hcs').
      { intros c Hc. apply is_open_sent, Hopen. by right. }
      exists cs'. split; [exact Hrun|]. intros c. rewrite Hcs'.
      destruct (decide (c = c0)) as [->|Hne].
      * rewrite decide_False.
        2:{ intros Hin. apply Hc0. apply list_elem_of_fmap. by exists (c0, true). }
        rewrite decide_True by left.
        rewrite list_lookup_insert_eq by (eapply lookup_lt_Some, Hl).
        by rewrite Hl.
      * rewrite list_lookup_insert_ne by done.
        destruct (decide ((c, true) ∈ order)) as [Hin|Hnin].
        -- rewrite decide_True by (by right). reflexivity.
        -- rewrite decide_False; [reflexivity|].
           intros Hin. apply elem_of_cons in Hin as [Heq|Hin]; [congruence|done].
    + cbn [mbind outcome_bind].
      destruct (IH cs Hnd) as (cs' & Hrun & Hcs').
      { intros c Hc. apply Hopen. by right. }
      exists cs'. split; [exact Hrun|]. intros c. rewrite Hcs'.
      destruct (decide ((c, true) ∈ order)) as [Hin|Hnin].
      * rewrite decide_True by (by right). reflexivity.
      * rewrite decide_False; [reflexivity|].
        intros Hin. apply elem_of_cons in Hin as [Heq|Hin]; [congruence|done].
Qed.

Lemma range_order (b : Broker) (order : list (chan * bool)) :
  order ≡ₚ map_to_list (subscribers b) ->
  NoDup order.*1 /\ forall c f, (c, f) ∈ order <-> subscribers b !! c = Some f.
Proof.
  intros Hperm. split.
  - rewrite Hperm. apply NoDup_fst_map_to_list.
  - intros c f. rewrite Hperm. apply elem_of_map_to_list.
Qed.

(** The hand-overs of a series of [diff] calls, each going over the
    subscriber map in an order of its own, every one of them taken. *)
Lemma diffs_over_flagged (b : Broker)
    (pubs : list (Message * list (chan * bool))) (cs : list channel) :
  (forall p, p ∈ pubs -> p.2 ≡ₚ map_to_list (subscribers b)) ->
  (forall c, subscribers b !! c = Some true -> is_open cs c) ->
  exists cs',
    for_each (fun p cs => diff_over p.2 p.1 cs) pubs cs = Done cs' /\
    (forall c, subscribers b !! c = Some true ->
       is_open cs' c /\
       log cs' c = log cs c ++ ((fun m => (Live, m)) <$> pubs.*1)) /\
    (forall c, subscribers b !! c <> Some true -> cs' !! c = cs !! c).
Proof.
  revert cs. induction pubs as [|[msg order] pubs IH]; intros cs Hperm Hopen.
  - exists cs. split; [reflexivity|]. split; [|done].
    intros c Hc. split; [by apply Hopen|]. cbn. by rewrite app_nil_r.
  - destruct (range_order b order) as [Hnd Hin]; [apply (Hperm (msg, order)); left|].
    destruct (diff_over_exact order msg cs Hnd) as (cs1 & Hrun1 & Hcs1).
    { intros c Hc. apply Hopen, Hin, Hc. }
    assert (Hflag : forall c, subscribers b !! c = Some true ->
              is_open cs1 c /\ log cs1 c = log cs c ++ [(Live, msg)]).
    { intros c Hc. destruct (Hopen c Hc) as (ch & Hl & Hcl).
      pose proof (Hcs1 c) as Hc1. rewrite decide_True in Hc1 by (by apply Hin).
      rewrite Hl in Hc1. cbn in Hc1. split.
      - eexists. split; [exact Hc1|reflexivity].
      - unfold log. by rewrite Hc1, Hl. }
    destruct (IH cs1) as (cs' & Hrun & Hyes & Hno).
    { intros p Hp. apply Hperm. by right. }
    { intros c Hc. by apply Hflag. }
    exists cs'. cbn [for_each fst snd]. rewrite Hrun1. cbn [mbind outcome_bind].
    split; [exact Hrun|]. split.
    + intros c Hc. destruct (Hyes c Hc) as [Ho Hlog]. split; [exact Ho|].
      rewrite Hlog. destruct (Hflag c Hc) as [_ ->].
      cbn [fmap list_fmap fst]. by rewrite <- (assoc app).
    + intros c Hc. rewrite (Hno c Hc). rewrite Hcs1.
      rewrite decide_False; [reflexivity|]. intros Hin'. by apply Hc, Hin.
Qed.

(** *** With the receiving side in view *)

Lemma send_to_reading (reading : chan -> bool) (o : origin) (msg : Message)
    (c : chan) (cs : list channel) :
  reading c = true -> send_to reading o msg c cs = send o msg c cs.
Proof. intros H. unfold send_to, send. by rewrite H. Qed.

Lemma send_to_unread (reading : chan -> bool) (o : origin) (msg : Message)
    (c : chan) (cs : list channel) :
  reading c = false -> is_open cs c -> send_to reading o msg c cs = Blocks.
Proof.
  intros H (ch & Hl & Hc). unfold send_to. by rewrite Hl, Hc, H.
Qed.

Lemma for_each_ext {A S : Type} (f g : A -> S -> outcome S) (l : list A) (s : S) :
  (forall x s, x ∈ l -> f x s = g x s) -> for_each f l s = for_each g l s.
Proof.
  revert s. induction l as [|x l IH]; intros s H; [reflexivity|].
  cbn [for_each]. rewrite (H x s) by left.
  destruct (g x s); cbn; try reflexivity. apply IH. intros y s' Hy. apply H. by right.
Qed.

Lemma diff_over_to_read (reading : chan -> bool) (order : list (chan * bool))
    (msg : Message) (cs : list channel) :
  (forall c, (c, true) ∈ order -> reading c = true) ->
  diff_over_to reading order msg cs = diff_over order msg cs.
Proof.
  intros H. unfold diff_over_to, diff_over. apply for_each_ext.
  intros [c f] cs0 Hin. unfold diff_one_to, diff_one. cbn [fst snd].
  destruct f; [|reflexivity]. apply send_to_reading, H, Hin.
Qed.

Lemma diff_over_to_cons (reading : chan -> bool) (c0 : chan) (f0 : bool)
    (order : list (chan * bool)) (msg : Message) (cs : list channel) :
  diff_over_to reading ((c0, f0) :: order) msg cs =
    (if f0 then send_to reading Live msg c0 cs else Done cs)
      ≫= diff_over_to reading order msg.
Proof. reflexivity. Qed.

(** A [diff] stalls at the first subscriber flagged true that nobody reads. *)
Lemma diff_over_to_stalls (reading : chan -> bool) (order : list (chan * bool))
    (msg : Message) (cs : list channel) (c : chan) :
  (forall c', (c', true) ∈ order -> is_open cs c') ->
  (c, true) ∈ order -> reading c = false ->
  diff_over_to reading order msg cs = Blocks.
Proof.
  revert cs. induction order as [|[c0 f0] order IH]; intros cs Hopen Hin Hr.
  - by apply elem_of_nil in Hin.
  - rewrite diff_over_to_cons. destruct f0.
    + destruct (reading c0) eqn:Hr0.
      * rewrite send_to_reading by exact Hr0.
        destruct (send_open Live msg c0 cs) as (ch0 & Hl & Hcl & Hsend);
          [apply Hopen; left|].
        rewrite Hsend. cbn [mbind outcome_bind]. apply IH; [| |exact Hr].
        -- intros c' Hc'. apply is_open_sent, Hopen. by right.
        -- apply elem_of_cons in Hin as [Heq|Hin]; [|exact Hin].
           injection Heq as ->. congruence.
      * rewrite send_to_unread; [reflexivity|exact Hr0|apply Hopen; left].
    + cbn [mbind outcome_bind]. apply IH; [| |exact Hr].
      * intros c' Hc'. apply Hopen. by right.
      * apply elem_of_cons in Hin as [Heq|Hin]; [discriminate|exact Hin].
Qed.

(** X9. A series of [diff] calls, each going over the subscriber map in an
    order of its own, with every channel flagged true in the map open.
    When the receiving side of each of those channels takes what it is
    handed, the calls return: every message has gone, in the order of the
    calls and once each, to every subscriber flagged true, and no other
    channel is touched, not the subscribers flagged false, not the channels
    of others.  When one of those channels is not read, the first call
    already blocks. *)
Theorem diffs_reach_flagged_in_order (reading : chan -> bool) (b : Broker)
    (pubs : list (Message * list (chan * bool))) (cs : list channel) :
  (forall p, p ∈ pubs -> p.2 ≡ₚ map_to_list (subscribers b)) ->
  (forall c, subscribers b !! c = Some true -> is_open cs c) ->
  ((forall c, subscribers b !! c = Some true -> reading c = true) ->
   exists cs',
     for_each (fun p cs => diff_over_to reading p.2 p.1 cs) pubs cs = Done cs' /\
     (forall c, subscribers b !! c = Some true ->
        is_open cs' c /\
        log cs' c = log cs c ++ ((fun m => (Live, m)) <$> pubs.*1)) /\
     (forall c, subscribers b !! c <> Some true -> cs' !! c = cs !! c)) /\
  (forall c, subscribers b !! c = Some true -> reading c = false -> pubs <> [] ->
   for_each (fun p cs => diff_over_to reading p.2 p.1 cs) pubs cs = Blocks).
Proof.
  intros Hperm Hopen. split.
  - intros Hread.
    rewrite (for_each_ext _ (fun p cs => diff_over p.2 p.1 cs)).
    + by apply (diffs_over_flagged b).
    + intros p cs0 Hp. apply diff_over_to_read. intros c Hc. apply Hread.
      by apply (range_order b p.2 (Hperm p Hp)).
  - intros c Hc Hr Hne. destruct pubs as [|p pubs]; [done|].
    cbn [for_each].
    destruct (range_order b p.2) as [_ Hin]; [apply Hperm; left|].
    rewrite (diff_over_to_stalls reading p.2 p.1 cs c); [reflexivity| |by apply Hin|exact Hr].
    intros c' Hc'. apply Hopen. by apply Hin.
Qed.

Lemma diffs_reach_flagged_in_order_witness :
  let b := {| topic := "t1"; state := Some (newRingBuffer 1);
              subscribers := {[ 0%nat := true ]}; updated := 0 |} in
  let ma := NewMessage "e" [x61] in
  let mb := NewMessage "e" [x62] in
  (exists cs',
     for_each (fun p cs => diff_over_to (fun _ => true) p.2 p.1 cs)
       [(ma, [(0%nat, true)]); (mb, [(0%nat, true)])]
       [{| closed := false; delivered := [] |}] = Done cs' /\
     log cs' 0 = [(Live, ma); (Live, mb)]) /\
  for_each (fun p cs => diff_over_to (fun _ => false) p.2 p.1 cs)
    [(ma, [(0%nat, true)]); (mb, [(0%nat, true)])]
    [{| closed := false; delivered := [] |}] = Blocks.
Proof.
  intros b ma mb.
  assert (Hperm : forall p : Message * list (chan * bool),
            p ∈ [(ma, [(0%nat, true)]); (mb, [(0%nat, true)])] ->
            p.2 ≡ₚ map_to_list (subscribers b)).
  { intros p Hp. subst b. cbn [subscribers]. rewrite map_to_list_singleton.
    apply elem_of_cons in Hp as [->|Hp]; [reflexivity|].
    apply list_elem_of_singleton in Hp as ->. reflexivity. }
  assert (Hopen : forall c, subscribers b !! c = Some true ->
            is_open [{| closed := false; delivered := [] |}] c).
  { intros c Hc. subst b. cbn [subscribers] in Hc.
    apply lookup_singleton_Some in Hc as [<- _]. eexists. split; reflexivity. }
  split.
  - destruct (diffs_reach_flagged_in_order (fun _ => true) b _ _ Hperm Hopen)
      as [Hret _].
    destruct Hret as (cs' & Hrun & Hyes & _); [reflexivity|].
    exists cs'. split; [exact Hrun|]. apply (Hyes 0%nat). reflexivity.
  - destruct (diffs_reach_flagged_in_order (fun _ => false) b _ _ Hperm Hopen)
      as [_ Hstall].
    apply (Hstall 0%nat); [reflexivity|reflexivity|discriminate].
Defined.



(** ** Removing all subscribers *)

Lemma close_not_open (c : chan) (cs : list channel) :
  ~ is_open cs c -> close c cs = Panics.
Proof.
  intros Hn. unfold close. destruct (cs !! c) as [ch|] eqn:Hl; [|reflexivity].
  destruct (closed ch) eqn:Hc; [reflexivity|]. exfalso. apply Hn. by exists ch.
Qed.

Lemma open_or_not (cs : list channel) (c : chan) : is_open cs c \/ ~ is_open cs c.
Proof.
  destruct (cs !! c) as [ch|] eqn:Hl.
  - destruct (closed ch) eqn:Hc.
    + right. intros (x & Hx & Hxo). congruence.
    + left. by exists ch.
  - right. intros (x & Hx & _). congruence.
Qed.

Lemma for_each_Unsubscribe_cons (k : chan) (ks : list chan) (bc : Broker * list channel) :
  for_each Unsubscribe (k :: ks) bc = Unsubscribe k bc ≫= for_each Unsubscribe ks.
Proof. reflexivity. Qed.

Lemma unsubscribe_each_exact (ks : list chan) (b : Broker) (cs : list channel) :
  NoDup ks ->
  (forall c, c ∈ ks -> is_Some (subscribers b !! c) /\ is_open cs c) ->
  exists b' cs',
    for_each Unsubscribe ks (b, cs) = Done (b', cs') /\
    topic b' = topic b /\ state b' = state b /\ updated b' = updated b /\
    (forall c, subscribers b' !! c =
               if decide (c ∈ ks) then None else subscribers b !! c) /\
    (forall c, cs' !! c =
               if decide (c ∈ ks)
               then (fun ch => {| closed := true; delivered := delivered ch |}) <$> cs !! c
               else cs !! c).
Proof.
  revert b cs. induction ks as [|k ks IH]; intros b cs Hnd Hin.
  - exists b, cs. cbn [for_each]. repeat split; try reflexivity.
    all: intros c; rewrite decide_False; [reflexivity|apply not_elem_of_nil].
  - apply NoDup_cons in Hnd as [Hk Hnd].
    destruct (Hin k) as [Hsome Hopen]; [left|].
    destruct (Unsubscribe_present k b cs Hsome Hopen) as (c0 & Hl & Hc0 & HU).
    rewrite for_each_Unsubscribe_cons, HU. cbn [mbind outcome_bind].
    destruct (IH {| topic := topic b; state := state b;
                    subscribers := delete k (subscribers b); updated := updated b |}
                (<[k := {| closed := true; delivered := delivered c0 |}]> cs) Hnd)
      as (b' & cs' & Hfor & Ht & Hs & Hu & Hsubs & Hcs).
    { intros c Hc. destruct (Hin c) as [Hs Ho]; [by right|].
      assert (k <> c) by (intros ->; done). split.
      - cbn [subscribers]. by rewrite lookup_delete_ne.
      - by apply is_open_insert_ne. }
    exists b', cs'. split; [exact Hfor|]. cbn in Ht, Hs, Hu.
    split; [exact Ht|]. split; [exact Hs|]. split; [exact Hu|]. split.
    + intros c. rewrite Hsubs. cbn [subscribers].
      destruct (decide (c ∈ ks)) as [Hc|Hc].
      * rewrite decide_True by (by right). reflexivity.
      * destruct (decide (c = k)) as [->|Hne].
        -- rewrite decide_True by left. apply lookup_delete_eq.
        -- rewrite decide_False by (apply not_elem_of_cons; done).
           by rewrite lookup_delete_ne.
    + intros c. rewrite Hcs.
      destruct (decide (c ∈ ks)) as [Hc|Hc].
      * rewrite decide_True by (by right).
        rewrite list_lookup_insert_ne; [reflexivity|]. intros ->. done.
      * destruct (decide (c = k)) as [->|Hne].
        -- rewrite decide_True by left.
           rewrite list_lookup_insert_eq by (eapply lookup_lt_Some, Hl).
           by rewrite Hl.
        -- rewrite decide_False by (apply not_elem_of_cons; done).
           by rewrite list_lookup_insert_ne.
Qed.

Lemma unsubscribe_each_panics (ks : list chan) (b : Broker) (cs : list channel)
    (c : chan) :
  NoDup ks ->
  (forall k, k ∈ ks -> is_Some (subscribers b !! k)) ->
  c ∈ ks -> ~ is_open cs c ->
  for_each Unsubscribe ks (b, cs) = Panics.
Proof.
  revert b cs. induction ks as [|k ks IH]; intros b cs Hnd Hin Hc Hbad.
  - by apply not_elem_of_nil in Hc.
  - apply NoDup_cons in Hnd as [Hk Hnd].
    rewrite for_each_Unsubscribe_cons.
    destruct (Hin k) as [f Hf]; [left|].
    destruct (open_or_not cs k) as [Hopen|Hnopen].
    + destruct (Unsubscribe_present k b cs) as (c0 & Hl & Hc0 & HU); [eauto|done|].
      rewrite HU. cbn [mbind outcome_bind].
      assert (c <> k) as Hne by (intros ->; done).
      apply IH; [exact Hnd| | |].
      * intros k' Hk'. cbn [subscribers]. rewrite lookup_delete_ne; [apply Hin; by right|].
        intros ->. done.
      * apply elem_of_cons in Hc as [->|Hc]; done.
      * intros (x & Hx & Hxo). apply Hbad. exists x.
        rewrite list_lookup_insert_ne in Hx by done. auto.
    + unfold Unsubscribe. cbn [fst snd]. rewrite Hf.
      by rewrite close_not_open.
Qed.

(** X11. [removeSubscribers] either clears the broker or panics: when every
    channel of the subscriber map is open it returns with the map empty,
    each of those channels closed with what was handed over on it kept, the
    other channels and the broker's topic, state store and time stamp as
    they were; when some channel of the map is closed already (or was never
    made) it panics. *)
Theorem removeSubscribers_clears_or_panics (b : Broker) (cs : list channel) :
  ((forall c, is_Some (subscribers b !! c) -> is_open cs c) ->
   exists b' cs',
     removeSubscribers (b, cs) = Done (b', cs') /\
     subscribers b' = ∅ /\
     topic b' = topic b /\ state b' = state b /\ updated b' = updated b /\
     forall c, cs' !! c =
       if decide (is_Some (subscribers b !! c))
       then (fun ch => {| closed := true; delivered := delivered ch |}) <$> cs !! c
       else cs !! c) /\
  (forall c, is_Some (subscribers b !! c) -> ~ is_open cs c ->
   removeSubscribers (b, cs) = Panics).
Proof.
  unfold removeSubscribers, activeSubscribers. cbn [fst]. split.
  - intros Hopen.
    destruct (unsubscribe_each_exact (map_to_list (subscribers b)).*1 b cs)
      as (b' & cs' & Hfor & Ht & Hs & Hu & Hsubs & Hcs).
    { apply NoDup_fst_map_to_list. }
    { intros c Hc. apply subscriber_keys in Hc. auto. }
    exists b', cs'. split; [exact Hfor|]. split.
    { apply map_eq. intros c. rewrite Hsubs, lookup_empty.
      destruct (decide _) as [|Hn]; [reflexivity|].
      destruct (subscribers b !! c) eqn:E; [|reflexivity].
      exfalso. apply Hn, subscriber_keys. eauto. }
    split; [exact Ht|]. split; [exact Hs|]. split; [exact Hu|].
    intros c. rewrite Hcs.
    destruct (decide (c ∈ (map_to_list (subscribers b)).*1)) as [Hin|Hnin].
    + rewrite decide_True by (by apply subscriber_keys). reflexivity.
    + rewrite decide_False; [reflexivity|]. by rewrite <- subscriber_keys.
  - intros c Hc Hbad.
    apply (unsubscribe_each_panics _ b cs c); [apply NoDup_fst_map_to_list| | |exact Hbad].
    + intros k Hk. by apply subscriber_keys.
    + by apply subscriber_keys.
Qed.

Lemma removeSubscribers_clears_or_panics_witness :
  let b := {| topic := "t1"; state := Some (newRingBuffer 1);
              subscribers := {[ 0%nat := true ]}; updated := 0 |} in
  (exists b' cs', removeSubscribers (b, [{| closed := false; delivered := [] |}])
                  = Done (b', cs') /\ subscribers b' = ∅) /\
  removeSubscribers (b, [{| closed := true; delivered := [] |}]) = Panics.
Proof.
  intros b. split.
  - destruct (proj1 (removeSubscribers_clears_or_panics b
                       [{| closed := false; delivered := [] |}]))
      as (b' & cs' & Hrun & Hempty & _).
    + intros c [f Hc]. subst b. cbn [subscribers] in Hc.
      apply lookup_singleton_Some in Hc as [<- _]. eexists. split; reflexivity.
    + exists b', cs'. auto.
  - apply (proj2 (removeSubscribers_clears_or_panics b
                    [{| closed := true; delivered := [] |}]) 0%nat).
    + exists true. reflexivity.
    + intros (x & Hx & Hxo). injection Hx as <-. discriminate.
Defined.

(** ** What the sweep leaves alone *)

Lemma clean_one_keeps (now : Z) (e : string * nat) (w0 w w' : World) :
  well_formed w -> brokers w0 !! e.1 = Some e.2 -> ttl w = ttl w0 ->
  clean_one now e w = Done w' ->
  (forall l b, heap w0 !! l = Some b -> expired now (ttl w0) b = false ->
     heap w !! l = Some b /\
     (forall c, is_Some (subscribers b !! c) -> channels w !! c = channels w0 !! c) /\
     (forall t, brokers w0 !! t = Some l -> brokers w !! t = Some l)) ->
  (forall l b, heap w0 !! l = Some b -> expired now (ttl w0) b = false ->
     heap w' !! l = Some b /\
     (forall c, is_Some (subscribers b !! c) -> channels w' !! c = channels w0 !! c) /\
     (forall t, brokers w0 !! t = Some l -> brokers w' !! t = Some l)).
Proof.
  intros [Hptr Hch] He Httl Hrun HK l b Hl Hfresh.
  destruct (HK l b Hl Hfresh) as (Hheap & Hchan & Hbrk).
  unfold clean_one in Hrun.
  destruct (heap w !! e.2) as [be|] eqn:Hbe; [|discriminate].
  destruct (expired now (ttl w) be) eqn:Hexp.
  2:{ injection Hrun as <-. auto. }
  assert (e.2 <> l) as Hne.
  { intros Heq. rewrite Heq, Hheap in Hbe. injection Hbe as <-.
    rewrite Httl in Hexp. congruence. }
  destruct (removeSubscribers_closes be (channels w))
    as (b' & cs' & Hrm & _ & _ & _ & _ & Hsame).
  { intros c Hc. apply (Hch _ _ _ Hbe Hc). }
  unfold on_broker in Hrun. cbn [heap channels brokers ttl] in Hrun.
  rewrite Hbe, Hrm in Hrun. cbn [mbind outcome_bind fst snd] in Hrun.
  injection Hrun as <-. cbn [heap channels brokers].
  split; [by rewrite list_lookup_insert_ne|]. split.
  - intros c Hc. rewrite <- (Hchan c Hc). apply Hsame.
    destruct (subscribers be !! c) eqn:E; [|reflexivity]. exfalso. apply Hne.
    destruct (Hch l b c Hheap Hc) as [_ Huniq]. apply (Huniq _ _ Hbe). eauto.
  - intros t Ht. rewrite lookup_delete_ne; [by apply Hbrk|].
    intros Heq. rewrite <- Heq, He in Ht. by injection Ht.
Qed.

Lemma sweep_keeps (now : Z) (es : list (string * nat)) (w0 w w' : World) :
  well_formed w0 -> well_formed w -> swept w0 w ->
  (forall e, e ∈ es -> brokers w0 !! e.1 = Some e.2) ->
  for_each (clean_one now) es w = Done w' ->
  (forall l b, heap w0 !! l = Some b -> expired now (ttl w0) b = false ->
     heap w !! l = Some b /\
     (forall c, is_Some (subscribers b !! c) -> channels w !! c = channels w0 !! c) /\
     (forall t, brokers w0 !! t = Some l -> brokers w !! t = Some l)) ->
  (forall l b, heap w0 !! l = Some b -> expired now (ttl w0) b = false ->
     heap w' !! l = Some b /\
     (forall c, is_Some (subscribers b !! c) -> channels w' !! c = channels w0 !! c) /\
     (forall t, brokers w0 !! t = Some l -> brokers w' !! t = Some l)).
Proof.
  intros Hwf0. revert w. induction es as [|e es IH]; intros w Hwf Hsw Hes Hrun HK.
  - injection Hrun as <-. exact HK.
  - cbn [for_each] in Hrun.
    destruct (clean_one_swept now e w0 w Hwf Hsw) as (w1 & H1 & Hwf1 & Hsw1 & _).
    { destruct Hwf0 as [Hptr _]. eapply Hptr, Hes. left. }
    rewrite H1 in Hrun. cbn [mbind outcome_bind] in Hrun.
    apply (IH w1 Hwf1 Hsw1); [intros e' He'; apply Hes; by right|exact Hrun|].
    apply (clean_one_keeps now e w0 w w1 Hwf); [apply Hes; left| |exact H1|exact HK].
    by destruct Hsw as (Httl & _).
Qed.



(** ** Well-formed registries *)

Lemma well_formed_init : well_formed init_world.
Proof.
  split.
  - intros t l Hl. cbn [init_world brokers] in Hl. by rewrite lookup_empty in Hl.
  - intros l b c Hl. cbn [init_world heap] in Hl. by rewrite lookup_nil in Hl.
Qed.

Lemma well_formed_register (topic : string) (b : Broker) (w : World) :
  well_formed w -> subscribers b = ∅ -> well_formed (register topic b w).2.
Proof.
  intros [Hptr Hch] Hempty. unfold register. cbn [snd]. split; cbn [heap brokers channels].
  - intros t l Hl. apply lookup_insert_Some in Hl as [(_ & <-) | (_ & Hl)].
    + exists b. by apply list_lookup_middle.
    + destruct (Hptr _ _ Hl) as [x Hx]. exists x. by apply lookup_app_l_Some.
  - assert (Hold : forall l b0 c, (heap w ++ [b]) !! l = Some b0 ->
              is_Some (subscribers b0 !! c) -> heap w !! l = Some b0).
    { intros l b0 c Hl Hc. apply lookup_app_Some in Hl as [Hl | (_ & Hl)]; [exact Hl|].
      apply list_lookup_singleton_Some in Hl as [_ <-].
      rewrite Hempty, lookup_empty in Hc. by destruct Hc. }
    intros l b0 c Hl Hc. pose proof (Hold _ _ _ Hl Hc) as Hl0.
    destruct (Hch _ _ _ Hl0 Hc) as [Ho Huniq]. split; [exact Ho|].
    intros l' b1 Hl1 Hc1. eapply Huniq; eauto.
Qed.

(** A method call that adds no subscriber and closes no channel but those
    of subscribers it removes keeps the registry well formed. *)
Lemma well_formed_update (l : nat) (w : World) (b b' : Broker) (cs' : list channel) :
  well_formed w -> heap w !! l = Some b ->
  (forall c, is_Some (subscribers b' !! c) -> is_Some (subscribers b !! c)) ->
  (forall c, is_open (channels w) c ->
     is_open cs' c \/ (is_Some (subscribers b !! c) /\ ~ is_Some (subscribers b' !! c))) ->
  well_formed {| heap := <[l := b']> (heap w); brokers := brokers w;
                 channels := cs'; ttl := ttl w |}.
Proof.
  intros [Hptr Hch] Hl Hsub Hopen. split; cbn [heap brokers channels].
  - intros t l0 Ht. destruct (Hptr _ _ Ht) as [x Hx]. apply lookup_lt_is_Some.
    rewrite length_insert. eapply lookup_lt_Some, Hx.
  - assert (Horig : forall l0 b0 c, <[l := b']> (heap w) !! l0 = Some b0 ->
              is_Some (subscribers b0 !! c) ->
              exists bo, heap w !! l0 = Some bo /\ is_Some (subscribers bo !! c) /\
                (l0 <> l -> bo = b0) /\ (l0 = l -> b0 = b')).
    { intros l0 b0 c Hl0 Hc.
      apply list_lookup_insert_Some in Hl0 as [(<- & <- & _) | (Hne & Hl0)].
      - exists b. split; [exact Hl|]. split; [by apply Hsub|]. split; done.
      - exists b0. split; [exact Hl0|]. split; [exact Hc|]. split; [done|].
        intros ->. done. }
    intros l0 b0 c Hl0 Hc.
    destruct (Horig _ _ _ Hl0 Hc) as (bo & Hbo & Hco & Hne & Heq).
    destruct (Hch _ _ _ Hbo Hco) as [Ho Huniq]. split.
    + destruct (Hopen c Ho) as [Ho' | [Hin Hout]]; [exact Ho'|]. exfalso.
      destruct (decide (l0 = l)) as [->|Hnl].
      * rewrite (Heq eq_refl) in Hc. done.
      * apply Hnl. symmetry. eapply Huniq; eauto.
    + intros l1 b1 Hl1 Hc1.
      destruct (Horig _ _ _ Hl1 Hc1) as (b1o & Hb1o & Hc1o & _).
      eapply Huniq; eauto.
Qed.

Lemma on_broker_Done (l : nat)
    (f : Broker * list channel -> outcome (Broker * list channel)) (w w' : World) :
  on_broker l f w = Done w' ->
  exists b bc, heap w !! l = Some b /\ f (b, channels w) = Done bc /\
    w' = {| heap := <[l := bc.1]> (heap w); brokers := brokers w;
            channels := bc.2; ttl := ttl w |}.
Proof.
  unfold on_broker. intros H. destruct (heap w !! l) as [b|]; [|discriminate].
  destruct (f (b, channels w)) as [bc| |] eqn:Hf; try discriminate.
  cbn in H. injection H as <-. eauto.
Qed.

Lemma send_Done_open (o : origin) (msg : Message) (c : chan) (cs cs' : list channel) :
  send o msg c cs = Done cs' -> forall c', is_open cs c' -> is_open cs' c'.
Proof.
  unfold send. intros H c' Hc'. destruct (cs !! c) as [ch|]; [|discriminate].
  destruct (closed ch); [discriminate|]. injection H as <-. by apply is_open_sent.
Qed.

Lemma diff_over_open (order : list (chan * bool)) (msg : Message) (cs cs' : list channel) :
  diff_over order msg cs = Done cs' -> forall c, is_open cs c -> is_open cs' c.
Proof.
  revert cs. induction order as [|[c0 f0] order IH]; intros cs H c Hc.
  - by injection H as <-.
  - rewrite diff_over_cons in H. destruct f0.
    + destruct (send Live msg c0 cs) as [cs1| |] eqn:Hs; try discriminate.
      cbn in H. eapply IH; [exact H|]. eapply send_Done_open; eauto.
    + cbn in H. eapply IH; eauto.
Qed.

Lemma well_formed_full_on (l : nat) (msg : Message) (now : Z) (w w' : World) :
  well_formed w -> on_broker l (full_on msg now) w = Done w' -> well_formed w'.
Proof.
  intros Hwf H. apply on_broker_Done in H as (b & bc & Hl & Hf & ->).
  unfold full_on, full in Hf. cbn [fst snd] in Hf.
  destruct (the_state b); try discriminate. cbn in Hf. injection Hf as <-.
  apply (well_formed_update l w b); auto.
Qed.

Lemma well_formed_diff (l : nat) (msg : Message) (w w' : World) :
  well_formed w -> on_broker l (diff msg) w = Done w' -> well_formed w'.
Proof.
  intros Hwf H. apply on_broker_Done in H as (b & bc & Hl & Hf & ->).
  unfold diff in Hf. cbn [fst snd] in Hf.
  destruct (diff_over _ _ _) as [cs'| |] eqn:Hd; try discriminate.
  cbn in Hf. injection Hf as <-. cbn [fst snd].
  apply (well_formed_update l w b); auto.
  intros c Hc. left. eapply diff_over_open; eauto.
Qed.

Lemma well_formed_Unsubscribe (l : nat) (ch : chan) (w w' : World) :
  well_formed w -> on_broker l (Unsubscribe ch) w = Done w' -> well_formed w'.
Proof.
  intros Hwf H. apply on_broker_Done in H as (b & bc & Hl & Hf & ->).
  unfold Unsubscribe in Hf. cbn [fst snd] in Hf.
  destruct (subscribers b !! ch) as [f|] eqn:Hch.
  - unfold close in Hf. destruct (channels w !! ch) as [x|] eqn:Hx; [|discriminate].
    destruct (closed x); [discriminate|]. cbn in Hf. injection Hf as <-. cbn [fst snd].
    apply (well_formed_update l w b); auto.
    + intros c [g Hc]. cbn [subscribers] in Hc.
      apply lookup_delete_Some in Hc as [_ Hc]. eauto.
    + intros c Hc. destruct (decide (ch = c)) as [<-|Hne].
      * right. split; [eauto|]. cbn [subscribers].
        rewrite lookup_delete_eq. by intros [? ?].
      * left. by apply is_open_insert_ne.
  - injection Hf as <-. cbn [fst snd]. apply (well_formed_update l w b); auto.
Qed.

Lemma well_formed_subscribe_on (l : nat) (w w' : World) (ch : chan) :
  well_formed w -> subscribe_on l w = Done (ch, w') -> well_formed w'.
Proof.
  intros Hwf H. pose proof Hwf as [Hptr Hch].
  unfold subscribe_on in H. destruct (heap w !! l) as [b|] eqn:Hl; [|discriminate].
  unfold Subscribe_now, Subscribe, make_chan in H. cbn [fst snd] in H.
  set (cs1 := channels w ++ [{| closed := false; delivered := [] |}]) in *.
  assert (Hopen1 : forall c, is_open (channels w) c -> is_open cs1 c).
  { intros c Hc. by apply is_open_made. }
  destruct (bool_decide (is_Some (state b))).
  2:{ cbn in H. injection H as <- <-. cbn [fst snd].
      apply (well_formed_update l w b); auto. }
  unfold handshake in H. cbn [fst snd] in H.
  destruct (the_state b) as [r| |]; try discriminate. cbn [mbind outcome_bind] in H.
  destruct (waitTouch r); [|discriminate].
  assert (Hnew : cs1 !! length (channels w) = Some {| closed := false; delivered := [] |}).
  { by apply list_lookup_middle. }
  rewrite (emit_backlog (emit r) _ cs1 _ Hnew eq_refl) in H.
  cbn in H. injection H as <- <-.
  assert (Hfresh : forall l0 b0, heap w !! l0 = Some b0 ->
            subscribers b0 !! length (channels w) = None).
  { intros l0 b0 Hl0. destruct (subscribers b0 !! _) eqn:E; [|reflexivity].
    destruct (Hch l0 b0 (length (channels w)) Hl0) as [Ho _]; [eauto|].
    apply is_open_lt in Ho. lia. }
  split; cbn [heap brokers channels].
  - intros t l0 Ht. destruct (Hptr _ _ Ht) as [x Hx]. apply lookup_lt_is_Some.
    rewrite length_insert. eapply lookup_lt_Some, Hx.
  - assert (Horig : forall l0 b0 c,
              <[l := setSubscriber (length (channels w)) true b]> (heap w) !! l0 = Some b0 ->
              is_Some (subscribers b0 !! c) ->
              (c = length (channels w) /\ l0 = l) \/
              (c <> length (channels w) /\
               exists bo, heap w !! l0 = Some bo /\ is_Some (subscribers bo !! c))).
    { intros l0 b0 c Hl0 [g Hc].
      apply list_lookup_insert_Some in Hl0 as [(<- & <- & _) | (Hne & Hl0)].
      - cbn [setSubscriber subscribers] in Hc.
        apply lookup_insert_Some in Hc as [(<- & _) | (Hnc & Hc)]; [by left|].
        right. split; [done|]. exists b. eauto.
      - right. split; [|exists b0; eauto].
        intros ->. rewrite (Hfresh _ _ Hl0) in Hc. discriminate. }
    intros l0 b0 c Hl0 Hc.
    destruct (Horig _ _ _ Hl0 Hc) as [[-> ->] | (Hnc & bo & Hbo & Hco)].
    + split.
      * eexists. split; [apply list_lookup_insert_eq|reflexivity].
        subst cs1. rewrite length_app. simpl. lia.
      * intros l1 b1 Hl1 Hc1.
        destruct (Horig _ _ _ Hl1 Hc1) as [[_ ->] | (Hnc & _)]; done.
    + destruct (Hch _ _ _ Hbo Hco) as [Ho Huniq]. split.
      * apply is_open_insert_ne; [done|]. by apply Hopen1.
      * intros l1 b1 Hl1 Hc1.
        destruct (Horig _ _ _ Hl1 Hc1) as [[-> _] | (_ & b1o & Hb1o & Hc1o)]; [done|].
        eapply Huniq; eauto.
Qed.

Lemma on_broker_at (l : nat)
    (f : Broker * list channel -> outcome (Broker * list channel))
    (w : World) (b b' : Broker) (cs' : list channel) :
  heap w !! l = Some b -> f (b, channels w) = Done (b', cs') ->
  on_broker l f w =
    Done {| heap := <[l := b']> (heap w); brokers := brokers w;
            channels := cs'; ttl := ttl w |}.
Proof. intros Hl Hf. unfold on_broker. by rewrite Hl, Hf. Qed.

(** *** State stores and flags *)

Lemma registry_inv_alt (w : World) :
  registry_inv w <->
  well_formed w /\
  forall l b, heap w !! l = Some b ->
    is_Some (state b) /\ forall c f, subscribers b !! c = Some f -> f = true.
Proof.
  unfold registry_inv. split.
  - intros (Hwf & Hst & Hfl). split; [exact Hwf|]. intros l b Hl. split; eauto.
  - intros (Hwf & Hall). split; [exact Hwf|]. split.
    + intros l b Hl. by destruct (Hall l b Hl).
    + intros l b c f Hl. destruct (Hall l b Hl) as [_ H]. apply H.
Qed.

Lemma heap_insert_all (P : Broker -> Prop) (h : list Broker) (l : nat) (b' : Broker) :
  (forall l0 b0, h !! l0 = Some b0 -> P b0) -> P b' ->
  forall l0 b0, <[l := b']> h !! l0 = Some b0 -> P b0.
Proof.
  intros Hall Hb' l0 b0 Hl0.
  apply list_lookup_insert_Some in Hl0 as [(_ & <- & _) | (_ & Hl0)]; eauto.
Qed.

Lemma registry_inv_init : registry_inv init_world.
Proof.
  apply registry_inv_alt. split; [apply well_formed_init|].
  intros l b Hl. cbn [init_world heap] in Hl. by rewrite lookup_nil in Hl.
Qed.

Lemma registry_inv_register (topic : string) (b : Broker) (w : World) :
  registry_inv w -> subscribers b = ∅ -> is_Some (state b) ->
  registry_inv (register topic b w).2.
Proof.
  intros Hinv Hempty Hst. apply registry_inv_alt in Hinv as [Hwf Hall].
  apply registry_inv_alt. split; [by apply well_formed_register|].
  unfold register. cbn [snd heap]. intros l b0 Hl.
  apply lookup_app_Some in Hl as [Hl | (_ & Hl)]; [eauto|].
  apply list_lookup_singleton_Some in Hl as [_ <-]. split; [exact Hst|].
  intros c f Hc. by rewrite Hempty, lookup_empty in Hc.
Qed.

(** A method call through a pointer keeps the registry as the package keeps
    it when it keeps it well formed and leaves the broker with a state
    store and with no flag but true. *)
Lemma registry_inv_on_broker (l : nat)
    (f : Broker * list channel -> outcome (Broker * list channel)) (w w' : World) :
  registry_inv w -> on_broker l f w = Done w' -> well_formed w' ->
  (forall b bc, heap w !! l = Some b -> f (b, channels w) = Done bc ->
     (is_Some (state b) -> is_Some (state bc.1)) /\
     forall c g, subscribers bc.1 !! c = Some g -> g = true \/ subscribers b !! c = Some g) ->
  registry_inv w'.
Proof.
  intros Hinv H Hwf' Hf. apply registry_inv_alt in Hinv as [Hwf Hall].
  apply registry_inv_alt. split; [exact Hwf'|].
  apply on_broker_Done in H as (b & bc & Hl & Hrun & ->). cbn [heap].
  destruct (Hf b bc Hl Hrun) as [Hst Hfl]. destruct (Hall l b Hl) as [Hsb Hfb].
  apply heap_insert_all; [exact Hall|]. split; [by apply Hst|].
  intros c g Hc. destruct (Hfl c g Hc) as [->|Hold]; eauto.
Qed.

Lemma Unsubscribe_keeps (ch : chan) (bc bc' : Broker * list channel) :
  Unsubscribe ch bc = Done bc' ->
  state bc'.1 = state bc.1 /\
  forall c g, subscribers bc'.1 !! c = Some g -> subscribers bc.1 !! c = Some g.
Proof.
  unfold Unsubscribe. intros H. destruct (subscribers bc.1 !! ch).
  - destruct (close ch bc.2); try discriminate. cbn in H. injection H as <-.
    cbn [fst state subscribers]. split; [reflexivity|].
    intros c g Hc. by apply lookup_delete_Some in Hc as [_ Hc].
  - injection H as <-. auto.
Qed.

Lemma unsubscribe_each_keeps (l : list chan) (bc bc' : Broker * list channel) :
  for_each Unsubscribe l bc = Done bc' ->
  state bc'.1 = state bc.1 /\
  forall c g, subscribers bc'.1 !! c = Some g -> subscribers bc.1 !! c = Some g.
Proof.
  revert bc. induction l as [|ch l IH]; intros bc H.
  - injection H as <-. auto.
  - cbn [for_each] in H. destruct (Unsubscribe ch bc) as [bc1| |] eqn:H1; try discriminate.
    cbn in H. destruct (IH bc1 H) as [Hst Hsub].
    destruct (Unsubscribe_keeps ch bc bc1 H1) as [Hst1 Hsub1].
    split; [congruence|]. intros c g Hc. auto.
Qed.

Lemma registry_inv_clean_one (now : Z) (e : string * nat) (w w' : World) :
  registry_inv w -> is_Some (heap w !! e.2) -> clean_one now e w = Done w' ->
  registry_inv w'.
Proof.
  intros Hinv Hptr H. pose proof Hinv as Hinv0.
  apply registry_inv_alt in Hinv as [Hwf Hall].
  destruct (clean_one_swept now e w w Hwf (swept_refl w) Hptr) as (w2 & Hrun & Hwf2 & _).
  rewrite Hrun in H. injection H as <-.
  unfold clean_one in Hrun. destruct (heap w !! e.2) as [b|] eqn:Hb; [|discriminate].
  destruct (expired now (ttl w) b); [|by injection Hrun as <-].
  apply registry_inv_alt. split; [exact Hwf2|].
  apply on_broker_Done in Hrun as (b1 & bc & Hl & Hf & ->). cbn [heap channels] in *.
  apply heap_insert_all; [exact Hall|].
  destruct (unsubscribe_each_keeps _ _ _ Hf) as [Hst Hsub]. cbn [fst] in Hst, Hsub.
  destruct (Hall _ _ Hl) as [Hsb Hfb]. split; [by rewrite Hst|].
  intros c g Hc. eapply Hfb, Hsub, Hc.
Qed.

Lemma registry_inv_sweep (now : Z) (es : list (string * nat)) (w w' : World) :
  registry_inv w -> (forall e, e ∈ es -> is_Some (heap w !! e.2)) ->
  for_each (clean_one now) es w = Done w' -> registry_inv w'.
Proof.
  revert w. induction es as [|e es IH]; intros w Hinv Hptr H.
  - by injection H as <-.
  - cbn [for_each] in H. destruct (clean_one now e w) as [w1| |] eqn:H1; try discriminate.
    cbn in H. apply (IH w1); [| |exact H].
    + eapply registry_inv_clean_one; [exact Hinv| |exact H1]. apply Hptr. left.
    + intros e' He'. destruct (Hptr e') as [x Hx]; [by right|].
      apply lookup_lt_is_Some. apply lookup_lt_Some in Hx.
      destruct Hinv as [Hwf _].
      destruct (clean_one_swept now e w w Hwf (swept_refl w)) as (w2 & Hrun & _ & Hsw & _);
        [apply Hptr; left|].
      rewrite Hrun in H1. injection H1 as ->. destruct Hsw as (_ & Hlen & _). lia.
Qed.

Lemma registry_inv_get (w : World) (lw : nat * World) (topic : string) (b : Broker) :
  registry_inv w -> subscribers b = ∅ -> is_Some (state b) ->
  lw = match FindBroker topic w with
       | None => register topic b w
       | Some l => (l, w)
       end ->
  registry_inv lw.2 /\ is_Some (heap lw.2 !! lw.1).
Proof.
  intros Hinv Hempty Hst ->. unfold FindBroker.
  destruct (brokers w !! topic) as [l|] eqn:Ht; cbn [fst snd].
  - split; [exact Hinv|]. destruct Hinv as [[Hptr _] _]. eapply Hptr, Ht.
  - split; [by apply registry_inv_register|].
    unfold register. cbn [fst snd heap]. exists b. by apply list_lookup_middle.
Qed.

Lemma full_on_runs (l : nat) (msg : Message) (now : Z) (w : World) :
  registry_inv w -> is_Some (heap w !! l) ->
  exists w', on_broker l (full_on msg now) w = Done w' /\ registry_inv w'.
Proof.
  intros Hinv [b Hl]. pose proof Hinv as Hinv0.
  apply registry_inv_alt in Hinv as [Hwf Hall].
  destruct (Hall l b Hl) as [[r Hr] _].
  assert (Hf : full_on msg now (b, channels w) =
               Done ({| topic := topic b; state := Some (put msg r);
                        subscribers := subscribers b; updated := now |}, channels w)).
  { unfold full_on, full, the_state. cbn [fst snd]. by rewrite Hr. }
  eexists. split; [by apply (on_broker_at l _ w b _ _ Hl Hf)|].
  eapply registry_inv_on_broker; [exact Hinv0|by apply (on_broker_at l _ w b _ _ Hl Hf)| |].
  - eapply well_formed_full_on; [exact Hwf|by apply (on_broker_at l _ w b _ _ Hl Hf)].
  - intros b0 bc Hl0 Hf0. assert (b0 = b) as -> by congruence.
    rewrite Hf in Hf0. injection Hf0 as <-. cbn [fst state subscribers].
    split; [eauto|]. auto.
Qed.

Lemma diff_runs (l : nat) (msg : Message) (w : World) :
  registry_inv w -> is_Some (heap w !! l) ->
  exists w', on_broker l (diff msg) w = Done w' /\ registry_inv w'.
Proof.
  intros Hinv [b Hl]. pose proof Hinv as Hinv0.
  apply registry_inv_alt in Hinv as [Hwf Hall]. pose proof Hwf as [_ Hch].
  destruct (diff_over_exact (map_to_list (subscribers b)) msg (channels w))
    as (cs' & Hrun & _).
  { apply NoDup_fst_map_to_list. }
  { intros c Hc. apply elem_of_map_to_list in Hc. apply (Hch l b c Hl). eauto. }
  assert (Hf : diff msg (b, channels w) = Done (b, cs')).
  { unfold diff. cbn [fst snd]. by rewrite Hrun. }
  eexists. split; [by apply (on_broker_at l _ w b _ _ Hl Hf)|].
  eapply registry_inv_on_broker; [exact Hinv0|by apply (on_broker_at l _ w b _ _ Hl Hf)| |].
  - eapply well_formed_diff; [exact Hwf|by apply (on_broker_at l _ w b _ _ Hl Hf)].
  - intros b0 bc Hl0 Hf0. assert (b0 = b) as -> by congruence.
    rewrite Hf in Hf0. injection Hf0 as <-. cbn [fst]. auto.
Qed.

Lemma unsubscribe_safe (l : nat) (ch : chan) (w : World) :
  registry_inv w -> is_Some (heap w !! l) ->
  exists w', on_broker l (Unsubscribe ch) w = Done w' /\ registry_inv w'.
Proof.
  intros Hinv [b Hl]. pose proof Hinv as Hinv0.
  apply registry_inv_alt in Hinv as [Hwf Hall]. pose proof Hwf as [_ Hch].
  assert (Hf : exists bc, Unsubscribe ch (b, channels w) = Done bc).
  { unfold Unsubscribe. cbn [fst snd]. destruct (subscribers b !! ch) eqn:Hc; [|eauto].
    destruct (close_open ch (channels w)) as (x & _ & _ & ->); [|cbn; eauto].
    apply (Hch l b ch Hl). eauto. }
  destruct Hf as [[b' cs'] Hf].
  eexists. split; [by apply (on_broker_at l _ w b _ _ Hl Hf)|].
  eapply registry_inv_on_broker; [exact Hinv0|by apply (on_broker_at l _ w b _ _ Hl Hf)| |].
  - eapply well_formed_Unsubscribe; [exact Hwf|by apply (on_broker_at l _ w b _ _ Hl Hf)].
  - intros b0 bc Hl0 Hf0. assert (b0 = b) as -> by congruence.
    destruct (Unsubscribe_keeps ch _ _ Hf0) as [Hst Hsub]. cbn [fst] in Hst, Hsub.
    split; [by rewrite Hst|]. intros c g Hc. right. by apply Hsub.
Qed.

Lemma subscribe_on_safe (l : nat) (w : World) :
  registry_inv w -> is_Some (heap w !! l) ->
  subscribe_on l w <> Panics /\
  forall ch w', subscribe_on l w = Done (ch, w') -> registry_inv w'.
Proof.
  intros Hinv [b Hl]. pose proof Hinv as Hinv0.
  apply registry_inv_alt in Hinv as [Hwf Hall].
  destruct (Hall l b Hl) as [[r Hr] Hfb].
  assert (Hshape : subscribe_on l w = Blocks \/
            subscribe_on l w =
              Done (length (channels w),
                    {| heap := <[l := setSubscriber (length (channels w)) true b]> (heap w);
                       brokers := brokers w;
                       channels := <[length (channels w) :=
                                       {| closed := false;
                                          delivered := (fun m => (Backlog, m)) <$> emit r |}]>
                                     (channels w ++ [{| closed := false; delivered := [] |}]);
                       ttl := ttl w |})).
  { unfold subscribe_on. rewrite Hl.
    unfold Subscribe_now, Subscribe, make_chan. cbn [fst snd].
    rewrite bool_decide_eq_true_2 by (rewrite Hr; eauto).
    unfold handshake, the_state. cbn [fst snd]. rewrite Hr. cbn [mbind outcome_bind].
    destruct (waitTouch r); [|by left]. right.
    erewrite emit_backlog; [|by apply list_lookup_middle|reflexivity].
    reflexivity. }
  split; [destruct Hshape as [-> | ->]; discriminate|].
  intros ch w' H. apply registry_inv_alt.
  split; [eapply well_formed_subscribe_on; eauto|].
  destruct Hshape as [Hs | Hs]; rewrite Hs in H; [discriminate|].
  injection H as _ <-. cbn [heap].
  apply heap_insert_all; [exact Hall|]. cbn [setSubscriber state subscribers].
  split; [rewrite Hr; eauto|].
  intros c g Hc. apply lookup_insert_Some in Hc as [(_ & <-) | (_ & Hc)]; eauto.
Qed.

(** X13. What the package keeps of its registry.  After [init], and after
    every call on such a registry that returns, each topic of the map
    points to a broker that exists, every broker has a state store, every
    channel in a subscriber map is flagged true and open, and no channel is
    in the maps of two brokers: [SetTTL], the two get-or-create functions,
    [Full], [Diff], [Stream], a [Subscribe] with its goroutine, an
    [Unsubscribe] and the sweep keep it so.  On such a registry none of
    them panics (no call on a nil state store, no send on a closed channel,
    no second close), the calls through a pointer being made through one
    that the registry holds. *)
Theorem registry_inv_kept :
  registry_inv init_world /\
  forall w, registry_inv w ->
    (forall ttl', registry_inv (SetTTL ttl' w)) /\
    (forall topic now, registry_inv (GetFullDiffBroker topic now w).2) /\
    (forall topic now, registry_inv (GetBufferedBroker topic now w).2) /\
    (forall topic event data now,
       Full topic event data now w <> Panics /\
       forall w', Full topic event data now w = Done w' -> registry_inv w') /\
    (forall topic event data now,
       Diff topic event data now w <> Panics /\
       forall w', Diff topic event data now w = Done w' -> registry_inv w') /\
    (forall topic event data now,
       Stream topic event data now w <> Panics /\
       forall w', Stream topic event data now w = Done w' -> registry_inv w') /\
    (forall l, is_Some (heap w !! l) ->
       subscribe_on l w <> Panics /\
       forall ch w', subscribe_on l w = Done (ch, w') -> registry_inv w') /\
    (forall l ch, is_Some (heap w !! l) ->
       on_broker l (Unsubscribe ch) w <> Panics /\
       forall w', on_broker l (Unsubscribe ch) w = Done w' -> registry_inv w') /\
    (forall entries now, entries ≡ₚ map_to_list (brokers w) ->
       CleanUpBrokers_over entries now w <> Panics /\
       forall w', CleanUpBrokers_over entries now w = Done w' -> registry_inv w').
Proof.
  split; [apply registry_inv_init|]. intros w Hinv.
  assert (Hfd : forall topic now,
            registry_inv (GetFullDiffBroker topic now w).2 /\
            is_Some (heap (GetFullDiffBroker topic now w).2
                       !! (GetFullDiffBroker topic now w).1)).
  { intros topic now. eapply (registry_inv_get w _ topic (NewFullDiffBroker topic now));
      [exact Hinv|reflexivity|by eexists|reflexivity]. }
  assert (Hbuf : forall topic now,
            registry_inv (GetBufferedBroker topic now w).2 /\
            is_Some (heap (GetBufferedBroker topic now w).2
                       !! (GetBufferedBroker topic now w).1)).
  { intros topic now.
    eapply (registry_inv_get w _ topic (NewBufferedBroker topic defaultSize now));
      [exact Hinv|reflexivity|by eexists|reflexivity]. }
  assert (Hret : forall (o : outcome World),
            (exists w', o = Done w' /\ registry_inv w') ->
            o <> Panics /\ forall w', o = Done w' -> registry_inv w').
  { intros o (w1 & -> & H1). split; [discriminate|]. by intros w' [= <-]. }
  split.
  { intros ttl'. destruct Hinv as (Hwf & Hst & Hfl). split; [exact Hwf|]. split; auto. }
  split; [intros; apply Hfd|]. split; [intros; apply Hbuf|].
  split; [|split; [|split; [|split; [|split]]]].
  - intros topic event data now. apply Hret. unfold Full.
    destruct (Hfd topic now) as [H1 H2].
    destruct (GetFullDiffBroker topic now w) as [l w1]. by apply full_on_runs.
  - intros topic event data now. apply Hret. unfold Diff.
    destruct (Hfd topic now) as [H1 H2].
    destruct (GetFullDiffBroker topic now w) as [l w1]. by apply diff_runs.
  - intros topic event data now. apply Hret. unfold Stream.
    destruct (Hbuf topic now) as [H1 H2].
    destruct (GetBufferedBroker topic now w) as [l w1]. cbn [fst snd] in *.
    destruct (full_on_runs l (NewMessage event data) now w1 H1 H2) as (w2 & Hf & H3).
    rewrite Hf. cbn [mbind outcome_bind]. apply diff_runs; [exact H3|].
    apply on_broker_Done in Hf as (b & bc & Hl & _ & ->). cbn [heap].
    apply lookup_lt_is_Some. rewrite length_insert. eapply lookup_lt_Some, Hl.
  - intros l Hl. by apply subscribe_on_safe.
  - intros l ch Hl. apply Hret. by apply unsubscribe_safe.
  - intros entries now Hperm. apply Hret.
    assert (Hptr : forall e, e ∈ entries -> is_Some (heap w !! e.2)).
    { intros [t l] He. rewrite Hperm in He. apply elem_of_map_to_list in He.
      destruct Hinv as [[Hptr _] _]. eapply Hptr, He. }
    destruct Hinv as [Hwf Hrest].
    destruct (sweep_swept now entries w w Hwf (swept_refl w) Hptr) as (w2 & Hrun & _).
    exists w2. split; [exact Hrun|].
    eapply registry_inv_sweep; [by split|exact Hptr|exact Hrun].
Qed.

Lemma registry_inv_kept_witness :
  exists w1, Full "t1" "e" [x61] 1 init_world = Done w1 /\ registry_inv w1.
Proof.
  eexists. split; [vm_compute; reflexivity|].
  destruct registry_inv_kept as [Hinit Hkept].
  destruct (Hkept init_world Hinit) as (_ & _ & _ & HFull & _).
  apply (HFull "t1" "e" [x61] 1). vm_compute. reflexivity.
Defined.

(** ** The package calls on a new topic *)

Lemma insert_last {A} (l : list A) (x y : A) : <[length l := x]> (l ++ [y]) = l ++ [x].
Proof.
  rewrite insert_app_r_alt by lia. by rewrite Nat.sub_diag.
Qed.

Lemma map_to_list_one (k : nat) :
  map_to_list (<[k := true]> (∅ : gmap nat bool)) = [(k, true)].
Proof. rewrite insert_empty. apply map_to_list_singleton. Qed.

Lemma Full_new_topic (topic event : string) (data : list byte) (now : Z) (w : World) :
  brokers w !! topic = None ->
  Full topic event data now w =
    Done {| heap := heap w ++
              [{| topic := topic;
                  state := Some (put (NewMessage event data) (newRingBuffer 1));
                  subscribers := ∅; updated := now |}];
            brokers := <[topic := length (heap w)]> (brokers w);
            channels := channels w; ttl := ttl w |}.
Proof.
  intros Hnone. unfold Full, GetFullDiffBroker, FindBroker. rewrite Hnone.
  unfold createFullDiffBroker, register.
  erewrite on_broker_at; [|by apply list_lookup_middle|reflexivity].
  cbn [heap brokers channels ttl fst snd]. by rewrite insert_last.
Qed.

Lemma Full_known_topic (topic event : string) (data : list byte) (now : Z) (w : World)
    (l : nat) (b : Broker) (r : ringBuffer) :
  brokers w !! topic = Some l -> heap w !! l = Some b -> state b = Some r ->
  Full topic event data now w =
    Done {| heap := <[l := {| topic := broker.topic b;
                              state := Some (put (NewMessage event data) r);
                              subscribers := subscribers b; updated := now |}]> (heap w);
            brokers := brokers w; channels := channels w; ttl := ttl w |}.
Proof.
  intros Ht Hl Hr. unfold Full, GetFullDiffBroker, FindBroker. rewrite Ht.
  erewrite on_broker_at; [reflexivity|exact Hl|].
  unfold full_on, full, the_state. cbn [fst snd]. by rewrite Hr.
Qed.



End brokerExtras.

(** * More on one broker under interleaving *)

Module interleavingExtras.
Import broker brokerFacts interleaving interleavingFacts interleavingTheorems.

(** ** Before the first full *)

(** While nothing has been stored, a step leaves the broker without
    subscribers, the goroutines before [waitTouch] returns, and the channels
    without a hand-over. *)
Lemma quiet_step (a : action) (s s' : System) :
  inv s -> exec a s = Some s' ->
  (forall r, state (brk s) = Some r -> touched r = false ->
     subscribers (brk s) = ∅ /\
     (forall ch g, gos s !! ch = Some g -> g = GoStart \/ g = GoWait) /\
     (forall ch, log (chs s) ch = [])) ->
  (forall r, state (brk s') = Some r -> touched r = false ->
     subscribers (brk s') = ∅ /\
     (forall ch g, gos s' !! ch = Some g -> g = GoStart \/ g = GoWait) /\
     (forall ch, log (chs s') ch = [])).
Proof.
  intros Hinv Hex HQ r' Hr' Hun.
  destruct (exec_step a s s' Hinv Hex) as (_ & _ & _ & Hfull & _).
  destruct Hfull as [[_ Hst] | (msg & now & r0 & -> & _ & Hput & _)].
  2:{ rewrite Hput in Hr'. injection Hr' as <-. discriminate. }
  rewrite Hst in Hr'. destruct (HQ r' Hr' Hun) as (Hsubs & Hgos & Hlog).
  pose proof (inv_alive _ Hinv) as Hal.
  unfold exec in Hex. rewrite Hal in Hex.
  destruct a.
  - unfold Subscribe, make_chan in Hex. cbn [fst snd] in Hex.
    rewrite bool_decide_eq_true_2 in Hex by apply (inv_state _ Hinv).
    injection Hex as <-. cbn [brk gos chs]. split; [exact Hsubs|]. split.
    + intros ch g Hg. apply lookup_insert_Some in Hg as [(_ & <-) | (_ & Hg)]; eauto.
    + intros ch. rewrite log_made. destruct (decide _); [reflexivity|apply Hlog].
  - destruct (gos s !! ch) as [[]|] eqn:Hg; try discriminate.
    destruct (remove_unlocked s); [|discriminate]. injection Hex as <-.
    cbn [brk gos chs set_go]. split; [exact Hsubs|]. split; [|exact Hlog].
    intros ch' g Hg'. apply lookup_insert_Some in Hg' as [(_ & <-) | (_ & Hg')]; eauto.
  - destruct (gos s !! ch) as [[]|] eqn:Hg; try discriminate.
    destruct (state (brk s)) as [r|] eqn:Hr; [|discriminate].
    injection Hr' as ->. unfold waitTouch in Hex. rewrite Hun in Hex. discriminate.
  - destruct (gos s !! ch) as [[]|] eqn:Hg; try discriminate.
    destruct (Hgos _ _ Hg); discriminate.
  - destruct (gos s !! ch) as [[| | |[|msg rest]|]|] eqn:Hg; try discriminate.
    destruct (Hgos _ _ Hg); discriminate.
  - destruct (gos s !! ch) as [[| | |[|msg rest]|]|] eqn:Hg; try discriminate.
    destruct (Hgos _ _ Hg); discriminate.
  - destruct (write_free s); [|discriminate].
    destruct (inv_full s msg now Hinv) as (b & Hf & _ & _).
    rewrite Hf in Hex. cbn in Hex. injection Hex as <-. cbn [brk] in Hst.
    exfalso. unfold full, the_state in Hf. rewrite Hr' in Hf. cbn in Hf.
    injection Hf as <-. cbn in Hst. rewrite Hr' in Hst. injection Hst as Hst.
    rewrite <- Hst in Hun. discriminate.
  - destruct (bool_decide (order ≡ₚ map_to_list (subscribers (brk s))));
      [|discriminate]. injection Hex as <-. auto.
  - destruct (diffs s !! i) as [[msg [|e rest]]|] eqn:Hi; try discriminate.
    destruct (inv_diff_send s i msg e rest Hinv Hi) as (Hflag & _).
    rewrite Hsubs, lookup_empty in Hflag. discriminate.
  - destruct (diffs s !! i) as [[msg [|e rest]]|] eqn:Hi; try discriminate.
    injection Hex as <-. auto.
  - destruct (write_free s); [|discriminate].
    rewrite Unsubscribe_absent in Hex by (cbn [fst]; by rewrite Hsubs, lookup_empty).
    cbn in Hex. injection Hex as <-. auto.
  - destruct (_ && _); [|discriminate]. injection Hex as <-. auto.
  - destruct (removers s !! i) as [[l|l]|]; try discriminate.
    destruct (_ && _); [|discriminate]. injection Hex as <-. auto.
  - destruct (removers s !! i) as [[l|[|ch rest]]|]; try discriminate.
    destruct (write_free s); [|discriminate].
    rewrite Unsubscribe_absent in Hex by (cbn [fst]; by rewrite Hsubs, lookup_empty).
    cbn in Hex. injection Hex as <-. auto.
  - destruct (removers s !! i) as [[l|[|ch rest]]|]; try discriminate.
    injection Hex as <-. auto.
Qed.

Lemma quiet_run (tr : list action) (s s' : System) :
  inv s -> run tr s = Some s' ->
  (forall r, state (brk s) = Some r -> touched r = false ->
     subscribers (brk s) = ∅ /\
     (forall ch g, gos s !! ch = Some g -> g = GoStart \/ g = GoWait) /\
     (forall ch, log (chs s) ch = [])) ->
  (forall r, state (brk s') = Some r -> touched r = false ->
     subscribers (brk s') = ∅ /\
     (forall ch g, gos s' !! ch = Some g -> g = GoStart \/ g = GoWait) /\
     (forall ch, log (chs s') ch = [])).
Proof.
  revert s. induction tr as [|a tr IH]; intros s Hinv Hrun HQ.
  - by injection Hrun as <-.
  - cbn [run] in Hrun. destruct (exec a s) as [s1|] eqn:Hex; [|discriminate].
    cbn in Hrun. destruct (exec_step a s s1 Hinv Hex) as (Hinv1 & _).
    apply (IH s1 Hinv1 Hrun). by apply (quiet_step a s s1).
Qed.

(** X15. Nothing reaches a subscriber before the first full: in every state
    the broker can get into while nothing has been stored yet, no channel is
    in the subscriber map, nothing has been handed over on any channel, and
    every goroutine of a [Subscribe] is at or before [waitTouch]. *)
Theorem nothing_before_first_full (s : System) (r : ringBuffer) :
  reachable s -> state (brk s) = Some r -> touched r = false ->
  subscribers (brk s) = ∅ /\
  (forall ch g, gos s !! ch = Some g -> g = GoStart \/ g = GoWait) /\
  (forall ch, log (chs s) ch = []).
Proof.
  intros (topic & size & now & tr & Hrun) Hr Hun.
  pose proof (quiet_run tr _ s (inv_start topic size now) Hrun) as HQ.
  apply (fun H => HQ H r Hr Hun).
  intros r0 _ _. cbn. split; [reflexivity|]. split.
  - intros ch g Hg. by rewrite lookup_empty in Hg.
  - intros ch. unfold log. by rewrite lookup_nil.
Qed.

Lemma nothing_before_first_full_witness :
  let s := after [ASubscribe; AGoRLock 0%nat; ASubscribe; ADiffBegin msg_b [];
                  ADiffEnd 0%nat] in
  subscribers (brk s) = ∅ /\ log (chs s) 0 = [] /\ log (chs s) 1 = [].
Proof.
  intros s.
  destruct (nothing_before_first_full s (newRingBuffer 1)) as (H1 & _ & H3).
  - apply after_reachable. vm_compute. eauto.
  - reflexivity.
  - reflexivity.
  - auto.
Defined.

(** ** The handshake and its reader *)

Lemma run_to_app (reading : chan -> bool) (tr1 tr2 : list action) (s : System) :
  run_to reading (tr1 ++ tr2) s = run_to reading tr1 s ≫= run_to reading tr2.
Proof.
  revert s. induction tr1 as [|a tr1 IH]; intros s; [reflexivity|].
  cbn [app run_to]. destruct (exec_to reading a s) as [s1|]; [|reflexivity].
  cbn. apply IH.
Qed.

Lemma exec_to_go_send_unread (reading : chan -> bool) (s : System) (ch : chan)
    (msg : Message) (rest : list Message) :
  inv s -> gos s !! ch = Some (GoEmit (msg :: rest)) -> reading ch = false ->
  exec_to reading (AGoSend ch) s = None.
Proof.
  intros Hinv Hg Hr. destruct (inv_gos s Hinv ch _ Hg) as ((c & Hl & Hc) & _); [done|].
  unfold exec_to. cbn [sends_on]. by rewrite Hg, Hl, Hc, Hr.
Qed.

Lemma exec_to_go_send (reading : chan -> bool) (s : System) (ch : chan)
    (msg : Message) (rest : list Message) :
  inv s -> gos s !! ch = Some (GoEmit (msg :: rest)) -> reading ch = true ->
  exists s', exec_to reading (AGoSend ch) s = Some s' /\ inv s' /\
    gos s' !! ch = Some (GoEmit rest) /\
    log (chs s') ch = log (chs s) ch ++ [(Backlog, msg)] /\
    brk s' = brk s /\ diffs s' = diffs s /\ removers s' = removers s /\
    (forall c, c <> ch -> chs s' !! c = chs s !! c /\ gos s' !! c = gos s !! c).
Proof.
  intros Hinv Hg Hr.
  destruct (inv_go_send s ch msg rest Hinv Hg) as (cs & Hsend & _ & Hinv').
  destruct (inv_gos s Hinv ch _ Hg) as (Ho & _); [done|].
  destruct (send_open Backlog msg ch (chs s) Ho) as (c & Hl & Hc & Hsend').
  rewrite Hsend' in Hsend. injection Hsend as <-.
  eexists. split.
  { unfold exec_to. cbn [sends_on]. rewrite Hg, Hl, Hr, orb_true_r.
    unfold exec. rewrite (inv_alive s Hinv), Hg, Hsend'. reflexivity. }
  split; [exact Hinv'|]. cbn [gos chs brk diffs removers].
  split; [apply lookup_insert_eq|]. split.
  { rewrite log_insert_eq by (eapply lookup_lt_Some, Hl).
    by rewrite (log_lookup _ _ _ Hl). }
  do 3 (split; [reflexivity|]).
  intros c' Hne. split.
  - by apply list_lookup_insert_ne.
  - by apply lookup_insert_ne.
Qed.

Lemma run_to_go_sends (reading : chan -> bool) (ch : chan) (msgs : list Message)
    (s : System) :
  inv s -> gos s !! ch = Some (GoEmit msgs) -> reading ch = true ->
  exists s', run_to reading (replicate (length msgs) (AGoSend ch)) s = Some s' /\ inv s' /\
    gos s' !! ch = Some (GoEmit []) /\
    log (chs s') ch = log (chs s) ch ++ ((fun m => (Backlog, m)) <$> msgs) /\
    brk s' = brk s /\ diffs s' = diffs s /\ removers s' = removers s /\
    (forall c, c <> ch -> chs s' !! c = chs s !! c /\ gos s' !! c = gos s !! c).
Proof.
  revert s. induction msgs as [|msg rest IH]; intros s Hinv Hg Hr.
  - exists s. cbn [length replicate run_to fmap list_fmap]. rewrite app_nil_r.
    do 7 (split; [done|]). done.
  - destruct (exec_to_go_send reading s ch msg rest Hinv Hg Hr)
      as (s1 & Hex & Hinv1 & Hg1 & Hlog1 & Hb1 & Hd1 & Hr1 & Hoth1).
    destruct (IH s1 Hinv1 Hg1 Hr)
      as (s' & Hrun & Hinv' & Hg' & Hlog' & Hb' & Hd' & Hr' & Hoth').
    exists s'. cbn [length replicate run_to]. rewrite Hex. cbn [mbind option_bind].
    split; [exact Hrun|]. split; [exact Hinv'|]. split; [exact Hg'|]. split.
    { rewrite Hlog', Hlog1. cbn [fmap list_fmap]. by rewrite <- (assoc app). }
    split; [congruence|]. split; [congruence|]. split; [congruence|].
    intros c Hne. destruct (Hoth' c Hne) as [-> ->]. by apply Hoth1.
Qed.

(** X16. The goroutine of a [Subscribe] and the reader of its channel.  In
    a state the broker can get into in which a message has been stored, the
    goroutine has just been started, no [removeSubscribers] is under way and
    no [diff] is inside its loop, let the goroutine run with nothing else
    going on.  It takes the read lock, gets through [waitTouch] and comes to
    [emit] with the buffered messages to send.  When the other side of the
    channel takes what it is handed, one send per buffered message and the
    registration go through without a panic: the channel has been handed
    exactly the buffered messages, in order, as backlog, it is flagged true
    in the map, and no other channel is touched.  When nobody reads and the
    buffer is not empty, the first send is no step: the goroutine stays in
    [emit], the channel out of the map. *)
Theorem handshake_completes (reading : chan -> bool) (s : System) (ch : chan)
    (r : ringBuffer) :
  reachable s ->
  gos s !! ch = Some GoStart -> removers s = [] ->
  state (brk s) = Some r -> touched r = true -> diffs s = [] ->
  exists s3,
    run_to reading [AGoRLock ch; AGoTouch ch; AGoEmit ch] s = Some s3 /\
    gos s3 !! ch = Some (GoEmit (items r)) /\
    brk s3 = brk s /\ chs s3 = chs s /\
    (reading ch = true ->
     exists s',
       run_to reading (replicate (length (items r)) (AGoSend ch) ++ [AGoRegister ch]) s3
         = Some s' /\
       panicked s' = false /\
       gos s' !! ch = Some GoDone /\
       subscribers (brk s') = <[ch := true]> (subscribers (brk s)) /\
       log (chs s') ch = log (chs s) ch ++ ((fun m => (Backlog, m)) <$> items r) /\
       (forall c, c <> ch -> chs s' !! c = chs s !! c)) /\
    (reading ch = false -> items r <> [] ->
     exec_to reading (AGoSend ch) s3 = None /\
     exec_to reading (AGoRegister ch) s3 = None /\
     subscribers (brk s3) !! ch = None).
Proof.
  intros Hre Hg Hrm Hr Ht Hd. pose proof (reachable_inv s Hre) as Hinv.
  pose proof (inv_alive s Hinv) as Hal.
  (* read lock *)
  assert (H1 : exec_to reading (AGoRLock ch) s = Some (set_go ch GoWait s)).
  { unfold exec_to, exec, remove_unlocked. cbn [sends_on]. by rewrite Hal, Hg, Hrm. }
  assert (Hinv1 : inv (set_go ch GoWait s)) by (by eapply inv_set_go).
  (* wait *)
  assert (H2 : exec_to reading (AGoTouch ch) (set_go ch GoWait s)
               = Some (set_go ch GoTouched (set_go ch GoWait s))).
  { unfold exec_to, exec. cbn [sends_on panicked set_go gos brk].
    rewrite Hal, lookup_insert_eq, Hr. unfold waitTouch. by rewrite Ht. }
  assert (Hinv2 : inv (set_go ch GoTouched (set_go ch GoWait s))).
  { eapply inv_set_go; [exact Hinv1|apply lookup_insert_eq|done|done]. }
  (* emit *)
  set (s2 := set_go ch GoTouched (set_go ch GoWait s)) in *.
  assert (H3 : exec_to reading (AGoEmit ch) s2 = Some (set_go ch (GoEmit (emit r)) s2)).
  { unfold exec_to, exec. subst s2. cbn [sends_on panicked set_go gos brk].
    by rewrite Hal, lookup_insert_eq, Hr. }
  assert (Hinv3 : inv (set_go ch (GoEmit (emit r)) s2)).
  { eapply inv_set_go; [exact Hinv2|apply lookup_insert_eq|done|done]. }
  set (s3 := set_go ch (GoEmit (emit r)) s2) in *.
  assert (Hg3 : gos s3 !! ch = Some (GoEmit (items r))) by apply lookup_insert_eq.
  exists s3. split.
  { cbn [run_to]. rewrite H1. cbn [mbind option_bind]. rewrite H2.
    cbn [mbind option_bind]. rewrite H3. reflexivity. }
  split; [exact Hg3|]. split; [reflexivity|]. split; [reflexivity|]. split.
  - intros Hread.
    destruct (run_to_go_sends reading ch (items r) s3 Hinv3 Hg3 Hread)
      as (s4 & Hrun4 & Hinv4 & Hg4 & Hlog4 & Hb4 & Hd4 & _ & Hoth4).
    assert (H5 : exec_to reading (AGoRegister ch) s4 =
                 Some (mkSystem (setSubscriber ch true (brk s4)) (chs s4)
                         (<[ch := GoDone]> (gos s4)) (diffs s4) (removers s4) false)).
    { unfold exec_to, exec, write_free. cbn [sends_on].
      rewrite (inv_alive s4 Hinv4), Hg4, Hd4.
      subst s3 s2. cbn [set_go diffs]. by rewrite Hd, bool_decide_eq_true_2. }
    eexists. split.
    { rewrite run_to_app, Hrun4. cbn [mbind option_bind run_to]. rewrite H5.
      reflexivity. }
    cbn [panicked gos brk chs]. split; [reflexivity|].
    split; [apply lookup_insert_eq|]. split.
    { rewrite Hb4. reflexivity. }
    split.
    { rewrite Hlog4. reflexivity. }
    intros c Hne. by destruct (Hoth4 c Hne) as [-> _].
  - intros Hunread Hne. destruct (items r) as [|msg rest] eqn:Hit; [done|].
    split; [by eapply exec_to_go_send_unread|]. split.
    + unfold exec_to, exec. cbn [sends_on]. by rewrite (inv_alive s3 Hinv3), Hg3.
    + by destruct (inv_gos s3 Hinv3 ch _ Hg3) as (_ & Hnone & _).
Qed.

Lemma handshake_completes_witness :
  let s := after [AFull msg_a 1; ASubscribe] in
  (exists s',
     run_to (fun _ => true)
       [AGoRLock 0%nat; AGoTouch 0%nat; AGoEmit 0%nat; AGoSend 0%nat; AGoRegister 0%nat] s
       = Some s' /\
     gos s' !! 0%nat = Some GoDone /\
     log (chs s') 0 = [(Backlog, msg_a)]) /\
  run_to (fun _ => false) [AGoRLock 0%nat; AGoTouch 0%nat; AGoEmit 0%nat; AGoSend 0%nat] s
    = None.
Proof.
  intros s.
  assert (Hre : reachable s).
  { apply after_reachable. vm_compute. eauto. }
  split.
  - destruct (handshake_completes (fun _ => true) s 0%nat (put msg_a (newRingBuffer 1)))
      as (s3 & Hrun3 & _ & _ & _ & Hread & _);
      [exact Hre|vm_compute; reflexivity|reflexivity|reflexivity|reflexivity|reflexivity|].
    destruct Hread as (s' & Hrun & _ & Hg & _ & Hlog & _); [reflexivity|].
    exists s'. split.
    + change [AGoRLock 0%nat; AGoTouch 0%nat; AGoEmit 0%nat; AGoSend 0%nat;
              AGoRegister 0%nat]
        with ([AGoRLock 0%nat; AGoTouch 0%nat; AGoEmit 0%nat] ++
              [AGoSend 0%nat; AGoRegister 0%nat]).
      rewrite run_to_app, Hrun3. exact Hrun.
    + split; [exact Hg|]. rewrite Hlog. reflexivity.
  - destruct (handshake_completes (fun _ => false) s 0%nat (put msg_a (newRingBuffer 1)))
      as (s3 & Hrun3 & _ & _ & _ & _ & Hunread);
      [exact Hre|vm_compute; reflexivity|reflexivity|reflexivity|reflexivity|reflexivity|].
    destruct Hunread as (Hsend & _); [reflexivity|discriminate|].
    change [AGoRLock 0%nat; AGoTouch 0%nat; AGoEmit 0%nat; AGoSend 0%nat]
      with ([AGoRLock 0%nat; AGoTouch 0%nat; AGoEmit 0%nat] ++ [AGoSend 0%nat]).
    rewrite run_to_app, Hrun3. cbn [mbind option_bind run_to]. by rewrite Hsend.
Defined.

End interleavingExtras.
